(** * The image-link block: a DOM-to-DOM transformation

    Shallow embedding of [blocks/image-link/image-link.js]:
    [createResponsivePicture], [createLink] and [decorate].

    The script works on the browser's DOM, a mutable tree of nodes that are
    passed around by reference.  The model keeps both aspects: every node
    carries an identity, a reference is that identity, and a mutation is an
    update of the node with that identity wherever it sits in the store. *)

From Stdlib Require Import String Ascii List Arith Bool Lia Permutation.
Import ListNotations.
Open Scope string_scope.
Open Scope list_scope.
Open Scope nat_scope.

(** ** JavaScript strings and truthiness *)

Module Js.

(** A string is truthy when it is not empty. *)
Definition truthy (s : string) : bool :=
  match s with EmptyString => false | String _ _ => true end.

(** [a || b] on strings. *)
Definition or_str (a b : string) : string := if truthy a then a else b.

(** [a || b] where [a] may be [undefined]. *)
Definition or_undef (a : option string) (b : string) : string :=
  match a with Some s => or_str s b | None => b end.

(** [a || b] on references that may be [null]. *)
Definition or_ref {A} (a b : option A) : option A :=
  match a with Some _ => a | None => b end.

(** A string holds the UTF-8 encoding of its text, byte by byte, as a
    string literal does.  White space is a matter of characters, so
    [trim] works on whole encoded characters, never on single bytes. *)
Definition utf8 (l : list nat) : list ascii := map ascii_of_nat l.

(** The characters [String.prototype.trim] strips, WhiteSpace and
    LineTerminator of ECMAScript, each in UTF-8:
    U+0009 TAB, U+000A LF, U+000B VT, U+000C FF, U+000D CR, U+0020 SP,
    U+00A0 NBSP, U+1680, U+2000 to U+200A, U+2028 LS, U+2029 PS, U+202F,
    U+205F, U+3000 and U+FEFF. *)
Definition spaces : list (list ascii) :=
  map utf8
    [ [9]; [10]; [11]; [12]; [13]; [32];
      [194; 160];
      [225; 154; 128];
      [226; 128; 128]; [226; 128; 129]; [226; 128; 130]; [226; 128; 131];
      [226; 128; 132]; [226; 128; 133]; [226; 128; 134]; [226; 128; 135];
      [226; 128; 136]; [226; 128; 137]; [226; 128; 138];
      [226; 128; 168]; [226; 128; 169];
      [226; 128; 175];
      [226; 129; 159];
      [227; 128; 128];
      [239; 187; 191] ].

(** What follows the prefix [e] of [l], when [l] starts with [e]. *)
Fixpoint strip_prefix (e l : list ascii) : option (list ascii) :=
  match e, l with
  | [], _ => Some l
  | c :: e', d :: l' => if Ascii.eqb c d then strip_prefix e' l' else None
  | _ :: _, [] => None
  end.

(** What follows the first character of [l], when that is one of [encs]. *)
Fixpoint lead_space (encs : list (list ascii)) (l : list ascii)
  : option (list ascii) :=
  match encs with
  | [] => None
  | e :: rest =>
      match strip_prefix e l with
      | Some r => Some r
      | None => lead_space rest l
      end
  end.

(** Drop leading characters of [encs]; every step consumes a byte, so
    the length of the text is fuel enough. *)
Fixpoint drop_spaces (encs : list (list ascii)) (fuel : nat) (l : list ascii)
  : list ascii :=
  match fuel with
  | O => l
  | S fuel' =>
      match lead_space encs l with
      | Some r => drop_spaces encs fuel' r
      | None => l
      end
  end.

Definition trim_start (l : list ascii) : list ascii :=
  drop_spaces spaces (List.length l) l.

(** Trailing white space is leading white space of the reversed text,
    with every character's bytes reversed as well. *)
Definition trim_end (l : list ascii) : list ascii :=
  List.rev (drop_spaces (map (@List.rev ascii) spaces) (List.length l) (List.rev l)).

Definition trim (s : string) : string :=
  string_of_list_ascii (trim_end (trim_start (list_ascii_of_string s))).

(** [l] is made of characters of [encs] only. *)
Inductive made_of (encs : list (list ascii)) : list ascii -> Prop :=
| made_nil : made_of encs []
| made_cons e r : In e encs -> made_of encs r -> made_of encs (e ++ r).

(** The string is white space only. *)
Definition white (s : string) : Prop :=
  made_of spaces (list_ascii_of_string s).

(** The string neither starts nor ends with a white space character. *)
Definition trimmed (s : string) : Prop :=
  forall e r, In e spaces ->
    list_ascii_of_string s <> e ++ r /\ list_ascii_of_string s <> r ++ e.

(** [t] is [s] without its leading and trailing white space. *)
Definition trims (s t : string) : Prop :=
  exists pre post,
    s = String.append pre (String.append t post)
    /\ white pre /\ white post /\ trimmed t.

End Js.

(** ** The DOM store *)

Definition nid := nat.

(** An element's attributes, in insertion order. *)
Definition attrs := list (string * string).

Unset Elimination Schemes.
Inductive node : Type :=
| Elem (id : nid) (tag : string) (atts : attrs) (kids : list node)
| Text (id : nid) (data : string).
Set Elimination Schemes.

(** Induction on a tree together with its lists of children. *)
Section NodeInd.
Variable P : node -> Prop.
Variable Q : list node -> Prop.
Hypothesis P_text : forall i s, P (Text i s).
Hypothesis P_elem : forall i tg a ks, Q ks -> P (Elem i tg a ks).
Hypothesis Q_nil : Q [].
Hypothesis Q_cons : forall t r, P t -> Q r -> Q (t :: r).

Fixpoint node_forest_ind (t : node) : P t :=
  match t with
  | Text i s => P_text i s
  | Elem i tg a ks =>
      P_elem i tg a ks
        ((fix all (l : list node) : Q l :=
            match l with
            | [] => Q_nil
            | k :: r => Q_cons k r (node_forest_ind k) (all r)
            end) ks)
  end.

End NodeInd.

Definition id_of (t : node) : nid :=
  match t with Elem i _ _ _ => i | Text i _ => i end.

Definition kids_of (t : node) : list node :=
  match t with Elem _ _ _ ks => ks | Text _ _ => [] end.

Definition tag_of (t : node) : option string :=
  match t with Elem _ tg _ _ => Some tg | Text _ _ => None end.

Definition atts_of (t : node) : attrs :=
  match t with Elem _ _ a _ => a | Text _ _ => [] end.

Definition is_elem (t : node) : bool :=
  match t with Elem _ _ _ _ => true | Text _ _ => false end.

(** The store: the trees that are alive (the document and every detached
    subtree still referenced) and the next unused identity. *)
Record world : Type := World { roots : list node; next : nid }.

(** *** Attribute lists *)

Fixpoint attr_get (k : string) (a : attrs) : option string :=
  match a with
  | [] => None
  | (k', v) :: r => if String.eqb k' k then Some v else attr_get k r
  end.

Fixpoint attr_set (k v : string) (a : attrs) : attrs :=
  match a with
  | [] => [(k, v)]
  | (k', v') :: r =>
      if String.eqb k' k then (k', v) :: r else (k', v') :: attr_set k v r
  end.

(** *** Changes to one node *)

(** The node with [c] as its new last child. *)
Definition push_kid (c : node) (t : node) : node :=
  match t with
  | Elem j tg a ks => Elem j tg a (ks ++ [c])
  | Text _ _ => t
  end.

(** The node with [new] in place of its children. *)
Definition set_kids (new : list node) (t : node) : node :=
  match t with
  | Elem j tg a _ => Elem j tg a new
  | Text _ _ => t
  end.

(** The node with attribute [k] set to [v]. *)
Definition set_att (k v : string) (t : node) : node :=
  match t with
  | Elem j tg a ks => Elem j tg (attr_set k v a) ks
  | Text _ _ => t
  end.

(** *** Traversals *)

(** The first success of [f] along a list. *)
Definition first_some {A B} (f : A -> option B) : list A -> option B :=
  fix go (l : list A) : option B :=
    match l with
    | [] => None
    | x :: r => match f x with Some y => Some y | None => go r end
    end.

(** The subtree whose root has identity [i], in document order. *)
Fixpoint find_node (i : nid) (t : node) {struct t} : option node :=
  if id_of t =? i then Some t
  else match t with
       | Elem _ _ _ ks => first_some (find_node i) ks
       | Text _ _ => None
       end.

Definition find_forest (i : nid) : list node -> option node :=
  first_some (find_node i).

(** Rewrites the node with identity [i]. *)
Fixpoint update_node (i : nid) (f : node -> node) (t : node) {struct t} : node :=
  if id_of t =? i then f t
  else match t with
       | Elem j tg a ks => Elem j tg a (map (update_node i f) ks)
       | Text _ _ => t
       end.

Definition update_forest (i : nid) (f : node -> node) : list node -> list node :=
  map (update_node i f).

(** Takes the node with identity [i] out of the children below [t]. *)
Fixpoint remove_below (i : nid) (t : node) {struct t} : node :=
  match t with
  | Elem j tg a ks =>
      Elem j tg a
        (flat_map (fun k => if id_of k =? i then [] else [remove_below i k]) ks)
  | Text _ _ => t
  end.

(** Takes the node with identity [i] out of its parent, or out of the roots. *)
Definition remove_forest (i : nid) : list node -> list node :=
  flat_map (fun k => if id_of k =? i then [] else [remove_below i k]).

(** First element with tag [sel] in document order, the root included. *)
Fixpoint query_node (sel : string) (t : node) {struct t} : option nid :=
  match t with
  | Elem j tg _ ks =>
      if String.eqb tg sel then Some j else first_some (query_node sel) ks
  | Text _ _ => None
  end.

Definition query_forest (sel : string) : list node -> option nid :=
  first_some (query_node sel).

(** Concatenation of the text of all descendants. *)
Fixpoint text_node (t : node) {struct t} : string :=
  match t with
  | Elem _ _ _ ks => String.concat "" (map text_node ks)
  | Text _ s => s
  end.

(** A copy of a subtree under new identities. *)
Fixpoint shift_node (k : nid) (t : node) {struct t} : node :=
  match t with
  | Elem j tg a ks => Elem (k + j) tg a (map (shift_node k) ks)
  | Text j s => Text (k + j) s
  end.

(** ** Effects: the store is threaded, an exception ends the run *)

Inductive exn : Type := TypeError | HierarchyRequestError.

Inductive result (A : Type) : Type :=
| Ok (a : A)
| Throw (e : exn).
Arguments Ok {A} a.
Arguments Throw {A} e.

Definition M (A : Type) : Type := world -> result (A * world).

Definition ret {A} (a : A) : M A := fun w => Ok (a, w).

Definition bind {A B} (c : M A) (k : A -> M B) : M B :=
  fun w => match c w with
           | Ok (a, w') => k a w'
           | Throw e => Throw e
           end.

Declare Scope dom_scope.
Delimit Scope dom_scope with dom.
Notation "x <- c ;; k" := (bind c (fun x => k))
  (at level 100, c at next level, right associativity) : dom_scope.
Notation "c ;;; k" := (bind c (fun _ => k))
  (at level 100, right associativity) : dom_scope.
Open Scope dom_scope.

(** [x?.f()] : nothing happens on [undefined] or [null]. *)
Definition chain {A B} (x : option A) (f : A -> M B) : M (option B) :=
  match x with
  | Some a => b <- f a ;; ret (Some b)
  | None => ret None
  end.

(** [x?.f()] where [f] itself answers a reference or [null]. *)
Definition chain_ref {A B} (x : option A) (f : A -> M (option B)) : M (option B) :=
  match x with
  | Some a => f a
  | None => ret None
  end.

(** ** The DOM interface the script uses *)

Module Dom.

Definition lookup (w : world) (i : nid) : option node :=
  find_forest i (roots w).

(** Reads through a reference to an element.  The script uses the members
    below on elements only; through any other reference the model answers
    [TypeError], as a member call on [undefined] does. *)
Definition element {A} (i : nid) (f : nid -> string -> attrs -> list node -> A)
  : M A :=
  fun w => match lookup w i with
           | Some (Elem j tg a ks) => Ok (f j tg a ks, w)
           | _ => Throw TypeError
           end.

(** [document.createElement(tag)] : a new element outside every tree. *)
Definition createElement (tg : string) : M nid :=
  fun w => Ok (next w,
               {| roots := roots w ++ [Elem (next w) tg [] []];
                  next := S (next w) |}).

(** [e.querySelector(sel)] for a type selector: the first descendant
    element with that tag, [e] itself excluded. *)
Definition querySelector (sel : string) (i : nid) : M (option nid) :=
  element i (fun _ _ _ ks => query_forest sel ks).

(** [e.children] : the child elements. *)
Definition children (i : nid) : M (list nid) :=
  element i (fun _ _ _ ks => map id_of (filter is_elem ks)).

(** [e.textContent]. *)
Definition textContent (i : nid) : M string :=
  element i (fun j tg a ks => text_node (Elem j tg a ks)).

(** A property that reflects a content attribute as a string
    ([alt], [title]): the empty string when the attribute is missing. *)
Definition getString (k : string) (i : nid) : M string :=
  element i (fun _ _ a _ => match attr_get k a with Some v => v | None => "" end).

(** A property that reflects a content attribute ([src], [href],
    [alt], [media], ...), on assignment. *)
Definition setString (k v : string) (i : nid) : M unit :=
  fun w => match lookup w i with
           | Some (Elem _ _ _ _) =>
               Ok (tt, {| roots := update_forest i (set_att k v) (roots w);
                          next := next w |})
           | _ => Throw TypeError
           end.

(** [e.textContent = s] : every child leaves [e] (and stays alive on its
    own), and a text node with [s] comes in unless [s] is empty. *)
Definition setTextContent (s : string) (i : nid) : M unit :=
  fun w => match lookup w i with
           | Some (Elem _ _ _ ks) =>
               let fresh := if Js.truthy s then [Text (next w) s] else [] in
               Ok (tt, {| roots := update_forest i (set_kids fresh) (roots w) ++ ks;
                          next := next w + length fresh |})
           | _ => Throw TypeError
           end.

(** [p.appendChild(c)] : [c] leaves the place it had and becomes the last
    child of [p]; refused when [p] sits inside [c]. *)
Definition appendChild (p c : nid) : M unit :=
  fun w => match lookup w p, lookup w c with
           | Some (Elem _ _ _ _), Some cn =>
               match find_node p cn with
               | Some _ => Throw HierarchyRequestError
               | None =>
                   Ok (tt, {| roots :=
                                update_forest p (push_kid cn)
                                  (remove_forest c (roots w));
                              next := next w |})
               end
           | Some (Text _ _), Some _ => Throw HierarchyRequestError
           | _, _ => Throw TypeError
           end.

(** [n.cloneNode(true)] : a deep copy outside every tree. *)
Definition cloneNode (i : nid) : M nid :=
  fun w => match lookup w i with
           | Some t =>
               Ok (next w + id_of t,
                   {| roots := roots w ++ [shift_node (next w) t];
                      next := next w + next w |})
           | None => Throw TypeError
           end.

End Dom.

(** ** The script *)

Section Script.

(** The platform's URL parser against the document's base URL: what a
    URL-valued property ([img.src], [a.href]) answers for the text of its
    content attribute. *)
Variable resolve : string -> string.

(** A property that reflects a content attribute as a URL: the empty
    string when the attribute is missing, the parsed URL otherwise. *)
Definition getUrl (k : string) (i : nid) : M string :=
  Dom.element i
    (fun _ _ a _ => match attr_get k a with Some v => resolve v | None => "" end).

Definition createResponsivePicture
  (desktopPicture mobilePicture : option nid) (alt : option string) : M nid :=
  picture <- Dom.createElement "picture" ;;
  desktopImg <- chain_ref desktopPicture (Dom.querySelector "img") ;;
  mobileImg <- chain_ref mobilePicture (Dom.querySelector "img") ;;
  (* Use desktop image if available, otherwise use mobile image *)
  match Js.or_ref desktopImg mobileImg with
  | None => ret picture
  | Some fallbackImg =>
      (* desktopImg && mobileImg && desktopImg.src !== mobileImg.src *)
      both <- match desktopImg, mobileImg with
              | Some d, Some m =>
                  ds <- getUrl "src" d ;;
                  ms <- getUrl "src" m ;;
                  ret (if String.eqb ds ms then None else Some (d, m))
              | _, _ => ret None
              end ;;
      match both with
      | Some (desktopImg, mobileImg) =>
          (* Mobile source (for screens < 768px) *)
          mobileSource <- Dom.createElement "source" ;;
          Dom.setString "media" "(max-width: 767px)" mobileSource ;;;
          msrc <- getUrl "src" mobileImg ;;
          Dom.setString "srcset" msrc mobileSource ;;;
          Dom.appendChild picture mobileSource ;;;
          (* Desktop source (for screens >= 768px) *)
          desktopSource <- Dom.createElement "source" ;;
          Dom.setString "media" "(min-width: 768px)" desktopSource ;;;
          dsrc <- getUrl "src" desktopImg ;;
          Dom.setString "srcset" dsrc desktopSource ;;;
          Dom.appendChild picture desktopSource ;;;
          (* Fallback img (defaults to desktop) *)
          img <- Dom.createElement "img" ;;
          dsrc' <- getUrl "src" desktopImg ;;
          Dom.setString "src" dsrc' img ;;;
          dalt <- Dom.getString "alt" desktopImg ;;
          Dom.setString "alt" (Js.or_str (Js.or_undef alt dalt) "") img ;;;
          Dom.setString "loading" "lazy" img ;;;
          Dom.appendChild picture img ;;;
          ret picture
      | None =>
          (* Only one image provided, use it directly *)
          img <- Dom.cloneNode fallbackImg ;;
          ialt <- Dom.getString "alt" img ;;
          Dom.setString "alt" (Js.or_str (Js.or_undef alt ialt) "") img ;;;
          Dom.setString "loading" "lazy" img ;;;
          Dom.appendChild picture img ;;;
          ret picture
      end
  end.

Definition createLink (href title target : string) (picture : nid) : M nid :=
  link <- Dom.createElement "a" ;;
  Dom.setString "href" href link ;;;
  Dom.setString "target" target link ;;;
  (if Js.truthy title then Dom.setString "title" title link else ret tt) ;;;
  (* Add security attributes for external links *)
  (if String.eqb target "_blank"
   then Dom.setString "rel" "noopener noreferrer" link
   else ret tt) ;;;
  Dom.appendChild link picture ;;;
  ret link.

Definition error_text : string := "Image Link: Please add at least one image".

Definition decorate (block : nid) : M unit :=
  rows <- Dom.children block ;;
  (* Fields: desktop, mobile, alt, link (with title attribute), linkTarget *)
  desktopPicture <- chain_ref (nth_error rows 0) (Dom.querySelector "picture") ;;
  mobilePicture <- chain_ref (nth_error rows 1) (Dom.querySelector "picture") ;;
  alt <- chain (nth_error rows 2)
           (fun r => s <- Dom.textContent r ;; ret (Js.trim s)) ;;
  linkElement <- chain_ref (nth_error rows 3) (Dom.querySelector "a") ;;
  (* linkTitle is collapsed into link element's title attribute *)
  title <- chain linkElement (Dom.getString "title") ;;
  let linkTitle := Js.or_undef title "" in
  (* linkTarget is a separate row *)
  target <- chain (nth_error rows 4)
              (fun r => s <- Dom.textContent r ;; ret (Js.trim s)) ;;
  let linkTarget := Js.or_undef target "_self" in
  (* Validate required elements *)
  match desktopPicture, mobilePicture with
  | None, None => Dom.setTextContent error_text block
  | _, _ =>
      (* Clear the block *)
      Dom.setTextContent "" block ;;;
      picture <- createResponsivePicture desktopPicture mobilePicture alt ;;
      (* linkElement && linkElement.href *)
      test <- chain linkElement (getUrl "href") ;;
      match linkElement, Js.truthy (Js.or_undef test "") with
      | Some a, true =>
          href <- getUrl "href" a ;;
          link <- createLink href linkTitle linkTarget picture ;;
          Dom.appendChild block link
      | _, _ => Dom.appendChild block picture
      end
  end.

End Script.

(** ** Invariants of the store *)

(** Every identity in the tree is below [n]. *)
Fixpoint below (n : nid) (t : node) {struct t} : bool :=
  (id_of t <? n)
  && match t with
     | Elem _ _ _ ks => forallb (below n) ks
     | Text _ _ => true
     end.

Definition bounded (n : nid) (l : list node) : bool := forallb (below n) l.

(** The identities of a tree, in document order. *)
Fixpoint ids_node (t : node) {struct t} : list nid :=
  id_of t :: match t with
             | Elem _ _ _ ks => flat_map ids_node ks
             | Text _ _ => []
             end.

Definition ids_forest (l : list node) : list nid := flat_map ids_node l.

Fixpoint distinct (l : list nid) : bool :=
  match l with
  | [] => true
  | x :: r => negb (existsb (Nat.eqb x) r) && distinct r
  end.

(** A store is well formed when no identity is used twice and [next] is
    above all of them. *)
Definition wf (w : world) : Prop :=
  bounded (next w) (roots w) = true /\ distinct (ids_forest (roots w)) = true.

(** A read leaves the store as it is. *)
Definition reads {A} (c : M A) (w : world) (a : A) : Prop := c w = Ok (a, w).

(** ** Runs on a part of the store *)

(** What a run on the new part of the store amounts to in the whole store. *)
Definition frame {A} (R : list node) (r : result (A * world)) : result (A * world) :=
  match r with
  | Ok (a, w) => Ok (a, World (R ++ roots w) (next w))
  | Throw e => Throw e
  end.

(** The attributes the Link Wrapper leaves on the anchor, in the order it
    sets them. *)
Definition link_atts (href title target : string) : attrs :=
  [("href", href); ("target", target)]
  ++ (if Js.truthy title then [("title", title)] else [])
  ++ (if String.eqb target "_blank" then [("rel", "noopener noreferrer")] else []).

(** ** What the script builds *)

(** The value of a string property and of a URL property of a node. *)
Definition str_att (k : string) (t : node) : string :=
  match attr_get k (atts_of t) with Some v => v | None => "" end.

Definition url_att (resolve : string -> string) (k : string) (t : node) : string :=
  match attr_get k (atts_of t) with Some v => resolve v | None => "" end.

(** The alt text the builder writes: the override, else the image's own. *)
Definition alt_text (alt : option string) (img : node) : string :=
  Js.or_str (Js.or_undef alt (str_att "alt" img)) "".

(** The three children of the picture when the two images differ. *)
Definition responsive_kids (resolve : string -> string) (n : nid)
  (alt : option string) (d m : node) : list node :=
  [ Elem (S n) "source"
      [("media", "(max-width: 767px)"); ("srcset", url_att resolve "src" m)] [];
    Elem (S (S n)) "source"
      [("media", "(min-width: 768px)"); ("srcset", url_att resolve "src" d)] [];
    Elem (S (S (S n))) "img"
      [("src", url_att resolve "src" d); ("alt", alt_text alt d);
       ("loading", "lazy")] [] ].

(** The only child of the picture when one image is used directly. *)
Definition single_kid (n : nid) (alt : option string) (img : node) : node :=
  set_att "loading" "lazy"
    (set_att "alt" (alt_text alt img) (shift_node (S n) img)).

(** The node a reference that may be [null] names among the trees [l]. *)
Definition node_opt (l : list node) (o : option nid) : option node :=
  match o with Some i => find_forest i l | None => None end.

(** The children of the picture, from the two images found (if any). *)
Definition built_kids (resolve : string -> string) (n : nid)
  (alt : option string) (desktopImg mobileImg : option node) : list node :=
  match desktopImg, mobileImg with
  | Some d, Some m =>
      if String.eqb (url_att resolve "src" d) (url_att resolve "src" m)
      then [single_kid n alt d]
      else responsive_kids resolve n alt d m
  | Some d, None => [single_kid n alt d]
  | None, Some m => [single_kid n alt m]
  | None, None => []
  end.

(** The child the block receives: the picture with identity [n], inside an
    anchor with identity [k] when the link element has a non-empty [href]
    ([test] is what [linkElement?.href] reads). *)
Definition block_child (n : nid) (title target : option string)
  (k : nid) (test : option string) (kids : list node) : node :=
  if Js.truthy (Js.or_undef test "")
  then Elem k "a"
         (link_atts (Js.or_undef test "") (Js.or_undef title "")
            (Js.or_undef target "_self"))
         [Elem n "picture" [] kids]
  else Elem n "picture" [] kids.

(** ** Observations used to state the properties *)

(** The value of a URL property and of a string property of the node a
    reference names. *)
Definition url_prop (resolve : string -> string) (w : world) (k : string) (i : nid)
  : string :=
  match Dom.lookup w i with Some t => url_att resolve k t | None => "" end.

Definition str_prop (w : world) (k : string) (i : nid) : string :=
  match Dom.lookup w i with Some t => str_att k t | None => "" end.

(** The alt text in words: the override when it is a non-empty string,
    the image's own alt text otherwise. *)
Definition chosen_alt (override : option string) (own : string) : string :=
  match override with
  | Some (String c s) => String c s
  | _ => own
  end.

(** The text of a row that may be missing, without the white space at
    its ends. *)
Definition trimmed_text (text t : option string) : Prop :=
  match text with
  | Some s => exists x, t = Some x /\ Js.trims s x
  | None => t = None
  end.

(** One image is to be used directly: only one of the two was found, or
    both were and their URLs are the same. *)
Definition single_source (resolve : string -> string) (w : world)
  (desktopImg mobileImg : option nid) : Prop :=
  match desktopImg, mobileImg with
  | Some d, Some m => url_prop resolve w "src" d = url_prop resolve w "src" m
  | Some _, None | None, Some _ => True
  | None, None => False
  end.

(** The rows of a block: its child elements. *)
Definition rows_of (ks : list node) : list nid := map id_of (filter is_elem ks).

(** The roots once the block has been cleared: the block is empty and its
    former children are trees of their own. *)
Definition cleared (b : nid) (R ks : list node) : list node :=
  update_forest b (set_kids []) R ++ ks.

(** The anchor found in row 3 carries an [href] attribute that is not
    empty. *)
Definition carries_href (w : world) (linkElement : option nid) : Prop :=
  exists l t v,
    linkElement = Some l /\ Dom.lookup w l = Some t
    /\ attr_get "href" (atts_of t) = Some v /\ v <> "".

(** The wrapping rule read on the markup: once a picture container has
    been found, the block's child is an anchor exactly when the anchor of
    row 3 carries a non-empty [href] attribute. *)
Definition wraps_iff_href_attribute (resolve : string -> string) : Prop :=
  forall w b rows desktopPicture mobilePicture linkElement w' tg a child,
    wf w ->
    reads (Dom.children b) w rows ->
    reads (chain_ref (nth_error rows 0) (Dom.querySelector "picture")) w desktopPicture ->
    reads (chain_ref (nth_error rows 1) (Dom.querySelector "picture")) w mobilePicture ->
    reads (chain_ref (nth_error rows 3) (Dom.querySelector "a")) w linkElement ->
    (desktopPicture <> None \/ mobilePicture <> None) ->
    decorate resolve b w = Ok (tt, w') ->
    Dom.lookup w' b = Some (Elem b tg a [child]) ->
    (tag_of child = Some "a" <-> carries_href w linkElement).

(** ** Scenarios *)

Module Scenario.

Definition base (s : string) : string := String.append "https://site/" s.

Definition row (i : nid) (inner : list node) : node :=
  Elem i "div" [] [Elem (S i) "div" [] inner].

Definition pic (i : nid) (src alt : string) : node :=
  Elem i "picture" [] [Elem (S i) "img" [("src", src); ("alt", alt)] []].

Definition rowsA : list node :=
  [ row 1 [pic 3 "d.png" "Dog"];
    row 5 [pic 7 "m.png" ""];
    row 9 [Text 11 " A cat "];
    row 12 [Elem 14 "a" [("href", "x"); ("title", "Go")] [Text 15 "Link"]];
    row 16 [Text 18 "_blank"] ].

(** Scenario A of the specification: two images, alt text, a link that
    opens a new browsing context. *)
Definition blockA : world :=
  {| roots := [Elem 0 "div" [("class", "image-link")] rowsA]; next := 19 |}.

(** Scenario B: only the mobile image, no alt text, no link. *)
Definition blockB : world :=
  {| roots := [Elem 0 "div" [] [row 1 []; row 3 [pic 5 "m.png" "Mobile"]]];
     next := 7 |}.

(** Scenario C: rows without any picture. *)
Definition blockC : world :=
  {| roots := [Elem 0 "div" [] [row 1 []; row 3 []; row 5 [Text 7 "text"]]];
     next := 8 |}.

(** A picture, an alt text and a link, but no target row. *)
Definition blockD : world :=
  {| roots :=
       [Elem 0 "div" []
          [ row 1 [pic 3 "d.png" "Dog"];
            row 5 [];
            row 7 [Text 9 "alt"];
            row 10 [Elem 12 "a" [("href", "x")] []] ]];
     next := 13 |}.

(** A block that holds text only. *)
Definition blockF : world :=
  {| roots := [Elem 0 "div" [] [Text 1 "hello"]]; next := 2 |}.

(** The text with the given UTF-8 bytes. *)
Definition text_of (l : list nat) : string := string_of_list_ascii (Js.utf8 l).

(** A picture and an anchor whose [href] attribute is there but empty. *)
Definition blockG : world :=
  {| roots :=
       [Elem 0 "div" []
          [ row 1 [pic 3 "d.png" "Dog"];
            row 5 [];
            row 7 [];
            row 9 [Elem 11 "a" [("href", "")] [Text 12 "Link"]] ]];
     next := 13 |}.

(** A picture and an anchor without [href] attribute. *)
Definition blockJ : world :=
  {| roots :=
       [Elem 0 "div" []
          [ row 1 [pic 3 "d.png" "Dog"];
            row 5 [];
            row 7 [];
            row 9 [Elem 11 "a" [("title", "Go")] [Text 12 "Link"]] ]];
     next := 13 |}.

(** Scenario A with white space beyond ASCII around the texts: U+3000
    before the alt text, U+00A0 and a line feed after it; U+FEFF before
    the target, U+2028 after it. *)
Definition blockH : world :=
  {| roots :=
       [Elem 0 "div" [("class", "image-link")]
          [ row 1 [pic 3 "d.png" "Dog"];
            row 5 [pic 7 "m.png" ""];
            row 9 [Text 11 (String.append (text_of [227; 128; 128])
                              (String.append "A cat" (text_of [194; 160; 10])))];
            row 12 [Elem 14 "a" [("href", "x"); ("title", "Go")] [Text 15 "Link"]];
            row 16 [Text 18 (String.append (text_of [239; 187; 191])
                               (String.append "_blank" (text_of [226; 128; 168])))] ]];
     next := 19 |}.

(** One image and an alt row that holds white space only: a space, U+3000
    and U+2003. *)
Definition blockI : world :=
  {| roots :=
       [Elem 0 "div" []
          [ row 1 [pic 3 "d.png" "Dog"];
            row 5 [];
            row 7 [Text 9 (text_of [32; 227; 128; 128; 226; 128; 131])] ]];
     next := 10 |}.

(** What the block holds after [decorate], if nothing is thrown. *)
Definition decorated (w : world) (block : nid) : option node :=
  match decorate base block w with
  | Ok (_, w') => Dom.lookup w' block
  | Throw _ => None
  end.

(** A picture container with no image inside, and nothing else. *)
Definition blockE : world :=
  {| roots := [Elem 0 "div" [] [row 1 [Elem 3 "picture" [] []]]]; next := 4 |}.

End Scenario.

(** ** [trim] removes the white space at both ends, and nothing else *)

Lemma strip_prefix_some e : forall l r,
  Js.strip_prefix e l = Some r -> l = e ++ r.
Proof.
  induction e as [|c e IH]; intros l r H; simpl in H.
  - now injection H as ->.
  - destruct l as [|d l]; [discriminate|].
    destruct (Ascii.eqb c d) eqn:E; [|discriminate].
    apply Ascii.eqb_eq in E. subst d. simpl. f_equal. now apply IH.
Qed.

Lemma strip_prefix_app e r : Js.strip_prefix e (e ++ r) = Some r.
Proof.
  induction e as [|c e IH]; simpl; [reflexivity|].
  now rewrite Ascii.eqb_refl.
Qed.

Lemma lead_space_some encs l r :
  Js.lead_space encs l = Some r -> exists e, In e encs /\ l = e ++ r.
Proof.
  induction encs as [|e encs IH]; simpl; [discriminate|].
  destruct (Js.strip_prefix e l) as [x|] eqn:E.
  - intros [= ->]. exists e. split; [now left | now apply strip_prefix_some].
  - intro H. destruct (IH H) as (e' & Hin & Heq). exists e'. split; [now right | exact Heq].
Qed.

Lemma lead_space_none encs l :
  Js.lead_space encs l = None -> forall e r, In e encs -> l <> e ++ r.
Proof.
  induction encs as [|e0 encs IH]; simpl; intros H e r Hin; [contradiction|].
  destruct (Js.strip_prefix e0 l) as [x|] eqn:E; [discriminate|].
  destruct Hin as [<-|Hin].
  - intros ->. now rewrite strip_prefix_app in E.
  - now apply IH.
Qed.

Lemma lead_space_nil encs :
  (forall e, In e encs -> e <> []) -> Js.lead_space encs [] = None.
Proof.
  induction encs as [|e encs IH]; intro Hne; simpl; [reflexivity|].
  destruct e as [|c e]; [now destruct (Hne [] (or_introl eq_refl))|].
  simpl. apply IH. intros e' Hin. apply Hne. now right.
Qed.

(** With the length of the text as fuel, dropping stops only where no
    white space character starts. *)
Lemma drop_spaces_spec encs :
  (forall e, In e encs -> e <> []) ->
  forall fuel l, List.length l <= fuel ->
    exists pre,
      l = pre ++ Js.drop_spaces encs fuel l
      /\ Js.made_of encs pre
      /\ Js.lead_space encs (Js.drop_spaces encs fuel l) = None.
Proof.
  intros Hne fuel. induction fuel as [|fuel IH]; intros l Hlen.
  - destruct l; [|simpl in Hlen; lia]. exists []. simpl.
    split; [reflexivity|]. split; [constructor | now apply lead_space_nil].
  - simpl. destruct (Js.lead_space encs l) as [r|] eqn:E.
    + destruct (lead_space_some _ _ _ E) as (e & Hin & ->).
      assert (Hr : List.length r <= fuel).
      { rewrite length_app in Hlen. specialize (Hne e Hin).
        destruct e; [congruence | simpl in Hlen; lia]. }
      destruct (IH r Hr) as (pre & Heq & Hw & Hnone).
      exists (e ++ pre). rewrite <- app_assoc. rewrite <- Heq.
      split; [reflexivity|]. split; [now constructor | exact Hnone].
    + exists []. split; [reflexivity|]. split; [constructor | exact E].
Qed.

Lemma made_of_snoc encs a e :
  Js.made_of encs a -> In e encs -> Js.made_of encs (a ++ e).
Proof.
  intros Ha Hin. induction Ha as [|e0 r Hin0 _ IH]; simpl.
  - rewrite <- (app_nil_r e). constructor; [exact Hin | constructor].
  - rewrite <- app_assoc. now constructor.
Qed.

Lemma made_of_rev encs pre :
  Js.made_of (map (@List.rev ascii) encs) pre -> Js.made_of encs (List.rev pre).
Proof.
  induction 1 as [|e r Hin _ IH]; simpl; [constructor|].
  rewrite rev_app_distr. apply made_of_snoc; [exact IH|].
  apply in_map_iff in Hin. destruct Hin as (e0 & <- & Hin).
  now rewrite rev_involutive.
Qed.

Lemma spaces_not_empty e : In e Js.spaces -> e <> [].
Proof.
  intros Hin ->. revert Hin. unfold Js.spaces, Js.utf8. simpl.
  intuition discriminate.
Qed.

Lemma rev_spaces_not_empty e : In e (map (@List.rev ascii) Js.spaces) -> e <> [].
Proof.
  intros Hin ->. apply in_map_iff in Hin. destruct Hin as (e0 & Hrev & Hin).
  apply (spaces_not_empty e0 Hin).
  rewrite <- (rev_involutive e0), Hrev. reflexivity.
Qed.

Lemma string_of_list_ascii_app a b :
  string_of_list_ascii (a ++ b)
  = String.append (string_of_list_ascii a) (string_of_list_ascii b).
Proof. induction a as [|c a IH]; simpl; [reflexivity | now rewrite IH]. Qed.

(** What [trim] returns is the text without its leading and trailing
    white space. *)
Lemma trim_trims s : Js.trims s (Js.trim s).
Proof.
  unfold Js.trim, Js.trim_end, Js.trim_start.
  set (l := list_ascii_of_string s).
  destruct (drop_spaces_spec Js.spaces spaces_not_empty (List.length l) l (le_n _))
    as (pre1 & Hl & Hw1 & Hn1).
  set (m := Js.drop_spaces Js.spaces (List.length l) l) in *.
  destruct (drop_spaces_spec (map (@List.rev ascii) Js.spaces) rev_spaces_not_empty
              (List.length m) (List.rev m)) as (pre2 & Hm & Hw2 & Hn2).
  { now rewrite length_rev. }
  set (d := Js.drop_spaces (map (@List.rev ascii) Js.spaces) (List.length m) (List.rev m)) in *.
  assert (Hm' : m = List.rev d ++ List.rev pre2).
  { rewrite <- rev_app_distr, <- Hm. now rewrite rev_involutive. }
  exists (string_of_list_ascii pre1), (string_of_list_ascii (List.rev pre2)).
  split.
  { rewrite <- !string_of_list_ascii_app, <- Hm', <- Hl.
    unfold l. now rewrite string_of_list_ascii_of_string. }
  unfold Js.white, Js.trimmed. rewrite !list_ascii_of_string_of_list_ascii.
  split; [exact Hw1|]. split; [now apply made_of_rev|].
  intros e r Hin. split; intro Heq.
  - apply (lead_space_none _ _ Hn1 e (r ++ List.rev pre2) Hin).
    rewrite Hm', Heq. now rewrite <- app_assoc.
  - apply (lead_space_none _ _ Hn2 (List.rev e) (List.rev r)).
    + now apply in_map.
    + rewrite <- rev_app_distr, <- Heq. now rewrite rev_involutive.
Qed.

(** ** Lemmas on the traversals *)

#[local] Arguments Nat.eqb : simpl never.
#[local] Arguments Nat.ltb : simpl never.

Ltac nat_tests :=
  repeat match goal with
    | |- context [?a =? ?b] =>
        first [ rewrite (proj2 (Nat.eqb_eq a b)) by lia
              | rewrite (proj2 (Nat.eqb_neq a b)) by lia ]
    | |- context [?a <? ?b] =>
        first [ rewrite (proj2 (Nat.ltb_lt a b)) by lia
              | rewrite (proj2 (Nat.ltb_ge a b)) by lia ]
    end.

Lemma node_forest_both (P : node -> Prop) (Q : list node -> Prop) :
  (forall i s, P (Text i s)) ->
  (forall i tg a ks, Q ks -> P (Elem i tg a ks)) ->
  Q [] ->
  (forall t r, P t -> Q r -> Q (t :: r)) ->
  (forall t, P t) /\ (forall l, Q l).
Proof.
  intros Ht He Hn Hc.
  pose proof (node_forest_ind P Q Ht He Hn Hc) as Hnode.
  split; [exact Hnode|].
  intro l. induction l as [|t r IH]; [exact Hn | exact (Hc t r (Hnode t) IH)].
Qed.

Lemma distinct_NoDup (l : list nid) : distinct l = true -> NoDup l.
Proof.
  induction l as [|x r IH]; simpl; intro H; constructor.
  - apply andb_true_iff in H as [H _].
    intro Hin. apply negb_true_iff in H.
    assert (existsb (Nat.eqb x) r = true) as E.
    { apply existsb_exists. exists x. split; [assumption | apply Nat.eqb_refl]. }
    congruence.
  - apply IH. apply andb_true_iff in H as [_ H]. exact H.
Qed.

Lemma NoDup_app_inv {A} (l1 l2 : list A) :
  NoDup (l1 ++ l2) ->
  NoDup l1 /\ NoDup l2 /\ (forall x, In x l1 -> ~ In x l2).
Proof.
  induction l1 as [|a l1 IH]; simpl; intro H.
  - repeat split; [constructor | assumption | intros x []].
  - inversion H as [|? ? Hn Hd]; subst.
    destruct (IH Hd) as (H1 & H2 & H3).
    repeat split; try assumption.
    + constructor; [|assumption]. intro Hin. apply Hn, in_or_app. now left.
    + intros x [->|Hx] Hx2.
      * apply Hn, in_or_app. now right.
      * exact (H3 x Hx Hx2).
Qed.

Section FirstSome.
Context {A B : Type} (f : A -> option B).

Lemma first_some_app (l l' : list A) :
  first_some f (l ++ l') =
    match first_some f l with Some y => Some y | None => first_some f l' end.
Proof.
  induction l as [|x r IH]; simpl; [reflexivity|].
  destruct (f x); [reflexivity | exact IH].
Qed.

End FirstSome.

Lemma find_forest_app i l l' :
  find_forest i (l ++ l') =
    match find_forest i l with Some y => Some y | None => find_forest i l' end.
Proof. apply first_some_app. Qed.

Lemma find_node_elem i j tg a ks :
  find_node i (Elem j tg a ks) =
    if j =? i then Some (Elem j tg a ks) else find_forest i ks.
Proof. reflexivity. Qed.

Lemma find_forest_cons i t r :
  find_forest i (t :: r) =
    match find_node i t with Some x => Some x | None => find_forest i r end.
Proof. reflexivity. Qed.

Lemma below_elem n j tg a ks :
  below n (Elem j tg a ks) = (j <? n) && bounded n ks.
Proof. reflexivity. Qed.

Lemma find_id_both i :
  (forall t x, find_node i t = Some x -> id_of x = i)
  /\ (forall l x, find_forest i l = Some x -> id_of x = i).
Proof.
  apply node_forest_both; intros *;
    rewrite ?find_node_elem, ?find_forest_cons; simpl.
  - destruct (i0 =? i) eqn:E; [|discriminate].
    intros [= <-]. now apply Nat.eqb_eq.
  - intros IH x. destruct (i0 =? i) eqn:E; [|now apply IH].
    intros [= <-]. now apply Nat.eqb_eq.
  - discriminate.
  - intros IHt IHr x. destruct (find_node i t) eqn:E; [|now apply IHr].
    intros [= <-]. now apply IHt.
Qed.

Lemma find_id i t x : find_node i t = Some x -> id_of x = i.
Proof. apply find_id_both. Qed.

Lemma find_forest_id i l x : find_forest i l = Some x -> id_of x = i.
Proof. apply find_id_both. Qed.

Lemma update_node_elem i f j tg a ks :
  update_node i f (Elem j tg a ks) =
    if j =? i then f (Elem j tg a ks) else Elem j tg a (update_forest i f ks).
Proof. reflexivity. Qed.

Lemma update_forest_cons i f t r :
  update_forest i f (t :: r) = update_node i f t :: update_forest i f r.
Proof. reflexivity. Qed.

Lemma update_forest_app i f l l' :
  update_forest i f (l ++ l') = update_forest i f l ++ update_forest i f l'.
Proof. apply map_app. Qed.

Lemma remove_below_elem i j tg a ks :
  remove_below i (Elem j tg a ks) = Elem j tg a (remove_forest i ks).
Proof. reflexivity. Qed.

Lemma remove_forest_cons i t r :
  remove_forest i (t :: r) =
    if id_of t =? i then remove_forest i r
    else remove_below i t :: remove_forest i r.
Proof. unfold remove_forest. simpl. now destruct (id_of t =? i). Qed.

Lemma remove_forest_app i l l' :
  remove_forest i (l ++ l') = remove_forest i l ++ remove_forest i l'.
Proof. apply flat_map_app. Qed.

Lemma bounded_cons n t r : bounded n (t :: r) = below n t && bounded n r.
Proof. reflexivity. Qed.

Lemma bounded_app n l l' : bounded n (l ++ l') = bounded n l && bounded n l'.
Proof. apply forallb_app. Qed.

Lemma ids_node_elem j tg a ks : ids_node (Elem j tg a ks) = j :: ids_forest ks.
Proof. reflexivity. Qed.

Lemma ids_forest_cons t r : ids_forest (t :: r) = ids_node t ++ ids_forest r.
Proof. reflexivity. Qed.

Lemma query_node_elem sel j tg a ks :
  query_node sel (Elem j tg a ks) =
    if String.eqb tg sel then Some j else query_forest sel ks.
Proof. reflexivity. Qed.

Lemma query_forest_cons sel t r :
  query_forest sel (t :: r) =
    match query_node sel t with Some x => Some x | None => query_forest sel r end.
Proof. reflexivity. Qed.

Lemma shift_node_elem k j tg a ks :
  shift_node k (Elem j tg a ks) = Elem (k + j) tg a (map (shift_node k) ks).
Proof. reflexivity. Qed.

Ltac split_and :=
  repeat match goal with
    | H : _ && _ = true |- _ => apply andb_true_iff in H; destruct H
    | H : (_ <? _) = true |- _ => apply Nat.ltb_lt in H
    | H : (_ =? _) = true |- _ => apply Nat.eqb_eq in H
    | H : (_ =? _) = false |- _ => apply Nat.eqb_neq in H
    end.

(** *** Identities above the bound are not in the tree *)

Lemma below_find_both n i (Hi : n <= i) :
  (forall t, below n t = true -> find_node i t = None)
  /\ (forall l, bounded n l = true -> find_forest i l = None).
Proof.
  apply node_forest_both; intros *.
  - simpl. intro H. split_and. now nat_tests.
  - intros IH. rewrite below_elem, find_node_elem. intro H. split_and.
    nat_tests. now apply IH.
  - reflexivity.
  - intros IHt IHr. rewrite bounded_cons, find_forest_cons. intro H. split_and.
    rewrite IHt by assumption. now apply IHr.
Qed.

Lemma find_none_update_both i f :
  (forall t, find_node i t = None -> update_node i f t = t)
  /\ (forall l, find_forest i l = None -> update_forest i f l = l).
Proof.
  apply node_forest_both; intros *.
  - simpl. now destruct (i0 =? i).
  - intros IH. rewrite find_node_elem, update_node_elem.
    destruct (i0 =? i); [discriminate|]. intro H. now rewrite IH.
  - reflexivity.
  - intros IHt IHr. rewrite find_forest_cons, update_forest_cons.
    destruct (find_node i t) eqn:E; [discriminate|].
    intro H. now rewrite IHt, IHr.
Qed.

Lemma below_remove_both n i (Hi : n <= i) :
  (forall t, below n t = true -> remove_below i t = t)
  /\ (forall l, bounded n l = true -> remove_forest i l = l).
Proof.
  apply node_forest_both; intros *.
  - reflexivity.
  - intros IH. rewrite below_elem, remove_below_elem. intro H. split_and.
    now rewrite IH.
  - reflexivity.
  - intros IHt IHr. rewrite bounded_cons, remove_forest_cons. intro H. split_and.
    assert (id_of t < n) by (destruct t; simpl in *; split_and; assumption).
    nat_tests. now rewrite IHt, IHr.
Qed.

Lemma find_below_both n i :
  (forall t x, below n t = true -> find_node i t = Some x -> below n x = true)
  /\ (forall l x, bounded n l = true -> find_forest i l = Some x -> below n x = true).
Proof.
  apply node_forest_both; intros *.
  - simpl. destruct (i0 =? i); [|discriminate]. now intros H [= <-].
  - intros IH x H. rewrite find_node_elem.
    destruct (i0 =? i); [now intros [= <-]|].
    rewrite below_elem in H. split_and. now apply IH.
  - discriminate.
  - intros IHt IHr x. rewrite bounded_cons, find_forest_cons. intro H. split_and.
    destruct (find_node i t) eqn:E; [intros [= <-]; now apply IHt | now apply IHr].
Qed.

Lemma remove_keeps_below_both n i :
  (forall t, below n t = true -> below n (remove_below i t) = true)
  /\ (forall l, bounded n l = true -> bounded n (remove_forest i l) = true).
Proof.
  apply node_forest_both; intros *.
  - trivial.
  - intros IH. rewrite remove_below_elem, !below_elem. intro H. split_and.
    apply andb_true_iff. split; [now apply Nat.ltb_lt | now apply IH].
  - reflexivity.
  - intros IHt IHr. rewrite bounded_cons, remove_forest_cons. intro H. split_and.
    destruct (id_of t =? i); [now apply IHr|].
    rewrite bounded_cons, IHt, IHr by assumption. reflexivity.
Qed.

Lemma update_keeps_below_both n i f
  (Hf : forall x, below n x = true -> below n (f x) = true) :
  (forall t, below n t = true -> below n (update_node i f t) = true)
  /\ (forall l, bounded n l = true -> bounded n (update_forest i f l) = true).
Proof.
  apply node_forest_both; intros *.
  - simpl update_node. destruct (i0 =? i); [apply Hf | trivial].
  - intros IH. rewrite update_node_elem.
    destruct (i0 =? i); [apply Hf|].
    rewrite !below_elem. intro H. split_and.
    apply andb_true_iff. split; [now apply Nat.ltb_lt | now apply IH].
  - reflexivity.
  - intros IHt IHr. rewrite update_forest_cons, !bounded_cons. intro H. split_and.
    now rewrite IHt, IHr.
Qed.

Lemma shift_find_both k i (Hi : i < k) :
  (forall t, find_node i (shift_node k t) = None)
  /\ (forall l, find_forest i (map (shift_node k) l) = None).
Proof.
  apply node_forest_both; intros *.
  - simpl. now nat_tests.
  - intros IH. rewrite shift_node_elem, find_node_elem. now nat_tests.
  - reflexivity.
  - intros IHt IHr. simpl map. rewrite find_forest_cons. now rewrite IHt.
Qed.

Lemma find_update_same_both i f (Hf : forall x, id_of x = i -> id_of (f x) = i) :
  (forall t x, find_node i t = Some x ->
               find_node i (update_node i f t) = Some (f x))
  /\ (forall l x, find_forest i l = Some x ->
                  find_forest i (update_forest i f l) = Some (f x)).
Proof.
  assert (Hself : forall t, id_of t = i -> find_node i (f t) = Some (f t)).
  { intros t Ht. specialize (Hf t Ht). destruct (f t); simpl in *; now nat_tests. }
  apply node_forest_both; intros *.
  - simpl. destruct (i0 =? i) eqn:E; [|discriminate].
    intros [= <-]. apply Hself. now apply Nat.eqb_eq.
  - intros IH x. rewrite find_node_elem, update_node_elem.
    destruct (i0 =? i) eqn:E.
    + intros [= <-]. apply Hself. now apply Nat.eqb_eq.
    + intro H. rewrite find_node_elem, E. now apply IH.
  - discriminate.
  - intros IHt IHr x. rewrite find_forest_cons, update_forest_cons, find_forest_cons.
    destruct (find_node i t) eqn:E.
    + intros [= <-]. now rewrite (IHt _ eq_refl).
    + intro H. rewrite (proj1 (find_none_update_both i f) _ E), E. now apply IHr.
Qed.

Lemma below_find n i (Hi : n <= i) t : below n t = true -> find_node i t = None.
Proof. now apply below_find_both. Qed.

Lemma bounded_find n i (Hi : n <= i) l : bounded n l = true -> find_forest i l = None.
Proof. now apply below_find_both. Qed.

Lemma bounded_remove n i (Hi : n <= i) l :
  bounded n l = true -> remove_forest i l = l.
Proof. now apply below_remove_both. Qed.

Lemma find_sub_below n i l x :
  bounded n l = true -> find_forest i l = Some x -> below n x = true.
Proof. apply find_below_both. Qed.

Lemma find_none_update i f l : find_forest i l = None -> update_forest i f l = l.
Proof. apply find_none_update_both. Qed.

Lemma find_update_same i f (Hf : forall x, id_of x = i -> id_of (f x) = i) l x :
  find_forest i l = Some x ->
  find_forest i (update_forest i f l) = Some (f x).
Proof. now apply find_update_same_both. Qed.

Lemma below_mono_both n m (Hnm : n <= m) :
  (forall t, below n t = true -> below m t = true)
  /\ (forall l, bounded n l = true -> bounded m l = true).
Proof.
  apply node_forest_both; intros *.
  - simpl. intro H. split_and. now nat_tests.
  - intros IH. rewrite !below_elem. intro H. split_and. nat_tests. now apply IH.
  - reflexivity.
  - intros IHt IHr. rewrite !bounded_cons. intro H. split_and. now rewrite IHt, IHr.
Qed.

Lemma shift_below_both k n :
  (forall t, below n t = true -> below (k + n) (shift_node k t) = true)
  /\ (forall l, bounded n l = true -> bounded (k + n) (map (shift_node k) l) = true).
Proof.
  apply node_forest_both; intros *.
  - simpl. intro H. split_and. now nat_tests.
  - intros IH. rewrite shift_node_elem, !below_elem. intro H. split_and.
    nat_tests. now apply IH.
  - reflexivity.
  - intros IHt IHr. simpl map. rewrite !bounded_cons. intro H. split_and.
    now rewrite IHt, IHr.
Qed.

(** *** Identities in a store without duplicates *)

Lemma not_in_find_both i :
  (forall t, ~ In i (ids_node t) -> find_node i t = None)
  /\ (forall l, ~ In i (ids_forest l) -> find_forest i l = None).
Proof.
  apply node_forest_both; intros *.
  - simpl. intro H. destruct (i0 =? i) eqn:E; [|reflexivity].
    split_and. tauto.
  - intros IH. rewrite ids_node_elem, find_node_elem. intro H.
    destruct (i0 =? i) eqn:E.
    + split_and. exfalso. apply H. now left.
    + apply IH. intro Hin. apply H. now right.
  - reflexivity.
  - intros IHt IHr. rewrite ids_forest_cons, find_forest_cons. intro H.
    rewrite IHt, IHr; [reflexivity| |]; intro Hin; apply H, in_or_app; tauto.
Qed.

Lemma id_in_ids t : In (id_of t) (ids_node t).
Proof. destruct t; now left. Qed.

Lemma find_incl_both i :
  (forall t x, find_node i t = Some x -> incl (ids_node x) (ids_node t))
  /\ (forall l x, find_forest i l = Some x -> incl (ids_node x) (ids_forest l)).
Proof.
  apply node_forest_both; intros *.
  - simpl find_node. destruct (i0 =? i); [|discriminate].
    intros [= <-]. apply incl_refl.
  - intros IH x. rewrite find_node_elem.
    destruct (i0 =? i); [intros [= <-]; apply incl_refl|].
    intro H. rewrite ids_node_elem. apply incl_tl. now apply IH.
  - discriminate.
  - intros IHt IHr x. rewrite find_forest_cons, ids_forest_cons.
    destruct (find_node i t) eqn:E.
    + intros [= <-]. apply incl_appl. now apply IHt.
    + intro H. apply incl_appr. now apply IHr.
Qed.

Lemma find_in_ids i l x : find_forest i l = Some x -> In i (ids_forest l).
Proof.
  intro H. apply (proj2 (find_incl_both i) _ _ H).
  rewrite <- (find_forest_id _ _ _ H). apply id_in_ids.
Qed.

Lemma kids_incl x : incl (ids_forest (kids_of x)) (ids_node x).
Proof. destruct x; simpl; [apply incl_tl, incl_refl | intros ? []]. Qed.

Lemma nodup_sub_both i :
  (forall t x, NoDup (ids_node t) -> find_node i t = Some x -> NoDup (ids_node x))
  /\ (forall l x, NoDup (ids_forest l) -> find_forest i l = Some x ->
                  NoDup (ids_node x)).
Proof.
  apply node_forest_both; intros *.
  - simpl find_node. destruct (i0 =? i); [|discriminate]. now intros H [= <-].
  - intros IH x H. rewrite find_node_elem.
    destruct (i0 =? i); [now intros [= <-]|].
    rewrite ids_node_elem in H. inversion H; subst. now apply IH.
  - discriminate.
  - intros IHt IHr x. rewrite find_forest_cons, ids_forest_cons. intro H.
    apply NoDup_app_inv in H as (Ht & Hr & _).
    destruct (find_node i t) eqn:E; [intros [= <-]; now apply IHt | now apply IHr].
Qed.

(** A node found below a found node is found from the top as well. *)
Lemma descend_both i j :
  (forall t x y, NoDup (ids_node t) -> find_node i t = Some x ->
                 find_forest j (kids_of x) = Some y -> find_node j t = Some y)
  /\ (forall l x y, NoDup (ids_forest l) -> find_forest i l = Some x ->
                    find_forest j (kids_of x) = Some y -> find_forest j l = Some y).
Proof.
  apply node_forest_both; intros *.
  - simpl find_node. destruct (i0 =? i); [|discriminate].
    intros _ [= <-]. discriminate.
  - intros IH x y Hnd. rewrite !find_node_elem. rewrite ids_node_elem in Hnd.
    inversion Hnd as [|? ? Hn Hd]; subst.
    destruct (i0 =? i) eqn:E.
    + intros [= <-] Hy. simpl in Hy.
      assert (i0 <> j) by (intros ->; apply Hn; exact (find_in_ids _ _ _ Hy)).
      now nat_tests.
    + intros Hx Hy. specialize (IH _ _ Hd Hx Hy).
      assert (i0 <> j) by (intros ->; apply Hn; exact (find_in_ids _ _ _ IH)).
      now nat_tests.
  - discriminate.
  - intros IHt IHr x y Hnd. rewrite !find_forest_cons. rewrite ids_forest_cons in Hnd.
    apply NoDup_app_inv in Hnd as (Ht & Hr & Hdis).
    destruct (find_node i t) eqn:E.
    + intros [= <-] Hy. now rewrite (IHt _ _ Ht eq_refl Hy).
    + intros Hx Hy. specialize (IHr _ _ Hr Hx Hy).
      rewrite (proj1 (not_in_find_both j) t); [exact IHr|].
      intro Hin. exact (Hdis _ Hin (find_in_ids _ _ _ IHr)).
Qed.

(** What [querySelector] names is an element with the tag asked for. *)
Lemma query_find_both sel :
  (forall t d, NoDup (ids_node t) -> query_node sel t = Some d ->
               exists a ks, find_node d t = Some (Elem d sel a ks))
  /\ (forall l d, NoDup (ids_forest l) -> query_forest sel l = Some d ->
                  exists a ks, find_forest d l = Some (Elem d sel a ks)).
Proof.
  apply node_forest_both; intros *.
  - discriminate.
  - intros IH d Hnd. rewrite query_node_elem, find_node_elem.
    rewrite ids_node_elem in Hnd. inversion Hnd as [|? ? Hn Hd]; subst.
    destruct (String.eqb tg sel) eqn:E.
    + intros [= <-]. apply String.eqb_eq in E. subst. rewrite Nat.eqb_refl. eauto.
    + intro H. destruct (IH _ Hd H) as (a' & ks' & Hf).
      assert (i <> d) by (intros ->; apply Hn; exact (find_in_ids _ _ _ Hf)).
      nat_tests. eauto.
  - discriminate.
  - intros IHt IHr d Hnd. rewrite query_forest_cons, find_forest_cons.
    rewrite ids_forest_cons in Hnd.
    apply NoDup_app_inv in Hnd as (Ht & Hr & Hdis).
    destruct (query_node sel t) eqn:E.
    + intros [= <-]. destruct (IHt _ Ht eq_refl) as (a' & ks' & ->). eauto.
    + intro H. destruct (IHr _ Hr H) as (a' & ks' & Hf).
      rewrite (proj1 (not_in_find_both d) t); [eauto|].
      intro Hin. exact (Hdis _ Hin (find_in_ids _ _ _ Hf)).
Qed.

Lemma member_ids t l : In t l -> incl (ids_node t) (ids_forest l).
Proof.
  induction l as [|t' r IH]; [intros []|].
  rewrite ids_forest_cons. intros [->|H].
  - now apply incl_appl, incl_refl.
  - now apply incl_appr, IH.
Qed.

Lemma find_member l t :
  NoDup (ids_forest l) -> In t l -> find_forest (id_of t) l = Some t.
Proof.
  induction l as [|t' r IH]; [intros _ []|].
  rewrite ids_forest_cons, find_forest_cons. intros Hnd Hin.
  apply NoDup_app_inv in Hnd as (Ht & Hr & Hdis).
  destruct Hin as [->|Hin].
  - destruct t; simpl; now rewrite Nat.eqb_refl.
  - rewrite (proj1 (not_in_find_both (id_of t)) t'); [now apply IH|].
    intro H. exact (Hdis _ H (@member_ids t r Hin _ (id_in_ids t))).
Qed.

(** ** The store under the DOM operations *)

Lemma bind_ok {A B} (c : M A) (k : A -> M B) w a w' :
  c w = Ok (a, w') -> bind c k w = k a w'.
Proof. unfold bind. now intros ->. Qed.

Lemma bounded_update n i f l :
  bounded n l = true -> n <= i -> update_forest i f l = l.
Proof. intros H Hi. apply find_none_update. now apply (bounded_find n i Hi). Qed.

Section Frame.
Variables (R : list node) (n : nid).
Hypothesis HR : bounded n R = true.

Lemma lookup_fresh F m i :
  n <= i -> Dom.lookup (World (R ++ F) m) i = find_forest i F.
Proof.
  intro Hi. unfold Dom.lookup. simpl. rewrite find_forest_app.
  now rewrite (bounded_find n i Hi _ HR).
Qed.

Lemma lookup_old F m i t :
  find_forest i R = Some t -> Dom.lookup (World (R ++ F) m) i = Some t.
Proof.
  intro H. unfold Dom.lookup. simpl. rewrite find_forest_app. now rewrite H.
Qed.

Lemma old_id i t : find_forest i R = Some t -> id_of t = i /\ i < n.
Proof.
  intro H. pose proof (find_forest_id _ _ _ H) as Hid.
  pose proof (find_sub_below _ _ _ _ HR H) as Hb.
  split; [assumption|]. destruct t; simpl in *; split_and; lia.
Qed.

Lemma element_fresh {A} (f : nid -> string -> attrs -> list node -> A) F m i :
  n <= i ->
  Dom.element i f (World (R ++ F) m) = frame R (Dom.element i f (World F m)).
Proof.
  intro Hi. unfold Dom.element. rewrite lookup_fresh by assumption.
  unfold Dom.lookup. simpl. destruct (find_forest i F) as [[]|]; reflexivity.
Qed.

Lemma element_old {A} (f : nid -> string -> attrs -> list node -> A) F m i j tg a ks :
  find_forest i R = Some (Elem j tg a ks) ->
  Dom.element i f (World (R ++ F) m) = Ok (f j tg a ks, World (R ++ F) m).
Proof. intro H. unfold Dom.element. now rewrite (lookup_old _ _ _ _ H). Qed.

Lemma setString_fresh k v F m i :
  n <= i ->
  Dom.setString k v i (World (R ++ F) m) =
    frame R (Dom.setString k v i (World F m)).
Proof.
  intro Hi. unfold Dom.setString. rewrite lookup_fresh by assumption.
  unfold Dom.lookup. simpl.
  destruct (find_forest i F) as [[]|]; try reflexivity.
  simpl. rewrite update_forest_app.
  now rewrite (bounded_update _ _ _ _ HR Hi).
Qed.

Lemma appendChild_fresh F m p c :
  n <= p -> n <= c ->
  Dom.appendChild p c (World (R ++ F) m) =
    frame R (Dom.appendChild p c (World F m)).
Proof.
  intros Hp Hc. unfold Dom.appendChild. rewrite !lookup_fresh by assumption.
  unfold Dom.lookup. simpl.
  destruct (find_forest p F) as [[]|]; try reflexivity;
    destruct (find_forest c F) as [cn|]; try reflexivity.
  destruct (find_node p cn); [reflexivity|]. simpl.
  rewrite remove_forest_app, update_forest_app.
  rewrite (bounded_remove n c Hc _ HR).
  now rewrite (bounded_update _ _ _ _ HR Hp).
Qed.

(** A node of the old store becomes the last child of a new element. *)
Lemma appendChild_fresh_old F m p c cn j tg a ks :
  n <= p -> find_forest c R = Some cn ->
  find_forest p F = Some (Elem j tg a ks) ->
  Dom.appendChild p c (World (R ++ F) m) =
    Ok (tt, World (remove_forest c R
                   ++ update_forest p (push_kid cn) (remove_forest c F)) m).
Proof.
  intros Hp Hc HpF. unfold Dom.appendChild.
  rewrite lookup_fresh by assumption. rewrite HpF.
  rewrite (lookup_old _ _ _ _ Hc).
  rewrite (below_find n p Hp _ (find_sub_below _ _ _ _ HR Hc)). simpl.
  rewrite remove_forest_app, update_forest_app.
  rewrite (bounded_update n); [reflexivity| |assumption].
  now apply remove_keeps_below_both.
Qed.

(** A new node outside every tree becomes the last child of an old element. *)
Lemma appendChild_old_fresh m p c tg a ks :
  find_forest p R = Some (Elem p tg a ks) ->
  n <= id_of c -> find_node p c = None ->
  Dom.appendChild p (id_of c) (World (R ++ [c]) m) =
    Ok (tt, World (update_forest p (push_kid c) R) m).
Proof.
  intros Hp Hc Hpc. unfold Dom.appendChild.
  rewrite (lookup_old _ _ _ _ Hp). rewrite lookup_fresh by assumption.
  assert (find_forest (id_of c) [c] = Some c) as ->.
  { destruct c; simpl; now rewrite Nat.eqb_refl. }
  rewrite Hpc. simpl.
  rewrite remove_forest_app, (bounded_remove n _ Hc _ HR).
  rewrite remove_forest_cons, Nat.eqb_refl. simpl.
  now rewrite app_nil_r.
Qed.

Lemma cloneNode_old F m i t :
  find_forest i R = Some t ->
  Dom.cloneNode i (World (R ++ F) m) =
    Ok (m + i, World (R ++ (F ++ [shift_node m t])) (m + m)).
Proof.
  intro H. unfold Dom.cloneNode. rewrite (lookup_old _ _ _ _ H).
  rewrite (find_forest_id _ _ _ H). simpl. now rewrite app_assoc.
Qed.

End Frame.

(** *** The Link Wrapper, step by step *)

Ltac step_create :=
  unfold bind at 1; unfold Dom.createElement at 1; cbv beta iota;
  simpl roots; simpl next; rewrite <- ?app_assoc; cbn [app].

Ltac step_set HR :=
  unfold bind at 1; rewrite (setString_fresh _ _ HR) by lia;
  unfold Dom.setString at 1, Dom.lookup; simpl; nat_tests; simpl.

Ltac step_ret := unfold bind at 1; unfold ret at 1.

Ltac step_append HR :=
  unfold bind at 1; rewrite (appendChild_fresh _ _ HR) by lia;
  unfold Dom.appendChild at 1, Dom.lookup;
  repeat (progress (simpl; nat_tests)).

Lemma createLink_run R n href title target pic pn :
  bounded n R = true ->
  find_forest pic R = Some pn ->
  createLink href title target pic (World R n) =
    Ok (n, World (remove_forest pic R
                  ++ [Elem n "a" (link_atts href title target) [pn]]) (S n)).
Proof.
  intros HR Hpic. destruct (old_id _ _ HR _ _ Hpic) as [Hid Hlt].
  unfold createLink, link_atts.
  step_create. step_set HR. step_set HR.
  destruct (Js.truthy title); [step_set HR | step_ret];
    (destruct (String.eqb target "_blank"); [step_set HR | step_ret]);
    unfold bind at 1;
    erewrite (appendChild_fresh_old _ _ HR) by
      (first [lia | eassumption | simpl; nat_tests; reflexivity]);
    rewrite remove_forest_cons; simpl; nat_tests; simpl; nat_tests; reflexivity.
Qed.

(** *** The Picture Builder, step by step *)

Section Builder.
Variable resolve : string -> string.
Variables (R : list node) (n : nid).
Hypothesis HR : bounded n R = true.

Lemma reads_element_ext {A} (f : nid -> string -> attrs -> list node -> A) i x F m :
  reads (Dom.element i f) (World R n) x ->
  reads (Dom.element i f) (World (R ++ F) m) x.
Proof.
  unfold reads, Dom.element. unfold Dom.lookup at 1. simpl.
  destruct (find_forest i R) as [[j tg a ks|]|] eqn:E; try discriminate.
  intros [= <-]. now rewrite (lookup_old _ _ _ _ _ E).
Qed.

Lemma reads_query_ext sel p o F m :
  reads (chain_ref p (Dom.querySelector sel)) (World R n) o ->
  reads (chain_ref p (Dom.querySelector sel)) (World (R ++ F) m) o.
Proof.
  destruct p as [i|]; simpl.
  - apply reads_element_ext.
  - unfold reads, ret. now intros [= <-].
Qed.

Lemma getUrl_old k i t F m :
  find_forest i R = Some t -> is_elem t = true ->
  getUrl resolve k i (World (R ++ F) m) =
    Ok (url_att resolve k t, World (R ++ F) m).
Proof.
  destruct t as [j tg a ks|]; [|discriminate]. intros H _.
  unfold getUrl. now rewrite (element_old _ _ _ _ _ _ _ _ _ H).
Qed.

Lemma getString_old k i t F m :
  find_forest i R = Some t -> is_elem t = true ->
  Dom.getString k i (World (R ++ F) m) = Ok (str_att k t, World (R ++ F) m).
Proof.
  destruct t as [j tg a ks|]; [|discriminate]. intros H _.
  unfold Dom.getString. now rewrite (element_old _ _ _ _ _ _ _ _ _ H).
Qed.

Variables (desktopPicture mobilePicture : option nid) (alt : option string).
Variables (desktopImg mobileImg : option nid).
Hypothesis Hd :
  reads (chain_ref desktopPicture (Dom.querySelector "img")) (World R n) desktopImg.
Hypothesis Hm :
  reads (chain_ref mobilePicture (Dom.querySelector "img")) (World R n) mobileImg.

(** Neither image: the picture stays empty. *)
Lemma builder_empty :
  desktopImg = None -> mobileImg = None ->
  createResponsivePicture resolve desktopPicture mobilePicture alt (World R n) =
    Ok (n, World (R ++ [Elem n "picture" [] []]) (S n)).
Proof.
  intros -> ->. unfold createResponsivePicture. step_create.
  unfold bind at 1. rewrite (reads_query_ext _ _ _ _ _ Hd).
  unfold bind at 1. rewrite (reads_query_ext _ _ _ _ _ Hm).
  reflexivity.
Qed.

Lemma builder_responsive d m dn mn :
  desktopImg = Some d -> mobileImg = Some m ->
  find_forest d R = Some dn -> is_elem dn = true ->
  find_forest m R = Some mn -> is_elem mn = true ->
  url_att resolve "src" dn <> url_att resolve "src" mn ->
  createResponsivePicture resolve desktopPicture mobilePicture alt (World R n) =
    Ok (n, World (R ++ [Elem n "picture" [] (responsive_kids resolve n alt dn mn)])
             (S (S (S (S n))))).
Proof.
  intros -> -> Hdn Hde Hmn Hme Hne. unfold createResponsivePicture. step_create.
  unfold bind at 1. rewrite (reads_query_ext _ _ _ _ _ Hd).
  unfold bind at 1. rewrite (reads_query_ext _ _ _ _ _ Hm).
  unfold Js.or_ref. cbv beta iota.
  unfold bind at 1. unfold bind at 1.
  rewrite (getUrl_old _ _ _ _ _ Hdn Hde).
  unfold bind at 1. rewrite (getUrl_old _ _ _ _ _ Hmn Hme).
  unfold ret at 1. apply String.eqb_neq in Hne. rewrite Hne. cbv beta iota.
  step_create. step_set HR.
  unfold bind at 1. rewrite (getUrl_old _ _ _ _ _ Hmn Hme).
  step_set HR. step_append HR.
  step_create. step_set HR.
  unfold bind at 1. rewrite (getUrl_old _ _ _ _ _ Hdn Hde).
  step_set HR. step_append HR.
  step_create.
  unfold bind at 1. rewrite (getUrl_old _ _ _ _ _ Hdn Hde).
  step_set HR.
  unfold bind at 1. rewrite (getString_old _ _ _ _ _ Hdn Hde).
  step_set HR. step_set HR. step_append HR.
  reflexivity.
Qed.

Lemma builder_clone fb fbn :
  find_forest fb R = Some fbn -> is_elem fbn = true ->
  (img <- Dom.cloneNode fb ;;
   ialt <- Dom.getString "alt" img ;;
   Dom.setString "alt" (Js.or_str (Js.or_undef alt ialt) "") img ;;;
   Dom.setString "loading" "lazy" img ;;;
   Dom.appendChild n img ;;;
   ret n) (World (R ++ [Elem n "picture" [] []]) (S n)) =
    Ok (n, World (R ++ [Elem n "picture" [] [single_kid n alt fbn]]) (S n + S n)).
Proof.
  intros Hfb He. destruct (old_id _ _ HR _ _ Hfb) as [Hid Hlt].
  destruct fbn as [j tg a ks|]; [|discriminate]. simpl in Hid. subst j.
  unfold bind at 1. rewrite (cloneNode_old _ _ _ _ _ Hfb). cbn [app].
  unfold bind at 1. unfold Dom.getString at 1.
  rewrite (element_fresh _ _ HR) by lia.
  unfold Dom.element, Dom.lookup.
  repeat (progress (simpl; nat_tests)).
  step_set HR. step_set HR.
  unfold bind at 1. rewrite (appendChild_fresh _ _ HR) by lia.
  unfold Dom.appendChild at 1, Dom.lookup.
  repeat (progress (simpl; nat_tests)).
  change (first_some (find_node n) (map (shift_node (S n)) ks))
    with (find_forest n (map (shift_node (S n)) ks)).
  rewrite (proj2 (shift_find_both (S n) n (Nat.lt_succ_diag_r n))).
  repeat (progress (simpl; nat_tests)).
  reflexivity.
Qed.

Lemma builder_single fb fbn :
  Js.or_ref desktopImg mobileImg = Some fb ->
  find_forest fb R = Some fbn -> is_elem fbn = true ->
  (forall d m, desktopImg = Some d -> mobileImg = Some m ->
     exists dn mn,
       find_forest d R = Some dn /\ is_elem dn = true /\
       find_forest m R = Some mn /\ is_elem mn = true /\
       url_att resolve "src" dn = url_att resolve "src" mn) ->
  createResponsivePicture resolve desktopPicture mobilePicture alt (World R n) =
    Ok (n, World (R ++ [Elem n "picture" [] [single_kid n alt fbn]]) (S n + S n)).
Proof.
  intros Hor Hfb He Hsame. unfold createResponsivePicture. step_create.
  unfold bind at 1. rewrite (reads_query_ext _ _ _ _ _ Hd).
  unfold bind at 1. rewrite (reads_query_ext _ _ _ _ _ Hm).
  rewrite Hor. cbv beta iota.
  destruct desktopImg as [d|], mobileImg as [m|]; try discriminate.
  - destruct (Hsame d m eq_refl eq_refl) as (dn & mn & Hdn & Hde & Hmn & Hme & Heq).
    unfold bind at 1. unfold bind at 1.
    rewrite (getUrl_old _ _ _ _ _ Hdn Hde).
    unfold bind at 1. rewrite (getUrl_old _ _ _ _ _ Hmn Hme).
    unfold ret at 1. rewrite Heq, String.eqb_refl. cbv beta iota.
    now apply builder_clone.
  - step_ret. now apply builder_clone.
  - step_ret. now apply builder_clone.
Qed.

End Builder.

(** In a well-formed store, what [querySelector] answers is an element of
    the store with the tag asked for. *)
Lemma wf_query R n sel p d :
  wf (World R n) ->
  reads (chain_ref p (Dom.querySelector sel)) (World R n) (Some d) ->
  exists a ks, find_forest d R = Some (Elem d sel a ks).
Proof.
  intros [_ Hnd] H. apply distinct_NoDup in Hnd. simpl in Hnd.
  destruct p as [i|]; [|discriminate].
  unfold reads, chain_ref, Dom.querySelector, Dom.element, Dom.lookup in H.
  simpl in H.
  destruct (find_forest i R) as [[j tg a ks|]|] eqn:E; try discriminate.
  injection H as H.
  pose proof (proj2 (nodup_sub_both i) _ _ Hnd E) as Hsub.
  rewrite ids_node_elem in Hsub. inversion Hsub as [|? ? _ Hks]; subst.
  destruct (proj2 (query_find_both sel) _ _ Hks H) as (a' & ks' & Hf).
  exists a', ks'. exact (proj2 (descend_both i d) _ _ _ Hnd E Hf).
Qed.

(** Whatever was found, the builder returns a new picture next to the
    trees of the store, which stay as they were. *)
Lemma builder_total resolve R n dp mp alt od om :
  bounded n R = true ->
  reads (chain_ref dp (Dom.querySelector "img")) (World R n) od ->
  reads (chain_ref mp (Dom.querySelector "img")) (World R n) om ->
  (forall d, od = Some d -> exists t, find_forest d R = Some t /\ is_elem t = true) ->
  (forall m, om = Some m -> exists t, find_forest m R = Some t /\ is_elem t = true) ->
  exists kids k,
    createResponsivePicture resolve dp mp alt (World R n)
      = Ok (n, World (R ++ [Elem n "picture" [] kids]) k)
    /\ n < k
    /\ bounded k kids = true
    /\ (forall i, i < n -> find_forest i kids = None)
    /\ (od = None -> om = None -> kids = []).
Proof.
  intros HR Hd Hm Hod Hom.
  assert (Hclone : forall fb fbn,
    Js.or_ref od om = Some fb -> find_forest fb R = Some fbn -> is_elem fbn = true ->
    (forall d m, od = Some d -> om = Some m ->
       exists dn mn,
         find_forest d R = Some dn /\ is_elem dn = true /\
         find_forest m R = Some mn /\ is_elem mn = true /\
         url_att resolve "src" dn = url_att resolve "src" mn) ->
    exists kids k,
      createResponsivePicture resolve dp mp alt (World R n)
        = Ok (n, World (R ++ [Elem n "picture" [] kids]) k)
      /\ n < k /\ bounded k kids = true
      /\ (forall i, i < n -> find_forest i kids = None)
      /\ (od = None -> om = None -> kids = [])).
  { intros fb fbn Hor Hfb He Hsame.
    exists [single_kid n alt fbn], (S n + S n).
    split; [exact (builder_single resolve R n HR _ _ alt _ _ Hd Hm fb fbn
                     Hor Hfb He Hsame)|].
    destruct (old_id _ _ HR _ _ Hfb) as [Hid Hlt].
    pose proof (find_sub_below _ _ _ _ HR Hfb) as Hbel.
    destruct fbn as [j tg a ks|]; [|discriminate]. simpl in Hid. subst j.
    rewrite below_elem in Hbel. split_and.
    split; [lia|]. split; [|split].
    - unfold single_kid. simpl. rewrite andb_true_r. apply andb_true_iff. split.
      + nat_tests. reflexivity.
      + apply (proj2 (below_mono_both (S n + n) (S (n + S n)) ltac:(lia))).
        now apply (proj2 (shift_below_both (S n) n)).
    - intros i Hi. unfold single_kid. simpl. nat_tests.
      change (first_some (find_node i) (map (shift_node (S n)) ks))
        with (find_forest i (map (shift_node (S n)) ks)).
      rewrite (proj2 (shift_find_both (S n) i ltac:(lia))). reflexivity.
    - intros -> ->. discriminate. }
  destruct od as [d|], om as [m|].
  - destruct (Hod d eq_refl) as (dn & Hdn & Hde).
    destruct (Hom m eq_refl) as (mn & Hmn & Hme).
    destruct (string_dec (url_att resolve "src" dn) (url_att resolve "src" mn))
      as [Heq|Hne].
    + apply (Hclone d dn eq_refl Hdn Hde).
      intros d' m' [= <-] [= <-]. eauto 10.
    + exists (responsive_kids resolve n alt dn mn), (S (S (S (S n)))).
      split; [exact (builder_responsive resolve R n HR _ _ alt _ _ Hd Hm d m dn mn
                       eq_refl eq_refl Hdn Hde Hmn Hme Hne)|].
      split; [lia|]. split; [|split].
      * unfold responsive_kids. simpl. now nat_tests.
      * intros i Hi. unfold responsive_kids. simpl. now nat_tests.
      * discriminate.
  - destruct (Hod d eq_refl) as (dn & Hdn & Hde).
    apply (Hclone d dn eq_refl Hdn Hde). intros ? ? _ [=].
  - destruct (Hom m eq_refl) as (mn & Hmn & Hme).
    apply (Hclone m mn eq_refl Hmn Hme). intros ? ? [=].
  - exists [], (S n).
    split; [exact (builder_empty resolve R n _ _ alt _ _ Hd Hm eq_refl eq_refl)|].
    split; [lia|]. repeat split.
Qed.

(** The picture the builder returns, from the images found. *)
Lemma builder_built resolve R n dp mp alt od om :
  bounded n R = true ->
  reads (chain_ref dp (Dom.querySelector "img")) (World R n) od ->
  reads (chain_ref mp (Dom.querySelector "img")) (World R n) om ->
  (forall d, od = Some d -> exists t, find_forest d R = Some t /\ is_elem t = true) ->
  (forall m, om = Some m -> exists t, find_forest m R = Some t /\ is_elem t = true) ->
  exists k,
    createResponsivePicture resolve dp mp alt (World R n)
      = Ok (n, World (R ++ [Elem n "picture" []
                              (built_kids resolve n alt (node_opt R od) (node_opt R om))])
                 k).
Proof.
  intros HR Hd Hm Hod Hom.
  destruct od as [d|], om as [m|]; simpl node_opt.
  - destruct (Hod d eq_refl) as (dn & Hdn & Hde).
    destruct (Hom m eq_refl) as (mn & Hmn & Hme).
    rewrite Hdn, Hmn. simpl built_kids.
    destruct (String.eqb (url_att resolve "src" dn) (url_att resolve "src" mn)) eqn:E.
    + apply String.eqb_eq in E. eexists.
      apply (builder_single resolve R n HR _ _ alt _ _ Hd Hm d dn eq_refl Hdn Hde).
      intros d' m' [= <-] [= <-]. eauto 10.
    + apply String.eqb_neq in E. eexists.
      exact (builder_responsive resolve R n HR _ _ alt _ _ Hd Hm d m dn mn
               eq_refl eq_refl Hdn Hde Hmn Hme E).
  - destruct (Hod d eq_refl) as (dn & Hdn & Hde). rewrite Hdn. eexists.
    apply (builder_single resolve R n HR _ _ alt _ _ Hd Hm d dn eq_refl Hdn Hde).
    intros ? ? _ [=].
  - destruct (Hom m eq_refl) as (mn & Hmn & Hme). rewrite Hmn. eexists.
    apply (builder_single resolve R n HR _ _ alt _ _ Hd Hm m mn eq_refl Hmn Hme).
    intros ? ? [=].
  - eexists.
    exact (builder_empty resolve R n _ _ alt _ _ Hd Hm eq_refl eq_refl).
Qed.

Lemma alt_text_chosen alt img : alt_text alt img = chosen_alt alt (str_att "alt" img).
Proof.
  unfold alt_text, chosen_alt, Js.or_undef, Js.or_str.
  destruct alt as [[|c s]|]; simpl; try reflexivity;
    now destruct (str_att "alt" img).
Qed.

Lemma attr_get_set_same k v a : attr_get k (attr_set k v a) = Some v.
Proof.
  induction a as [|[k' v'] r IH]; simpl.
  - now rewrite String.eqb_refl.
  - destruct (String.eqb k' k) eqn:E; simpl; now rewrite E.
Qed.

Lemma attr_get_set_other k k' v a :
  k <> k' -> attr_get k (attr_set k' v a) = attr_get k a.
Proof.
  intro Hne. induction a as [|[k0 v0] r IH]; simpl.
  - apply String.eqb_neq in Hne. rewrite String.eqb_sym in Hne. now rewrite Hne.
  - destruct (String.eqb k0 k') eqn:E; simpl.
    + apply String.eqb_eq in E. subst k0.
      apply String.eqb_neq in Hne. rewrite String.eqb_sym in Hne. now rewrite Hne.
    + destruct (String.eqb k0 k); [reflexivity | exact IH].
Qed.

Lemma lookup_new R n c :
  bounded n R = true -> n <= id_of c ->
  Dom.lookup (World (R ++ [c]) (S n)) (id_of c) = Some c.
Proof.
  intros HR Hc. rewrite (lookup_fresh _ _ HR) by assumption.
  destruct c; simpl; now rewrite Nat.eqb_refl.
Qed.

(** ** The Picture Builder *)

Section PictureBuilder.
Variable resolve : string -> string.

(** C1. When both images are found and their URLs differ, the picture
    holds exactly a source for narrow viewports with the mobile URL, a
    source for wide viewports with the desktop URL, and an image with
    the desktop URL, the chosen alt text and lazy loading, in this
    order. *)
Theorem builder_two_sources w desktopPicture mobilePicture alt d m :
  wf w ->
  reads (chain_ref desktopPicture (Dom.querySelector "img")) w (Some d) ->
  reads (chain_ref mobilePicture (Dom.querySelector "img")) w (Some m) ->
  url_prop resolve w "src" d <> url_prop resolve w "src" m ->
  exists w',
    createResponsivePicture resolve desktopPicture mobilePicture alt w
      = Ok (next w, w')
    /\ Dom.lookup w' (next w) =
         Some (Elem (next w) "picture" []
                 [ Elem (1 + next w) "source"
                     [("media", "(max-width: 767px)");
                      ("srcset", url_prop resolve w "src" m)] [];
                   Elem (2 + next w) "source"
                     [("media", "(min-width: 768px)");
                      ("srcset", url_prop resolve w "src" d)] [];
                   Elem (3 + next w) "img"
                     [("src", url_prop resolve w "src" d);
                      ("alt", chosen_alt alt (str_prop w "alt" d));
                      ("loading", "lazy")] [] ]).
Proof.
  destruct w as [R n]. intros Hwf Hd Hm Hne.
  destruct (wf_query _ _ _ _ _ Hwf Hd) as (da & dks & Hdn).
  destruct (wf_query _ _ _ _ _ Hwf Hm) as (ma & mks & Hmn).
  destruct Hwf as [HR _]. simpl in HR.
  unfold url_prop, str_prop, Dom.lookup in *. simpl roots in *. simpl next.
  rewrite Hdn, Hmn in *.
  eexists. split.
  - exact (builder_responsive resolve R n HR _ _ alt _ _ Hd Hm d m _ _
             eq_refl eq_refl Hdn eq_refl Hmn eq_refl Hne).
  - simpl roots.
    change (find_forest n (R ++ [?c])) with (Dom.lookup (World (R ++ [c]) (S (S (S (S n))))) n).
    rewrite (lookup_fresh _ _ HR) by lia.
    unfold responsive_kids. rewrite alt_text_chosen. simpl. now nat_tests.
Qed.

Lemma single_source_nodes R n od om :
  wf (World R n) ->
  forall dp mp,
  reads (chain_ref dp (Dom.querySelector "img")) (World R n) od ->
  reads (chain_ref mp (Dom.querySelector "img")) (World R n) om ->
  single_source resolve (World R n) od om ->
  forall d m, od = Some d -> om = Some m ->
    exists dn mn,
      find_forest d R = Some dn /\ is_elem dn = true /\
      find_forest m R = Some mn /\ is_elem mn = true /\
      url_att resolve "src" dn = url_att resolve "src" mn.
Proof.
  intros Hwf dp mp Hd Hm Hs d m -> ->.
  destruct (wf_query _ _ _ _ _ Hwf Hd) as (da & dks & Hdn).
  destruct (wf_query _ _ _ _ _ Hwf Hm) as (ma & mks & Hmn).
  simpl in Hs. unfold url_prop, Dom.lookup in Hs. simpl in Hs.
  rewrite Hdn, Hmn in Hs. eauto 10.
Qed.

(** C2. When only one image is found, or both with the same URL, the
    picture holds exactly one child: a copy of the image found (the
    desktop one first) with the chosen alt text and lazy loading, and no
    source. *)
Theorem builder_one_image w desktopPicture mobilePicture alt desktopImg mobileImg :
  wf w ->
  reads (chain_ref desktopPicture (Dom.querySelector "img")) w desktopImg ->
  reads (chain_ref mobilePicture (Dom.querySelector "img")) w mobileImg ->
  single_source resolve w desktopImg mobileImg ->
  exists w' fb orig img,
    createResponsivePicture resolve desktopPicture mobilePicture alt w
      = Ok (next w, w')
    /\ Js.or_ref desktopImg mobileImg = Some fb
    /\ Dom.lookup w fb = Some orig
    /\ tag_of orig = Some "img"
    /\ Dom.lookup w' (next w) = Some (Elem (next w) "picture" [] [img])
    /\ img = set_att "loading" "lazy"
               (set_att "alt" (chosen_alt alt (str_att "alt" orig))
                  (shift_node (S (next w)) orig))
    /\ tag_of img = Some "img"
    /\ attr_get "alt" (atts_of img) = Some (chosen_alt alt (str_att "alt" orig))
    /\ attr_get "loading" (atts_of img) = Some "lazy".
Proof.
  destruct w as [R n]. intros Hwf Hd Hm Hs.
  assert (exists fb, Js.or_ref desktopImg mobileImg = Some fb) as [fb Hor].
  { destruct desktopImg, mobileImg; simpl in *; eauto. contradiction. }
  assert (exists a ks, find_forest fb R = Some (Elem fb "img" a ks)) as (a & ks & Hfb).
  { destruct desktopImg as [d|]; simpl in Hor.
    - injection Hor as <-. exact (wf_query _ _ _ _ _ Hwf Hd).
    - subst mobileImg. exact (wf_query _ _ _ _ _ Hwf Hm). }
  pose proof (single_source_nodes R n _ _ Hwf _ _ Hd Hm Hs) as Hsame.
  destruct Hwf as [HR _]. simpl in HR.
  pose proof (builder_single resolve R n HR _ _ alt _ _ Hd Hm fb _
                Hor Hfb eq_refl Hsame) as Hrun.
  eexists _, fb, _, _. split; [exact Hrun|].
  split; [exact Hor|]. split; [exact Hfb|]. split; [reflexivity|].
  split.
  { simpl next. simpl roots.
    change (find_forest n (R ++ [?c]))
      with (Dom.lookup (World (R ++ [c]) (S n + S n)) n).
    rewrite (lookup_fresh _ _ HR) by lia. simpl. nat_tests. reflexivity. }
  unfold single_kid. rewrite alt_text_chosen.
  split; [reflexivity|]. split; [reflexivity|]. simpl. split.
  - rewrite attr_get_set_other by discriminate. apply attr_get_set_same.
  - apply attr_get_set_same.
Qed.

(** C8. With no image found on either side the builder returns an empty
    picture, and nothing is thrown. *)
Theorem builder_no_image w desktopPicture mobilePicture alt :
  wf w ->
  reads (chain_ref desktopPicture (Dom.querySelector "img")) w None ->
  reads (chain_ref mobilePicture (Dom.querySelector "img")) w None ->
  exists w',
    createResponsivePicture resolve desktopPicture mobilePicture alt w
      = Ok (next w, w')
    /\ Dom.lookup w' (next w) = Some (Elem (next w) "picture" [] [])
    /\ roots w' = roots w ++ [Elem (next w) "picture" [] []].
Proof.
  destruct w as [R n]. intros [HR _] Hd Hm. simpl in HR.
  eexists. split; [|split].
  - exact (builder_empty resolve R n _ _ alt _ _ Hd Hm eq_refl eq_refl).
  - exact (lookup_new R n (Elem n "picture" [] []) HR (le_n n)).
  - reflexivity.
Qed.

(** C7. The builder leaves every tree of the store as it was and adds one
    tree of its own, the picture: each node that a reference named before
    the call is named by it afterwards, unchanged and in place. *)
Theorem builder_frame w desktopPicture mobilePicture alt desktopImg mobileImg :
  wf w ->
  reads (chain_ref desktopPicture (Dom.querySelector "img")) w desktopImg ->
  reads (chain_ref mobilePicture (Dom.querySelector "img")) w mobileImg ->
  exists w' picture,
    createResponsivePicture resolve desktopPicture mobilePicture alt w
      = Ok (id_of picture, w')
    /\ roots w' = roots w ++ [picture]
    /\ id_of picture = next w
    /\ forall i t, Dom.lookup w i = Some t -> Dom.lookup w' i = Some t.
Proof.
  destruct w as [R n]. intros Hwf Hd Hm.
  destruct (builder_total resolve R n desktopPicture mobilePicture alt
              desktopImg mobileImg (proj1 Hwf) Hd Hm)
    as (kids & k & Hrun & _).
  - intros d ->. destruct (wf_query _ _ _ _ _ Hwf Hd) as (da & dks & Hdn). eauto.
  - intros m ->. destruct (wf_query _ _ _ _ _ Hwf Hm) as (ma & mks & Hmn). eauto.
  - exists (World (R ++ [Elem n "picture" [] kids]) k), (Elem n "picture" [] kids).
    split; [exact Hrun|]. split; [reflexivity|]. split; [reflexivity|].
    intros i t Hi. exact (lookup_old R _ _ i t Hi).
Qed.

End PictureBuilder.

(** ** The Link Wrapper *)

Lemma createLink_anchor w href title target picture pn :
  wf w ->
  Dom.lookup w picture = Some pn ->
  exists w',
    createLink href title target picture w = Ok (next w, w')
    /\ Dom.lookup w' (next w) =
         Some (Elem (next w) "a" (link_atts href title target) [pn]).
Proof.
  destruct w as [R n]. intros [HR _] Hp. simpl in HR.
  unfold Dom.lookup in Hp. simpl in Hp.
  eexists. split; [exact (createLink_run R n href title target picture pn HR Hp)|].
  simpl next.
  assert (bounded n (remove_forest picture R) = true) as HR'
    by now apply remove_keeps_below_both.
  rewrite (lookup_fresh _ _ HR') by lia. simpl. now nat_tests.
Qed.

(** C4. The anchor carries [rel="noopener noreferrer"] exactly when the
    target is ["_blank"]; for any other target it has no [rel]. *)
Theorem link_rel_iff_blank w href title target picture pn :
  wf w ->
  Dom.lookup w picture = Some pn ->
  exists w' atts kids,
    createLink href title target picture w = Ok (next w, w')
    /\ Dom.lookup w' (next w) = Some (Elem (next w) "a" atts kids)
    /\ (attr_get "rel" atts = Some "noopener noreferrer" <-> target = "_blank")
    /\ (target <> "_blank" -> attr_get "rel" atts = None).
Proof.
  intros Hwf Hp.
  destruct (createLink_anchor w href title target picture pn Hwf Hp) as (w' & Hrun & Hl).
  exists w', (link_atts href title target), [pn].
  split; [exact Hrun|]. split; [exact Hl|].
  unfold link_atts.
  destruct (String.eqb target "_blank") eqn:E;
    [apply String.eqb_eq in E | apply String.eqb_neq in E];
    destruct (Js.truthy title); simpl; (split; [split|]);
    solve [reflexivity | discriminate | congruence | intro; assumption
          | intro; contradiction | intro; reflexivity].
Qed.

(** C6. The anchor always has [href] and [target] as given, has a [title]
    only for a non-empty title, and has the wrapped element as its only
    child. *)
Theorem link_attributes w href title target picture pn :
  wf w ->
  Dom.lookup w picture = Some pn ->
  exists w' atts,
    createLink href title target picture w = Ok (next w, w')
    /\ Dom.lookup w' (next w) = Some (Elem (next w) "a" atts [pn])
    /\ attr_get "href" atts = Some href
    /\ attr_get "target" atts = Some target
    /\ attr_get "title" atts = (if Js.truthy title then Some title else None).
Proof.
  intros Hwf Hp.
  destruct (createLink_anchor w href title target picture pn Hwf Hp) as (w' & Hrun & Hl).
  exists w', (link_atts href title target).
  split; [exact Hrun|]. split; [exact Hl|].
  unfold link_atts.
  destruct (Js.truthy title), (String.eqb target "_blank"); simpl; auto.
Qed.

(** ** The Block Decorator *)

(** *** Clearing an element *)

(** After an element has lost its children, what was below it is no longer
    found in its tree. *)
Lemma cleared_both b :
  (forall t x i, NoDup (ids_node t) -> find_node b t = Some x ->
                 In i (ids_forest (kids_of x)) ->
                 ~ In i (ids_node (update_node b (set_kids []) t)))
  /\ (forall l x i, NoDup (ids_forest l) -> find_forest b l = Some x ->
                    In i (ids_forest (kids_of x)) ->
                    ~ In i (ids_forest (update_forest b (set_kids []) l))).
Proof.
  apply node_forest_both; intros *.
  - simpl find_node. destruct (i =? b); [|discriminate].
    intros _ [= <-] [].
  - intros IH x j Hnd. rewrite find_node_elem, update_node_elem.
    rewrite ids_node_elem in Hnd. inversion Hnd as [|? ? Hn Hd]; subst.
    destruct (i =? b) eqn:E.
    + intros [= <-] Hj. simpl. intros [->|[]]. now apply Hn.
    + intros Hx Hj. rewrite ids_node_elem. intros [->|Hin].
      * apply Hn. apply (proj2 (find_incl_both b) _ _ Hx).
        now apply kids_incl.
      * exact (IH _ _ Hd Hx Hj Hin).
  - discriminate.
  - intros IHt IHr x j Hnd. rewrite find_forest_cons, update_forest_cons.
    rewrite ids_forest_cons in Hnd. rewrite ids_forest_cons.
    apply NoDup_app_inv in Hnd as (Ht & Hr & Hdis).
    destruct (find_node b t) eqn:E.
    + intros [= <-] Hj Hin. apply in_app_or in Hin as [Hin|Hin].
      * exact (IHt _ _ Ht eq_refl Hj Hin).
      * assert (find_forest b r = None) as Hnone.
        { apply not_in_find_both. intro Hb. apply (Hdis b); [|exact Hb].
          apply (proj1 (find_incl_both b) _ _ E).
          rewrite <- (find_id _ _ _ E). apply id_in_ids. }
        rewrite (find_none_update _ _ _ Hnone) in Hin.
        apply (Hdis j); [|exact Hin].
        apply (proj1 (find_incl_both b) _ _ E). now apply kids_incl.
    + intros Hx Hj Hin. apply in_app_or in Hin as [Hin|Hin].
      * rewrite (proj1 (find_none_update_both b _) _ E) in Hin.
        apply (Hdis j Hin).
        apply (proj2 (find_incl_both b) _ _ Hx). now apply kids_incl.
      * exact (IHr _ _ Hr Hx Hj Hin).
Qed.

(** What is found neither in a forest nor in [c] is not found once [c] has
    become a child of the node [b]. *)
Lemma push_none_both b c i :
  find_node i c = None ->
  (forall t, find_node i t = None ->
             find_node i (update_node b (push_kid c) t) = None)
  /\ (forall l, find_forest i l = None ->
                find_forest i (update_forest b (push_kid c) l) = None).
Proof.
  intro Hc. apply node_forest_both; intros *.
  - simpl update_node. now destruct (i0 =? b).
  - intros IH. rewrite find_node_elem, update_node_elem.
    destruct (i0 =? i) eqn:E; [discriminate|]. intro H.
    destruct (i0 =? b).
    + simpl push_kid. rewrite find_node_elem, E, find_forest_app, H.
      rewrite find_forest_cons, Hc. reflexivity.
    + rewrite find_node_elem, E. now apply IH.
  - trivial.
  - intros IHt IHr. rewrite find_forest_cons, update_forest_cons, find_forest_cons.
    destruct (find_node i t) eqn:E; [discriminate|].
    intro H. now rewrite IHt, IHr.
Qed.

(** What is not found once [b] is empty, nor in [new], is not found once
    [b] holds [new]. *)
Lemma set_kids_none_both b new i :
  find_forest i new = None ->
  (forall t, find_node i (update_node b (set_kids []) t) = None ->
             find_node i (update_node b (set_kids new) t) = None)
  /\ (forall l, find_forest i (update_forest b (set_kids []) l) = None ->
                find_forest i (update_forest b (set_kids new) l) = None).
Proof.
  intro Hnew. apply node_forest_both; intros *.
  - simpl update_node. now destruct (i0 =? b).
  - intros IH. rewrite !update_node_elem.
    destruct (i0 =? b).
    + simpl set_kids. rewrite !find_node_elem.
      destruct (i0 =? i); [discriminate|]. now intros _.
    + rewrite !find_node_elem. destruct (i0 =? i); [discriminate|]. apply IH.
  - trivial.
  - intros IHt IHr. rewrite !update_forest_cons, !find_forest_cons.
    destruct (find_node i (update_node b (set_kids []) t)) eqn:E; [discriminate|].
    intro H. now rewrite IHt, IHr.
Qed.

(** A tree that does not hold the node [b] stays among the trees. *)
Lemma update_keeps_tree b f l t :
  In t l -> find_node b t = None -> In t (update_forest b f l).
Proof.
  intros Hin Hf. unfold update_forest.
  rewrite <- (proj1 (find_none_update_both b f) _ Hf). now apply in_map.
Qed.

(** Taking out a node that is not there changes nothing. *)
Lemma remove_absent_both i :
  (forall t, find_node i t = None -> remove_below i t = t)
  /\ (forall l, find_forest i l = None -> remove_forest i l = l).
Proof.
  apply node_forest_both; intros *.
  - reflexivity.
  - intros IH. rewrite find_node_elem, remove_below_elem.
    destruct (i0 =? i); [discriminate|]. intro H. now rewrite IH.
  - reflexivity.
  - intros IHt IHr. rewrite find_forest_cons, remove_forest_cons.
    destruct (find_node i t) eqn:E; [discriminate|]. intro H.
    assert ((id_of t =? i) = false) as ->.
    { destruct t; simpl in E |- *; now destruct (_ =? i). }
    now rewrite IHt, IHr.
Qed.

(** A node that has been taken out is found nowhere. *)
Lemma removed_none_both i :
  (forall t, id_of t <> i -> find_node i (remove_below i t) = None)
  /\ (forall l, find_forest i (remove_forest i l) = None).
Proof.
  apply node_forest_both; intros *.
  - simpl. intro H. now nat_tests.
  - intros IH H. rewrite remove_below_elem, find_node_elem. simpl in H.
    nat_tests. exact IH.
  - reflexivity.
  - intros IHt IHr. rewrite remove_forest_cons.
    destruct (id_of t =? i) eqn:E; [exact IHr|].
    rewrite find_forest_cons, IHt; [exact IHr|]. now apply Nat.eqb_neq.
Qed.

(** A tree that does not hold the node taken out stays among the trees. *)
Lemma remove_keeps_tree i l t :
  In t l -> find_node i t = None -> In t (remove_forest i l).
Proof.
  intros Hin Hf. unfold remove_forest. apply in_flat_map. exists t.
  split; [exact Hin|].
  assert ((id_of t =? i) = false) as ->.
  { destruct t; simpl in Hf |- *; now destruct (_ =? i). }
  rewrite (proj1 (remove_absent_both i) _ Hf). now left.
Qed.

Lemma set_kids_below n new x :
  bounded n new = true -> below n x = true -> below n (set_kids new x) = true.
Proof.
  intros Hnew. destruct x as [j tg a ks|]; [|trivial].
  simpl set_kids. rewrite !below_elem. intro H. split_and.
  apply andb_true_iff. split; [now apply Nat.ltb_lt | assumption].
Qed.

(** *** Replacing the children of a node in a well-formed store *)

Lemma NoDup_distinct (l : list nid) : NoDup l -> distinct l = true.
Proof.
  induction 1 as [|x r Hx _ IH]; [reflexivity|].
  simpl. rewrite IH, andb_true_r. apply negb_true_iff.
  destruct (existsb (Nat.eqb x) r) eqn:E; [|reflexivity].
  apply existsb_exists in E as (y & Hy & Hxy).
  apply Nat.eqb_eq in Hxy. subst y. contradiction.
Qed.

Lemma in_find_both i :
  (forall t, In i (ids_node t) -> find_node i t <> None)
  /\ (forall l, In i (ids_forest l) -> find_forest i l <> None).
Proof.
  apply node_forest_both; intros *.
  - simpl. intros [->|[]]. now rewrite Nat.eqb_refl.
  - intros IH. rewrite ids_node_elem, find_node_elem.
    destruct (i0 =? i) eqn:E; [discriminate|].
    intros [->|Hin]; [now rewrite Nat.eqb_refl in E | now apply IH].
  - intros [].
  - intros IHt IHr. rewrite ids_forest_cons, find_forest_cons. intro Hin.
    destruct (find_node i t) eqn:E; [discriminate|].
    apply in_app_or in Hin as [Hin|Hin]; [now apply IHt in Hin | now apply IHr].
Qed.

(** A child put into an emptied node: the node holds that child alone. *)
Lemma push_cleared_both b c :
  (forall t, update_node b (push_kid c) (update_node b (set_kids []) t)
             = update_node b (set_kids [c]) t)
  /\ (forall l, update_forest b (push_kid c) (update_forest b (set_kids []) l)
                = update_forest b (set_kids [c]) l).
Proof.
  apply node_forest_both; intros *.
  - simpl update_node. destruct (i =? b) eqn:E; simpl; now rewrite E.
  - intros IH. rewrite !update_node_elem.
    destruct (i =? b) eqn:E.
    + simpl set_kids. rewrite update_node_elem, E. reflexivity.
    + rewrite update_node_elem, E. now rewrite IH.
  - reflexivity.
  - intros IHt IHr. rewrite !update_forest_cons. now rewrite IHt, IHr.
Qed.

(** The identities after the children of [b] have been replaced by [new]
    and have become roots: those of before, and those of [new]. *)
Lemma replace_perm_both b tg a ks new :
  (forall t, NoDup (ids_node t) -> find_node b t = Some (Elem b tg a ks) ->
     Permutation (ids_node (update_node b (set_kids new) t) ++ ids_forest ks)
                 (ids_node t ++ ids_forest new))
  /\ (forall l, NoDup (ids_forest l) -> find_forest b l = Some (Elem b tg a ks) ->
     Permutation (ids_forest (update_forest b (set_kids new) l) ++ ids_forest ks)
                 (ids_forest l ++ ids_forest new)).
Proof.
  apply node_forest_both; intros *.
  - simpl find_node. destruct (i =? b); discriminate.
  - intros IH Hnd. rewrite find_node_elem, update_node_elem.
    rewrite ids_node_elem in Hnd. inversion Hnd as [|? ? _ Hd]; subst.
    destruct (i =? b) eqn:E.
    + intros [= -> -> -> ->]. simpl set_kids. rewrite !ids_node_elem. simpl.
      apply perm_skip, Permutation_app_comm.
    + intro Hf. rewrite !ids_node_elem. simpl. apply perm_skip. now apply IH.
  - discriminate.
  - intros IHt IHr Hnd. rewrite find_forest_cons, update_forest_cons.
    rewrite !ids_forest_cons. rewrite ids_forest_cons in Hnd.
    apply NoDup_app_inv in Hnd as (Ht & Hr & Hdis).
    destruct (find_node b t) eqn:E.
    + intros [= ->].
      assert (find_forest b r = None) as Hnone.
      { apply not_in_find_both. intro Hin. apply (Hdis b); [|exact Hin].
        apply (proj1 (find_incl_both b) _ _ E). now left. }
      rewrite (find_none_update _ _ _ Hnone), <- !app_assoc.
      apply Permutation_app_middle. now apply IHt.
    + intro Hf. rewrite (proj1 (find_none_update_both b _) _ E), <- !app_assoc.
      apply Permutation_app_head. now apply IHr.
Qed.

(** The store stays well formed when the children of a node are replaced
    by new trees and become trees of their own. *)
Lemma replace_wf R n b tg a ks new k :
  wf (World R n) ->
  find_forest b R = Some (Elem b tg a ks) ->
  n <= k ->
  bounded k new = true ->
  NoDup (ids_forest new) ->
  (forall i, In i (ids_forest new) -> n <= i) ->
  wf (World (update_forest b (set_kids new) R ++ ks) k).
Proof.
  intros [HR Hd] Hb Hnk Hnew Hnd Hge. simpl in HR, Hd.
  apply distinct_NoDup in Hd.
  pose proof (find_sub_below _ _ _ _ HR Hb) as Hbel.
  rewrite below_elem in Hbel. apply andb_true_iff in Hbel as [_ Hks].
  split; simpl.
  - rewrite bounded_app. apply andb_true_iff. split.
    + apply update_keeps_below_both.
      * intro x. now apply set_kids_below.
      * exact (proj2 (below_mono_both n k Hnk) _ HR).
    + exact (proj2 (below_mono_both n k Hnk) _ Hks).
  - apply NoDup_distinct. unfold ids_forest. rewrite flat_map_app.
    apply (Permutation_NoDup
             (Permutation_sym (proj2 (replace_perm_both b tg a ks new) R Hd Hb))).
    apply NoDup_app; [exact Hd | exact Hnd|].
    intros i Hi Hi'. specialize (Hge i Hi').
    assert (find_forest i R = None) as Hnone by exact (bounded_find n i Hge _ HR).
    exact (proj2 (in_find_both i) _ Hi Hnone).
Qed.

(** *** The identities and tags of what the builder makes *)

Lemma ids_shift_both k :
  (forall t, ids_node (shift_node k t) = map (Nat.add k) (ids_node t))
  /\ (forall l, ids_forest (map (shift_node k) l) = map (Nat.add k) (ids_forest l)).
Proof.
  apply node_forest_both; intros *.
  - reflexivity.
  - intros IH. rewrite shift_node_elem, !ids_node_elem. simpl. now rewrite IH.
  - reflexivity.
  - intros IHt IHr. simpl map. rewrite !ids_forest_cons, map_app.
    now rewrite IHt, IHr.
Qed.

Lemma ids_set_att k v t : ids_node (set_att k v t) = ids_node t.
Proof. now destruct t. Qed.

Lemma NoDup_map_add k (l : list nid) : NoDup l -> NoDup (map (Nat.add k) l).
Proof.
  induction 1 as [|x r Hx _ IH]; simpl; constructor; [|exact IH].
  intro Hin. apply in_map_iff in Hin as (y & Hy & Hin).
  assert (y = x) by lia. subst y. contradiction.
Qed.

Lemma query_shift_both sel k :
  (forall t, query_node sel (shift_node k t) = option_map (Nat.add k) (query_node sel t))
  /\ (forall l, query_forest sel (map (shift_node k) l)
                = option_map (Nat.add k) (query_forest sel l)).
Proof.
  apply node_forest_both; intros *.
  - reflexivity.
  - intros IH. rewrite shift_node_elem, !query_node_elem.
    destruct (String.eqb tg sel); [reflexivity | exact IH].
  - reflexivity.
  - intros IHt IHr. simpl map. rewrite !query_forest_cons, IHt.
    destruct (query_node sel t); [reflexivity | exact IHr].
Qed.

Lemma single_kid_ids n alt t :
  NoDup (ids_node t) ->
  NoDup (ids_node (single_kid n alt t))
  /\ forall i, In i (ids_node (single_kid n alt t)) -> n < i.
Proof.
  intro Hnd. unfold single_kid.
  rewrite !ids_set_att, (proj1 (ids_shift_both (S n))). split.
  - now apply NoDup_map_add.
  - intros i Hin. apply in_map_iff in Hin as (y & Hy & _). lia.
Qed.

(** What the builder puts into the picture has identities of its own, all
    above the picture's. *)
Lemma built_kids_ids resolve n alt dn mn :
  (forall t, dn = Some t -> NoDup (ids_node t)) ->
  (forall t, mn = Some t -> NoDup (ids_node t)) ->
  NoDup (ids_forest (built_kids resolve n alt dn mn))
  /\ forall i, In i (ids_forest (built_kids resolve n alt dn mn)) -> n < i.
Proof.
  intros Hd Hm.
  assert (Hone : forall t, NoDup (ids_node t) ->
            NoDup (ids_forest [single_kid n alt t])
            /\ forall i, In i (ids_forest [single_kid n alt t]) -> n < i).
  { intros t Ht. unfold ids_forest. simpl. rewrite app_nil_r.
    now apply single_kid_ids. }
  destruct dn as [d|], mn as [m|]; simpl built_kids.
  - destruct (String.eqb _ _); [now apply Hone, Hd|].
    unfold responsive_kids, ids_forest. simpl. split.
    + repeat constructor; simpl; intuition lia.
    + intros i Hi. simpl in Hi. intuition lia.
  - now apply Hone, Hd.
  - now apply Hone, Hm.
  - split; [constructor | intros i []].
Qed.

(** No picture is among what the builder puts into the picture, when the
    images found are [img] elements with no picture below them. *)
Lemma built_kids_no_picture resolve n alt dn mn :
  (forall t, dn = Some t ->
     tag_of t = Some "img" /\ query_forest "picture" (kids_of t) = None) ->
  (forall t, mn = Some t ->
     tag_of t = Some "img" /\ query_forest "picture" (kids_of t) = None) ->
  query_forest "picture" (built_kids resolve n alt dn mn) = None.
Proof.
  intros Hd Hm.
  assert (Hone : forall t,
            tag_of t = Some "img" /\ query_forest "picture" (kids_of t) = None ->
            query_forest "picture" [single_kid n alt t] = None).
  { intros [j tg a ks|j s0] [Ht Hq]; [|reflexivity].
    simpl in Ht, Hq. injection Ht as ->.
    unfold single_kid. simpl set_att. rewrite query_forest_cons, query_node_elem.
    simpl String.eqb. rewrite (proj2 (query_shift_both "picture" (S n))), Hq.
    reflexivity. }
  destruct dn as [d|], mn as [m|]; simpl built_kids.
  - destruct (String.eqb _ _); [now apply Hone, Hd | reflexivity].
  - now apply Hone, Hd.
  - now apply Hone, Hm.
  - reflexivity.
Qed.

Section Block.
Variable resolve : string -> string.
Variables (R : list node) (n : nid).
Variables (b : nid) (tg : string) (a : attrs) (ks : list node).
Hypothesis Hwf : wf (World R n).
Hypothesis Hb : find_forest b R = Some (Elem b tg a ks).

Let rows := rows_of ks.
Let R1 := cleared b R ks.

Lemma block_bounded : bounded n R = true.
Proof. exact (proj1 Hwf). Qed.

Lemma block_nodup : NoDup (ids_forest R).
Proof. exact (distinct_NoDup _ (proj2 Hwf)). Qed.

Lemma kids_nodup : NoDup (ids_forest ks).
Proof.
  pose proof (proj2 (nodup_sub_both b) _ _ block_nodup Hb) as H.
  rewrite ids_node_elem in H. now inversion H.
Qed.

Lemma kids_bounded : bounded n ks = true.
Proof.
  pose proof (find_sub_below _ _ _ _ block_bounded Hb) as H.
  rewrite below_elem in H. now split_and.
Qed.

Lemma block_lt : b < n.
Proof. exact (proj2 (old_id _ _ block_bounded _ _ Hb)). Qed.

(** Below the block before, among the roots after. *)
Lemma inside_before i t : find_forest i ks = Some t -> find_forest i R = Some t.
Proof. intro H. exact (proj2 (descend_both b i) _ _ _ block_nodup Hb H). Qed.

Lemma inside_after i t : find_forest i ks = Some t -> find_forest i R1 = Some t.
Proof.
  intro H. unfold R1, cleared. rewrite find_forest_app.
  rewrite (proj2 (not_in_find_both i)); [exact H|].
  apply (proj2 (cleared_both b) _ _ _ block_nodup Hb).
  exact (find_in_ids _ _ _ H).
Qed.

Lemma inside_query i tg' a' ks' sel d :
  find_forest i ks = Some (Elem i tg' a' ks') ->
  query_forest sel ks' = Some d ->
  exists a2 ks2, find_forest d ks = Some (Elem d sel a2 ks2).
Proof.
  intros Hi Hq.
  pose proof (proj2 (nodup_sub_both i) _ _ kids_nodup Hi) as Hsub.
  rewrite ids_node_elem in Hsub. inversion Hsub as [|? ? _ Hks']; subst.
  destruct (proj2 (query_find_both sel) _ _ Hks' Hq) as (a2 & ks2 & Hf).
  exists a2, ks2. exact (proj2 (descend_both i d) _ _ _ kids_nodup Hi Hf).
Qed.

Lemma row_inside k r :
  nth_error rows k = Some r ->
  exists tg' a' ks', find_forest r ks = Some (Elem r tg' a' ks').
Proof.
  intro H. apply nth_error_In in H. unfold rows, rows_of in H.
  apply in_map_iff in H as (t & Hid & Hin).
  apply filter_In in Hin as [Hin He].
  destruct t as [j tg' a' ks'|]; [|discriminate]. simpl in Hid. subst j.
  exists tg', a', ks'. exact (find_member _ _ kids_nodup Hin).
Qed.

Lemma block_after : find_forest b R1 = Some (Elem b tg a []).
Proof.
  unfold R1, cleared. rewrite find_forest_app.
  rewrite (find_update_same b (set_kids [])) with (x := Elem b tg a ks);
    [reflexivity| |exact Hb].
  intros [] ?; assumption.
Qed.

Lemma after_bounded : bounded n R1 = true.
Proof.
  unfold R1, cleared. rewrite bounded_app, kids_bounded, andb_true_r.
  apply update_keeps_below_both; [|exact block_bounded].
  intros x. now apply set_kids_below.
Qed.

(** *** What the run leaves alone *)

Lemma block_outside_kids : find_forest b ks = None.
Proof.
  apply not_in_find_both.
  pose proof (proj2 (nodup_sub_both b) _ _ block_nodup Hb) as H.
  rewrite ids_node_elem in H. now inversion H.
Qed.

Lemma inside_lt i t : find_forest i ks = Some t -> i < n.
Proof. intro H. exact (proj2 (old_id _ _ kids_bounded _ _ H)). Qed.

Lemma cleared_none i t :
  find_forest i ks = Some t -> find_forest i (update_forest b (set_kids []) R) = None.
Proof.
  intro H. apply not_in_find_both.
  apply (proj2 (cleared_both b) _ _ _ block_nodup Hb).
  exact (find_in_ids _ _ _ H).
Qed.

(** Once a new child has been put in: the former content is found
    unchanged, each former child is a tree of its own, and the trees that
    do not hold the block are as they were. *)
Lemma frame_render child k' :
  (forall i, i < n -> find_node i child = None) ->
  (forall i t, find_forest i ks = Some t ->
     Dom.lookup (World (update_forest b (push_kid child) R1) k') i = Some t)
  /\ (forall t, In t ks -> In t (update_forest b (push_kid child) R1))
  /\ (forall t, In t R -> find_node b t = None ->
        In t (update_forest b (push_kid child) R1)).
Proof.
  intro Hchild.
  assert (Hsplit : update_forest b (push_kid child) R1 =
                   update_forest b (push_kid child) (update_forest b (set_kids []) R)
                   ++ ks).
  { unfold R1, cleared. rewrite update_forest_app.
    now rewrite (find_none_update b _ ks block_outside_kids). }
  rewrite Hsplit. split; [|split].
  - intros i t Hi. unfold Dom.lookup. simpl roots. rewrite find_forest_app.
    rewrite (proj2 (push_none_both b child i (Hchild i (inside_lt _ _ Hi)))); [exact Hi|].
    exact (cleared_none _ _ Hi).
  - intros t Hin. apply in_or_app. now right.
  - intros t Hin Hf. apply in_or_app. left.
    apply update_keeps_tree; [|exact Hf]. now apply update_keeps_tree.
Qed.

Lemma frame_error :
  (forall i t, find_forest i ks = Some t ->
     Dom.lookup (World (update_forest b (set_kids [Text n error_text]) R ++ ks) (n + 1)) i
       = Some t)
  /\ (forall t, In t ks ->
        In t (update_forest b (set_kids [Text n error_text]) R ++ ks))
  /\ (forall t, In t R -> find_node b t = None ->
        In t (update_forest b (set_kids [Text n error_text]) R ++ ks)).
Proof.
  split; [|split].
  - intros i t Hi. unfold Dom.lookup. simpl roots. rewrite find_forest_app.
    rewrite (proj2 (set_kids_none_both b [Text n error_text] i ltac:(
               pose proof (inside_lt _ _ Hi); simpl; now nat_tests)));
      [exact Hi|].
    exact (cleared_none _ _ Hi).
  - intros t Hin. apply in_or_app. now right.
  - intros t Hin Hf. apply in_or_app. left. now apply update_keeps_tree.
Qed.

(** *** Reading the fields *)

Lemma reads_fun {A} (c : M A) w x y : reads c w x -> reads c w y -> x = y.
Proof. unfold reads. intros -> [= ->]. reflexivity. Qed.

Lemma children_reads : reads (Dom.children b) (World R n) rows.
Proof.
  unfold reads, Dom.children, Dom.element, Dom.lookup. simpl. now rewrite Hb.
Qed.

Lemma element_inside {A} (f : nid -> string -> attrs -> list node -> A) i tg' a' ks' :
  find_forest i ks = Some (Elem i tg' a' ks') ->
  reads (Dom.element i f) (World R n) (f i tg' a' ks')
  /\ forall F m, reads (Dom.element i f) (World (R1 ++ F) m) (f i tg' a' ks').
Proof.
  intro H. split.
  - unfold reads, Dom.element, Dom.lookup. simpl.
    now rewrite (inside_before _ _ H).
  - intros F m. exact (element_old R1 f F m i _ _ _ _ (inside_after _ _ H)).
Qed.

Lemma row_query k sel :
  exists o,
    reads (chain_ref (nth_error rows k) (Dom.querySelector sel)) (World R n) o
    /\ forall d, o = Some d ->
         exists a' ks', find_forest d ks = Some (Elem d sel a' ks').
Proof.
  destruct (nth_error rows k) as [r|] eqn:E.
  - destruct (row_inside _ _ E) as (tg' & a' & ks' & Hr).
    exists (query_forest sel ks'). split.
    + exact (proj1 (element_inside _ _ _ _ _ Hr)).
    + intros d Hq. exact (inside_query _ _ _ _ _ _ Hr Hq).
  - exists None. split; [reflexivity | discriminate].
Qed.

Lemma row_text k :
  exists o,
    reads (chain (nth_error rows k)
             (fun r => s <- Dom.textContent r ;; ret (Js.trim s))) (World R n) o.
Proof.
  destruct (nth_error rows k) as [r|] eqn:E.
  - destruct (row_inside _ _ E) as (tg' & a' & ks' & Hr).
    eexists. unfold reads, chain. unfold bind at 1. unfold bind at 1.
    unfold Dom.textContent.
    rewrite (proj1 (element_inside _ _ _ _ _ Hr)). reflexivity.
  - exists None. reflexivity.
Qed.

(** A property of an element found below the block reads the same before
    and after the block is cleared. *)
Lemma prop_inside {A} (f : nid -> string -> attrs -> list node -> A) sel le :
  (forall l, le = Some l ->
     exists a' ks', find_forest l ks = Some (Elem l sel a' ks')) ->
  exists o,
    reads (chain le (fun i => Dom.element i f)) (World R n) o
    /\ (forall F m, reads (chain le (fun i => Dom.element i f)) (World (R1 ++ F) m) o)
    /\ (forall l, le = Some l ->
           exists a' ks', find_forest l ks = Some (Elem l sel a' ks')
                          /\ o = Some (f l sel a' ks')).
Proof.
  intro Hle. destruct le as [l|].
  - destruct (Hle l eq_refl) as (a' & ks' & Hl).
    destruct (element_inside f _ _ _ _ Hl) as [H0 H1].
    exists (Some (f l sel a' ks')). split; [|split].
    + unfold reads, chain. unfold bind at 1. now rewrite H0.
    + intros F m. unfold reads, chain. unfold bind at 1. now rewrite (H1 F m).
    + intros ? [= <-]. eauto.
  - exists None. split; [reflexivity|]. split; [reflexivity | discriminate].
Qed.

Lemma picture_img p :
  (forall d, p = Some d ->
     exists a' ks', find_forest d ks = Some (Elem d "picture" a' ks')) ->
  exists o,
    reads (chain_ref p (Dom.querySelector "img")) (World R n) o
    /\ reads (chain_ref p (Dom.querySelector "img")) (World R1 n) o
    /\ forall d, o = Some d ->
         exists t, find_forest d R1 = Some t /\ is_elem t = true.
Proof.
  intro Hp. destruct p as [i|].
  - destruct (Hp i eq_refl) as (a' & ks' & Hi).
    destruct (element_inside (fun _ _ _ ks => query_forest "img" ks) _ _ _ _ Hi)
      as [H0 H1].
    exists (query_forest "img" ks'). split; [exact H0|]. split.
    + specialize (H1 [] n). now rewrite app_nil_r in H1.
    + intros d Hq. destruct (inside_query _ _ _ _ _ _ Hi Hq) as (a2 & ks2 & Hd).
      exists (Elem d "img" a2 ks2). split; [exact (inside_after _ _ Hd) | reflexivity].
  - exists None. split; [reflexivity|]. split; [reflexivity | discriminate].
Qed.

(** Every field can be read: none of the reads throws. *)
Lemma fields_total :
  exists dp mp alt le title target od om test,
    reads (chain_ref (nth_error rows 0) (Dom.querySelector "picture")) (World R n) dp
    /\ reads (chain_ref (nth_error rows 1) (Dom.querySelector "picture")) (World R n) mp
    /\ reads (chain (nth_error rows 2)
                (fun r => s <- Dom.textContent r ;; ret (Js.trim s))) (World R n) alt
    /\ reads (chain_ref (nth_error rows 3) (Dom.querySelector "a")) (World R n) le
    /\ reads (chain le (Dom.getString "title")) (World R n) title
    /\ reads (chain (nth_error rows 4)
                (fun r => s <- Dom.textContent r ;; ret (Js.trim s))) (World R n) target
    /\ reads (chain_ref dp (Dom.querySelector "img")) (World R n) od
    /\ reads (chain_ref mp (Dom.querySelector "img")) (World R n) om
    /\ reads (chain le (getUrl resolve "href")) (World R n) test.
Proof.
  destruct (row_query 0 "picture") as (dp & Hdp & Hdp_in).
  destruct (row_query 1 "picture") as (mp & Hmp & Hmp_in).
  destruct (row_text 2) as (alt & Halt).
  destruct (row_query 3 "a") as (le & Hle & Hle_in).
  destruct (row_text 4) as (target & Htarget).
  destruct (prop_inside
              (fun _ _ a' _ => match attr_get "title" a' with
                               | Some v => v | None => "" end)
              "a" le Hle_in) as (title & Htitle & _).
  destruct (prop_inside
              (fun _ _ a' _ => match attr_get "href" a' with
                               | Some v => resolve v | None => "" end)
              "a" le Hle_in) as (test & Htest & _).
  destruct (picture_img dp Hdp_in) as (od & Hod & _).
  destruct (picture_img mp Hmp_in) as (om & Hom & _).
  exists dp, mp, alt, le, title, target, od, om, test.
  repeat split; assumption.
Qed.

(** *** The run *)

Variables (dp mp le : option nid) (alt title target : option string).
Hypothesis Hdp :
  reads (chain_ref (nth_error rows 0) (Dom.querySelector "picture")) (World R n) dp.
Hypothesis Hmp :
  reads (chain_ref (nth_error rows 1) (Dom.querySelector "picture")) (World R n) mp.
Hypothesis Halt :
  reads (chain (nth_error rows 2)
           (fun r => s <- Dom.textContent r ;; ret (Js.trim s))) (World R n) alt.
Hypothesis Hle :
  reads (chain_ref (nth_error rows 3) (Dom.querySelector "a")) (World R n) le.
Hypothesis Htitle : reads (chain le (Dom.getString "title")) (World R n) title.
Hypothesis Htarget :
  reads (chain (nth_error rows 4)
           (fun r => s <- Dom.textContent r ;; ret (Js.trim s))) (World R n) target.

Ltac read_fields :=
  unfold decorate;
  unfold bind at 1; rewrite children_reads;
  unfold bind at 1; rewrite Hdp;
  unfold bind at 1; rewrite Hmp;
  unfold bind at 1; rewrite Halt;
  unfold bind at 1; rewrite Hle;
  unfold bind at 1; rewrite Htitle;
  unfold bind at 1; rewrite Htarget.

Lemma decorate_error_run :
  dp = None -> mp = None ->
  decorate resolve b (World R n) =
    Ok (tt, World (update_forest b (set_kids [Text n error_text]) R ++ ks) (n + 1)).
Proof.
  intros Ed Em. read_fields. rewrite Ed, Em.
  unfold Dom.setTextContent, Dom.lookup. simpl roots. rewrite Hb. reflexivity.
Qed.

Lemma or_undef_empty h : Js.or_undef (Some h) "" = h.
Proof. now destruct h. Qed.

Lemma clear_run :
  Dom.setTextContent "" b (World R n) = Ok (tt, World R1 n).
Proof.
  unfold Dom.setTextContent, Dom.lookup. simpl roots. rewrite Hb. simpl.
  now rewrite Nat.add_0_r.
Qed.

Lemma append_picture_run pic k :
  n <= id_of pic -> find_node b pic = None ->
  Dom.appendChild b (id_of pic) (World (R1 ++ [pic]) k) =
    Ok (tt, World (update_forest b (push_kid pic) R1) k)
  /\ find_forest b (update_forest b (push_kid pic) R1) = Some (Elem b tg a [pic]).
Proof.
  intros Hn Hf. split.
  - exact (appendChild_old_fresh R1 n after_bounded k b pic tg a [] block_after Hn Hf).
  - rewrite (find_update_same b (push_kid pic)) with (x := Elem b tg a []);
      [reflexivity| |exact block_after].
    intros [] ?; assumption.
Qed.

(** The image found in a picture of the block sits below the block. *)
Lemma picture_img_inside p o :
  (forall d, p = Some d ->
     exists a' ks', find_forest d ks = Some (Elem d "picture" a' ks')) ->
  reads (chain_ref p (Dom.querySelector "img")) (World R n) o ->
  forall d, o = Some d ->
    exists a2 ks2, find_forest d ks = Some (Elem d "img" a2 ks2).
Proof.
  intros Hp Ho d ->. destruct p as [i|]; [|discriminate].
  destruct (Hp i eq_refl) as (a' & ks' & Hi).
  pose proof (proj1 (element_inside (fun _ _ _ ks => query_forest "img" ks)
                       _ _ _ _ Hi)) as H0.
  pose proof (reads_fun _ _ _ _ H0 Ho) as Hq.
  exact (inside_query _ _ _ _ _ _ Hi Hq).
Qed.

(** The image found in a picture of a row is the same node before the
    block is cleared. *)
Lemma row_img_node kidx p o :
  reads (chain_ref (nth_error rows kidx) (Dom.querySelector "picture")) (World R n) p ->
  reads (chain_ref p (Dom.querySelector "img")) (World R n) o ->
  node_opt ks o = node_opt R o
  /\ forall d, o = Some d ->
       exists a2 ks2, find_forest d R = Some (Elem d "img" a2 ks2).
Proof.
  intros Hp Ho.
  destruct (row_query kidx "picture") as (p' & Hp' & Hp_in).
  rewrite (reads_fun _ _ _ _ Hp' Hp) in Hp_in.
  pose proof (picture_img_inside p o Hp_in Ho) as Hin.
  split.
  - destruct o as [d|]; [|reflexivity].
    destruct (Hin d eq_refl) as (a2 & ks2 & Hd). simpl.
    now rewrite Hd, (inside_before _ _ Hd).
  - intros d Hd. destruct (Hin d Hd) as (a2 & ks2 & Hf).
    exists a2, ks2. exact (inside_before _ _ Hf).
Qed.

Lemma decorate_render_exact od om test :
  (dp <> None \/ mp <> None) ->
  reads (chain_ref dp (Dom.querySelector "img")) (World R n) od ->
  reads (chain_ref mp (Dom.querySelector "img")) (World R n) om ->
  reads (chain le (getUrl resolve "href")) (World R n) test ->
  exists kids k k',
    decorate resolve b (World R n) =
      Ok (tt, World (update_forest b (push_kid (block_child n title target k test kids)) R1) k')
    /\ n < k
    /\ (forall i, i < n -> find_forest i kids = None)
    /\ kids = built_kids resolve n alt (node_opt ks od) (node_opt ks om)
    /\ find_forest b (update_forest b (push_kid (block_child n title target k test kids)) R1) =
         Some (Elem b tg a [block_child n title target k test kids])
    /\ below k' (block_child n title target k test kids) = true
    /\ bounded k kids = true.
Proof.
  intros Hgate Hod Hom Htest.
  (* what the fields name *)
  destruct (row_query 0 "picture") as (o & Ho & Hdp_in).
  rewrite (reads_fun _ _ _ _ Ho Hdp) in Hdp_in. clear o Ho.
  destruct (row_query 1 "picture") as (o & Ho & Hmp_in).
  rewrite (reads_fun _ _ _ _ Ho Hmp) in Hmp_in. clear o Ho.
  destruct (row_query 3 "a") as (o & Ho & Hle_in).
  rewrite (reads_fun _ _ _ _ Ho Hle) in Hle_in. clear o Ho.
  destruct (picture_img dp Hdp_in) as (o & Ho & Hod1 & Hod_in).
  rewrite (reads_fun _ _ _ _ Ho Hod) in Hod1, Hod_in. clear o Ho.
  destruct (picture_img mp Hmp_in) as (o & Ho & Hom1 & Hom_in).
  rewrite (reads_fun _ _ _ _ Ho Hom) in Hom1, Hom_in. clear o Ho.
  destruct (prop_inside
              (fun _ _ a' _ => match attr_get "href" a' with
                               | Some v => resolve v | None => "" end)
              "a" le Hle_in) as (o & Ho & Htest1 & Hhref).
  change (reads (chain le (getUrl resolve "href")) (World R n) o) in Ho.
  rewrite (reads_fun _ _ _ _ Ho Htest) in Htest1, Hhref. clear o Ho.
  (* the picture *)
  destruct (builder_total resolve R1 n dp mp alt od om after_bounded
              Hod1 Hom1 Hod_in Hom_in) as (kids & k & Hrun & Hk & Hbk & Hfresh & Hnone).
  assert (Hkids : kids = built_kids resolve n alt (node_opt ks od) (node_opt ks om)).
  { destruct (builder_built resolve R1 n dp mp alt od om after_bounded
                Hod1 Hom1 Hod_in Hom_in) as (k2 & Hrun2).
    rewrite Hrun in Hrun2. injection Hrun2 as Hroots _.
    apply app_inv_head in Hroots. injection Hroots as ->.
    assert (Hsame : forall p o, (forall d, p = Some d ->
                       exists a' ks', find_forest d ks = Some (Elem d "picture" a' ks')) ->
                     reads (chain_ref p (Dom.querySelector "img")) (World R n) o ->
                     node_opt R1 o = node_opt ks o).
    { intros p [d|] Hp Hr; [|reflexivity].
      destruct (picture_img_inside p (Some d) Hp Hr d eq_refl) as (a2 & ks2 & Hd).
      simpl. now rewrite Hd, (inside_after _ _ Hd). }
    now rewrite (Hsame dp od Hdp_in Hod), (Hsame mp om Hmp_in Hom). }
  set (pic := Elem n "picture" [] kids) in *.
  assert (Hpic_b : find_node b pic = None).
  { unfold pic. rewrite find_node_elem.
    pose proof block_lt. nat_tests. now apply Hfresh. }
  assert (Hpic_below : below k pic = true).
  { unfold pic. rewrite below_elem. nat_tests. exact Hbk. }
  exists kids, k.
  assert (Hrest :
    exists k',
      (Dom.setTextContent "" b ;;;
       picture <- createResponsivePicture resolve dp mp alt ;;
       test <- chain le (getUrl resolve "href") ;;
       match le, Js.truthy (Js.or_undef test "") with
       | Some l, true =>
           href <- getUrl resolve "href" l ;;
           link <- createLink href (Js.or_undef title "")
                     (Js.or_undef target "_self") picture ;;
           Dom.appendChild b link
       | _, _ => Dom.appendChild b picture
       end) (World R n) =
        Ok (tt, World (update_forest b (push_kid (block_child n title target k test kids)) R1) k')
      /\ find_forest b (update_forest b (push_kid (block_child n title target k test kids)) R1) =
           Some (Elem b tg a [block_child n title target k test kids])
      /\ below k' (block_child n title target k test kids) = true).
  { unfold block_child. fold pic.
    unfold bind at 1. rewrite clear_run.
    unfold bind at 1. rewrite Hrun.
    unfold bind at 1.
    change (chain le (getUrl resolve "href"))
      with (chain le (fun i => Dom.element i
              (fun _ _ a' _ => match attr_get "href" a' with
                               | Some v => resolve v | None => "" end))).
    rewrite (Htest1 [pic] k).
    destruct le as [l|].
    - destruct (Hhref l eq_refl) as (a' & ks' & Hl & ->).
      set (h := match attr_get "href" a' with
                | Some v => resolve v | None => "" end).
      rewrite !or_undef_empty.
      destruct (Js.truthy h) eqn:Et.
      + unfold bind at 1.
        rewrite (getUrl_old resolve R1 "href" l _ [pic] k (inside_after _ _ Hl) eq_refl).
        unfold bind at 1.
        assert (HR2 : bounded k (R1 ++ [pic]) = true).
        { rewrite bounded_app, bounded_cons, Hpic_below. simpl.
          rewrite andb_true_r.
          apply (proj2 (below_mono_both n k ltac:(lia))). exact after_bounded. }
        assert (Hfp : find_forest n (R1 ++ [pic]) = Some pic).
        { exact (lookup_new R1 n pic after_bounded (le_n n)). }
        rewrite (createLink_run (R1 ++ [pic]) k _ _ _ n pic HR2 Hfp).
        rewrite remove_forest_app, (bounded_remove n n (le_n n) _ after_bounded).
        rewrite remove_forest_cons. unfold pic at 1. simpl id_of.
        rewrite Nat.eqb_refl. simpl remove_forest. rewrite app_nil_r.
        set (link := Elem k "a" _ [pic]).
        destruct (append_picture_run link (S k)) as [Happ Hfind].
        * simpl. lia.
        * unfold link. rewrite find_node_elem.
          pose proof block_lt. nat_tests.
          change (find_forest b [pic])
            with (match find_node b pic with Some x => Some x | None => None end).
          now rewrite Hpic_b.
        * eexists. split; [exact Happ|]. split; [exact Hfind|].
          unfold link. rewrite below_elem, bounded_cons. nat_tests. simpl.
          rewrite andb_true_r.
          exact (proj1 (below_mono_both k (S k) (Nat.le_succ_diag_r k)) _ Hpic_below).
      + destruct (append_picture_run pic k (le_n n) Hpic_b) as [Happ Hfind].
        eexists. split; [exact Happ|]. split; [exact Hfind | exact Hpic_below].
    - rewrite (reads_fun _ _ _ _ Htest (eq_refl : reads (chain None (getUrl resolve "href")) (World R n) None)).
      simpl.
      destruct (append_picture_run pic k (le_n n) Hpic_b) as [Happ Hfind].
      eexists. split; [exact Happ|]. split; [exact Hfind | exact Hpic_below]. }
  destruct Hrest as (k' & Hrun' & Hfind' & Hbelow'). exists k'.
  split; [|split; [exact Hk | split; [exact Hfresh | split; [exact Hkids |
    split; [exact Hfind' | split; [exact Hbelow' | exact Hbk]]]]]].
  read_fields.
  destruct dp, mp; try exact Hrun'. destruct Hgate; congruence.
Qed.

Lemma node_opt_nodup o t : node_opt ks o = Some t -> NoDup (ids_node t).
Proof.
  destruct o as [d|]; [|discriminate]. simpl. intro H.
  exact (proj2 (nodup_sub_both d) _ _ kids_nodup H).
Qed.

(** Past the gate the store is well formed again: the block holds the new
    child alone and its former children are trees of their own. *)
Lemma decorate_render_wf od om test :
  (dp <> None \/ mp <> None) ->
  reads (chain_ref dp (Dom.querySelector "img")) (World R n) od ->
  reads (chain_ref mp (Dom.querySelector "img")) (World R n) om ->
  reads (chain le (getUrl resolve "href")) (World R n) test ->
  exists kids k k',
    decorate resolve b (World R n) =
      Ok (tt, World (update_forest b
                       (set_kids [block_child n title target k test kids]) R ++ ks) k')
    /\ kids = built_kids resolve n alt (node_opt ks od) (node_opt ks om)
    /\ n < k'
    /\ wf (World (update_forest b
                    (set_kids [block_child n title target k test kids]) R ++ ks) k').
Proof.
  intros Hgate Hod Hom Htest.
  destruct (decorate_render_exact od om test Hgate Hod Hom Htest)
    as (kids & k & k' & Hrun & Hk & Hfresh & Hkids & _ & Hbelow & Hbk).
  exists kids, k, k'.
  assert (Hroots : update_forest b (push_kid (block_child n title target k test kids)) R1
                   = update_forest b (set_kids [block_child n title target k test kids]) R
                     ++ ks).
  { unfold R1, cleared. rewrite update_forest_app.
    rewrite (proj2 (push_cleared_both b _)).
    now rewrite (find_none_update b _ ks block_outside_kids). }
  rewrite Hroots in Hrun. split; [exact Hrun|]. split; [exact Hkids|].
  destruct (built_kids_ids resolve n alt (node_opt ks od) (node_opt ks om)
              (node_opt_nodup od) (node_opt_nodup om)) as [Hnd Hgt].
  rewrite <- Hkids in Hnd, Hgt.
  assert (Hkn : ~ In k (ids_forest kids)).
  { intro Hin. apply (proj2 (in_find_both k) _ Hin).
    exact (bounded_find k k (le_n k) _ Hbk). }
  assert (Hnn : ~ In n (ids_forest kids)).
  { intro Hin. specialize (Hgt n Hin). lia. }
  assert (Hlt : n < k').
  { unfold block_child in Hbelow.
    destruct (Js.truthy (Js.or_undef test "")); rewrite below_elem in Hbelow;
      split_and; lia. }
  split; [exact Hlt|].
  apply (replace_wf R n b tg a ks _ k' Hwf Hb); [lia| | |].
  - rewrite bounded_cons, Hbelow. reflexivity.
  - unfold ids_forest. simpl. rewrite app_nil_r. unfold block_child.
    destruct (Js.truthy (Js.or_undef test "")); rewrite !ids_node_elem;
      unfold ids_forest at 1; simpl; rewrite ?app_nil_r.
    + constructor; [|constructor; assumption].
      intros [Heq|Hin]; [lia | contradiction].
    + constructor; assumption.
  - unfold ids_forest. simpl. rewrite app_nil_r. unfold block_child.
    destruct (Js.truthy (Js.or_undef test "")); rewrite !ids_node_elem;
      unfold ids_forest at 1; simpl; rewrite ?app_nil_r.
    + intros i [<-|[<-|Hin]]; [lia | lia | specialize (Hgt i Hin); lia].
    + intros i [<-|Hin]; [lia | specialize (Hgt i Hin); lia].
Qed.

(** Stopped at the gate the store is well formed again as well. *)
Lemma decorate_error_wf :
  wf (World (update_forest b (set_kids [Text n error_text]) R ++ ks) (n + 1)).
Proof.
  apply (replace_wf R n b tg a ks _ (n + 1) Hwf Hb); [lia| | |].
  - simpl. now nat_tests.
  - unfold ids_forest. simpl. repeat constructor. intros [].
  - unfold ids_forest. simpl. intros i [<-|[]]. lia.
Qed.

Lemma decorate_render_run od om test :
  (dp <> None \/ mp <> None) ->
  reads (chain_ref dp (Dom.querySelector "img")) (World R n) od ->
  reads (chain_ref mp (Dom.querySelector "img")) (World R n) om ->
  reads (chain le (getUrl resolve "href")) (World R n) test ->
  exists kids k w',
    decorate resolve b (World R n) = Ok (tt, w')
    /\ n < k
    /\ (od = None -> om = None -> kids = [])
    /\ find_forest b (roots w') =
         Some (Elem b tg a
                 [ if Js.truthy (Js.or_undef test "")
                   then Elem k "a"
                          (link_atts (Js.or_undef test "") (Js.or_undef title "")
                             (Js.or_undef target "_self"))
                          [Elem n "picture" [] kids]
                   else Elem n "picture" [] kids ]).
Proof.
  intros Hgate Hod Hom Htest.
  destruct (decorate_render_exact od om test Hgate Hod Hom Htest)
    as (kids & k & k' & Hrun & Hk & _ & Hkids & Hfind & _ & _).
  exists kids, k, (World (update_forest b (push_kid (block_child n title target k test kids)) R1) k').
  split; [exact Hrun|]. split; [exact Hk|]. split; [|exact Hfind].
  intros -> ->. exact Hkids.
Qed.

End Block.

(** A reference to an element of the store. *)
Lemma children_block w b rows :
  reads (Dom.children b) w rows ->
  exists tg a ks,
    find_forest b (roots w) = Some (Elem b tg a ks) /\ rows = rows_of ks.
Proof.
  unfold reads, Dom.children, Dom.element, Dom.lookup.
  destruct (find_forest b (roots w)) as [[j tg a ks|]|] eqn:E; try discriminate.
  intros [= <-]. pose proof (find_forest_id _ _ _ E) as Hj. simpl in Hj. subst j.
  now exists tg, a, ks.
Qed.

Section BlockDecorator.
Variable resolve : string -> string.

(** What the block holds when the gate stops the run. *)
Lemma decorate_error_shape R n b tg a ks :
  wf (World R n) ->
  find_forest b R = Some (Elem b tg a ks) ->
  reads (chain_ref (nth_error (rows_of ks) 0) (Dom.querySelector "picture"))
    (World R n) None ->
  reads (chain_ref (nth_error (rows_of ks) 1) (Dom.querySelector "picture"))
    (World R n) None ->
  exists w',
    decorate resolve b (World R n) = Ok (tt, w')
    /\ Dom.lookup w' b = Some (Elem b tg a [Text n error_text]).
Proof.
  intros Hwf Hb Hdp Hmp.
  destruct (fields_total resolve R n b tg a ks Hwf Hb)
    as (dp & mp & alt & le & title & target & _ & _ & _ &
        Hdp' & Hmp' & Halt & Hle & Htitle & Htarget & _).
  exists (World (update_forest b (set_kids [Text n error_text]) R ++ ks) (n + 1)).
  split.
  - exact (decorate_error_run resolve R n b tg a ks Hb dp mp le alt title target
             Hdp' Hmp' Halt Hle Htitle Htarget
             (reads_fun _ _ _ _ Hdp' Hdp) (reads_fun _ _ _ _ Hmp' Hmp)).
  - unfold Dom.lookup. simpl roots. rewrite find_forest_app.
    rewrite (find_update_same b (set_kids [Text n error_text]))
      with (x := Elem b tg a ks); [reflexivity| |exact Hb].
    intros [] ?; assumption.
Qed.

(** C3. When no picture is found in row 0 and none in row 1, the block
    ends up holding the error text and nothing else, and nothing is
    thrown. *)
Theorem decorate_missing_image w b rows :
  wf w ->
  reads (Dom.children b) w rows ->
  reads (chain_ref (nth_error rows 0) (Dom.querySelector "picture")) w None ->
  reads (chain_ref (nth_error rows 1) (Dom.querySelector "picture")) w None ->
  exists w' tg a ks,
    Dom.lookup w b = Some (Elem b tg a ks)
    /\ decorate resolve b w = Ok (tt, w')
    /\ Dom.lookup w' b = Some (Elem b tg a [Text (next w) error_text])
    /\ text_node (Elem b tg a [Text (next w) error_text]) = error_text
    /\ query_forest "img" [Text (next w) error_text] = None
    /\ query_forest "picture" [Text (next w) error_text] = None
    /\ query_forest "a" [Text (next w) error_text] = None.
Proof.
  destruct w as [R n]. intros Hwf Hrows Hdp Hmp.
  destruct (children_block _ _ _ Hrows) as (tg & a & ks & Hb & ->).
  simpl in Hb.
  destruct (decorate_error_shape R n b tg a ks Hwf Hb Hdp Hmp) as (w' & Hrun & Hl).
  exists w', tg, a, ks. repeat split; assumption.
Qed.

(** What the block holds once a picture has been put in. *)
Lemma decorate_rendered R n b tg a ks dp mp le od om test :
  wf (World R n) ->
  find_forest b R = Some (Elem b tg a ks) ->
  reads (chain_ref (nth_error (rows_of ks) 0) (Dom.querySelector "picture"))
    (World R n) dp ->
  reads (chain_ref (nth_error (rows_of ks) 1) (Dom.querySelector "picture"))
    (World R n) mp ->
  reads (chain_ref (nth_error (rows_of ks) 3) (Dom.querySelector "a"))
    (World R n) le ->
  reads (chain_ref dp (Dom.querySelector "img")) (World R n) od ->
  reads (chain_ref mp (Dom.querySelector "img")) (World R n) om ->
  reads (chain le (getUrl resolve "href")) (World R n) test ->
  (dp <> None \/ mp <> None) ->
  exists kids k w' title target,
    decorate resolve b (World R n) = Ok (tt, w')
    /\ n < k
    /\ (od = None -> om = None -> kids = [])
    /\ Dom.lookup w' b =
         Some (Elem b tg a
                 [ if Js.truthy (Js.or_undef test "")
                   then Elem k "a" (link_atts (Js.or_undef test "") title target)
                          [Elem n "picture" [] kids]
                   else Elem n "picture" [] kids ]).
Proof.
  intros Hwf Hb Hdp Hmp Hle Hod Hom Htest Hgate.
  destruct (fields_total resolve R n b tg a ks Hwf Hb)
    as (dp' & mp' & alt & le' & title & target & _ & _ & _ &
        Hdp' & Hmp' & Halt & Hle' & Htitle & Htarget & _).
  pose proof (reads_fun _ _ _ _ Hdp' Hdp) as ->.
  pose proof (reads_fun _ _ _ _ Hmp' Hmp) as ->.
  pose proof (reads_fun _ _ _ _ Hle' Hle) as ->.
  destruct (decorate_render_run resolve R n b tg a ks Hwf Hb dp mp le alt title target
              Hdp Hmp Halt Hle Htitle Htarget od om test Hgate Hod Hom Htest)
    as (kids & k & w' & H).
  exists kids, k, w', (Js.or_undef title ""), (Js.or_undef target "_self").
  exact H.
Qed.

Lemma truthy_not_empty s : Js.truthy s = true <-> s <> "".
Proof. destruct s; simpl; split; intro H; congruence. Qed.

(** C5. Once a picture container has been found in row 0 or row 1, the
    block gets an anchor around the picture exactly when row 3 holds an
    anchor whose [href] property is not empty, that is, when that anchor
    has an [href] attribute and the URL resolved from the attribute's
    text is not empty; the new anchor's [href] is that URL.  In every
    other case (no anchor, an anchor without [href] attribute, or one
    whose attribute resolves to the empty string) the block gets the
    picture itself. *)
Theorem decorate_wraps_iff_href_url w b rows desktopPicture mobilePicture linkElement :
  wf w ->
  reads (Dom.children b) w rows ->
  reads (chain_ref (nth_error rows 0) (Dom.querySelector "picture")) w desktopPicture ->
  reads (chain_ref (nth_error rows 1) (Dom.querySelector "picture")) w mobilePicture ->
  reads (chain_ref (nth_error rows 3) (Dom.querySelector "a")) w linkElement ->
  (desktopPicture <> None \/ mobilePicture <> None) ->
  exists w' tg a ks child,
    Dom.lookup w b = Some (Elem b tg a ks)
    /\ decorate resolve b w = Ok (tt, w')
    /\ Dom.lookup w' b = Some (Elem b tg a [child])
    /\ ((exists l la lks v,
           linkElement = Some l
           /\ Dom.lookup w l = Some (Elem l "a" la lks)
           /\ attr_get "href" la = Some v
           /\ resolve v <> "")
        <-> tag_of child = Some "a")
    /\ (tag_of child = Some "a" ->
          exists picture l,
            kids_of child = [picture]
            /\ tag_of picture = Some "picture"
            /\ linkElement = Some l
            /\ attr_get "href" (atts_of child) = Some (url_prop resolve w "href" l))
    /\ (tag_of child <> Some "a" -> tag_of child = Some "picture").
Proof.
  destruct w as [R n]. intros Hwf Hrows Hdp Hmp Hle Hgate.
  destruct (children_block _ _ _ Hrows) as (tg & a & ks & Hb & ->).
  simpl in Hb.
  destruct (fields_total resolve R n b tg a ks Hwf Hb)
    as (dp' & mp' & _ & _ & _ & _ & od & om & _ &
        Hdp' & Hmp' & _ & _ & _ & _ & Hod & Hom & _).
  pose proof (reads_fun _ _ _ _ Hdp' Hdp) as ->.
  pose proof (reads_fun _ _ _ _ Hmp' Hmp) as ->.
  destruct linkElement as [l|].
  - destruct (wf_query _ _ _ _ _ Hwf Hle) as (la & lks & Hl).
    assert (Htest : reads (chain (Some l) (getUrl resolve "href")) (World R n)
                      (Some (url_prop resolve (World R n) "href" l))).
    { unfold reads, chain, bind, getUrl, Dom.element, url_prop, url_att, Dom.lookup.
      simpl roots. rewrite Hl. reflexivity. }
    destruct (decorate_rendered R n b tg a ks _ _ _ od om _ Hwf Hb
                Hdp Hmp Hle Hod Hom Htest Hgate)
      as (kids & k & w' & title & target & Hrun & _ & _ & Hlook).
    rewrite or_undef_empty in Hlook.
    eexists w', tg, a, ks, _. split; [exact Hb|].
    split; [exact Hrun|]. split; [exact Hlook|].
    assert (Hurl : url_prop resolve (World R n) "href" l
                   = match attr_get "href" la with Some v => resolve v | None => "" end).
    { unfold url_prop, url_att, Dom.lookup. simpl roots. now rewrite Hl. }
    destruct (Js.truthy (url_prop resolve (World R n) "href" l)) eqn:Et; simpl.
    + split.
      { split; [reflexivity|]. intros _. exists l, la, lks.
        apply truthy_not_empty in Et. rewrite Hurl in Et.
        destruct (attr_get "href" la) as [v|]; [|congruence].
        exists v. unfold Dom.lookup. simpl roots. auto. }
      split; [|congruence]. intros _. eexists _, l.
      split; [reflexivity|]. split; [reflexivity|]. split; [reflexivity|].
      reflexivity.
    + split.
      { split; [|discriminate]. intros (l' & la' & lks' & v & [= <-] & Hl' & Hv & Hne).
        unfold Dom.lookup in Hl'. simpl roots in Hl'. rewrite Hl in Hl'.
        injection Hl' as <- <-. rewrite Hurl, Hv in Et.
        apply truthy_not_empty in Hne. congruence. }
      split; [discriminate | reflexivity].
  - assert (Htest : reads (chain None (getUrl resolve "href")) (World R n) None)
      by reflexivity.
    destruct (decorate_rendered R n b tg a ks _ _ _ od om _ Hwf Hb
                Hdp Hmp Hle Hod Hom Htest Hgate)
      as (kids & k & w' & title & target & Hrun & _ & _ & Hlook).
    simpl in Hlook.
    eexists w', tg, a, ks, _. split; [exact Hb|].
    split; [exact Hrun|]. split; [exact Hlook|]. simpl.
    split.
    { split; [|discriminate]. intros (l' & _ & _ & _ & [=] & _). }
    split; [discriminate | reflexivity].
Qed.

(** C9. Whatever the block holds, [decorate] returns without throwing
    and leaves in it the error text, a picture, or an anchor around a
    picture. *)
Theorem decorate_total w b tg a ks :
  wf w ->
  Dom.lookup w b = Some (Elem b tg a ks) ->
  exists w' kids',
    decorate resolve b w = Ok (tt, w')
    /\ Dom.lookup w' b = Some (Elem b tg a kids')
    /\ (kids' = [Text (next w) error_text]
        \/ (exists p pk, kids' = [Elem p "picture" [] pk])
        \/ (exists l la p pk, kids' = [Elem l "a" la [Elem p "picture" [] pk]])).
Proof.
  destruct w as [R n]. intros Hwf Hb. unfold Dom.lookup in Hb. simpl in Hb.
  destruct (fields_total resolve R n b tg a ks Hwf Hb)
    as (dp & mp & alt & le & title & target & od & om & test &
        Hdp & Hmp & Halt & Hle & Htitle & Htarget & Hod & Hom & Htest).
  destruct dp as [p|] eqn:Ed; [|destruct mp as [p|] eqn:Em].
  3: { destruct (decorate_error_shape R n b tg a ks Hwf Hb Hdp Hmp)
         as (w' & Hrun & Hlook).
       exists w', [Text n error_text]. split; [exact Hrun|].
       split; [exact Hlook | now left]. }
  all: match goal with
       | Hd : reads _ _ ?dp, Hm : reads (chain_ref (nth_error _ 1) _) _ ?mp |- _ =>
           destruct (decorate_rendered R n b tg a ks dp mp le od om test Hwf Hb
                       Hd Hm Hle Hod Hom Htest)
             as (kids & k & w' & ti & ta & Hrun & _ & _ & Hlook)
       end.
  all: try solve [left; discriminate | right; discriminate].
  all: eexists w', _; (split; [exact Hrun|]); (split; [exact Hlook|]); right;
    destruct (Js.truthy (Js.or_undef test "")); eauto 8.
Qed.

(** C10. A picture container without an image inside passes the gate:
    when a container is found for row 0 or row 1 and no image is found in
    either, no error text is written and the block ends up with one empty
    picture, inside the anchor when there is one. *)
Theorem decorate_empty_picture w b rows desktopPicture mobilePicture :
  wf w ->
  reads (Dom.children b) w rows ->
  reads (chain_ref (nth_error rows 0) (Dom.querySelector "picture")) w desktopPicture ->
  reads (chain_ref (nth_error rows 1) (Dom.querySelector "picture")) w mobilePicture ->
  (desktopPicture <> None \/ mobilePicture <> None) ->
  reads (chain_ref desktopPicture (Dom.querySelector "img")) w None ->
  reads (chain_ref mobilePicture (Dom.querySelector "img")) w None ->
  exists w' tg a ks child,
    Dom.lookup w b = Some (Elem b tg a ks)
    /\ decorate resolve b w = Ok (tt, w')
    /\ Dom.lookup w' b = Some (Elem b tg a [child])
    /\ (child = Elem (next w) "picture" [] []
        \/ exists l la, child = Elem l "a" la [Elem (next w) "picture" [] []])
    /\ query_forest "picture" [child] <> None
    /\ query_forest "img" [child] = None
    /\ text_node child = "".
Proof.
  destruct w as [R n]. intros Hwf Hrows Hdp Hmp Hgate Hod Hom.
  destruct (children_block _ _ _ Hrows) as (tg & a & ks & Hb & ->).
  simpl in Hb.
  destruct (fields_total resolve R n b tg a ks Hwf Hb)
    as (dp' & mp' & _ & le & _ & _ & _ & _ & test &
        Hdp' & Hmp' & _ & Hle & _ & _ & _ & _ & Htest).
  pose proof (reads_fun _ _ _ _ Hdp' Hdp) as ->.
  pose proof (reads_fun _ _ _ _ Hmp' Hmp) as ->.
  destruct (decorate_rendered R n b tg a ks _ _ le None None test Hwf Hb
              Hdp Hmp Hle Hod Hom Htest Hgate)
    as (kids & k & w' & title & target & Hrun & _ & Hnone & Hlook).
  rewrite (Hnone eq_refl eq_refl) in Hlook.
  eexists w', tg, a, ks, _. split; [exact Hb|].
  split; [exact Hrun|]. split; [exact Hlook|].
  simpl next.
  destruct (Js.truthy (Js.or_undef test "")).
  - split; [right; eauto|]. repeat split. discriminate.
  - split; [now left|]. repeat split. discriminate.
Qed.

End BlockDecorator.

(** ** The block from end to end *)

Section EndToEnd.
Variable resolve : string -> string.

(** The run past the gate, in full: the fields read, the picture built from
    the images found, the child the block receives, and what is left
    alone. *)
Lemma decorate_exact R n b tg a ks dp mp alt od om :
  wf (World R n) ->
  find_forest b R = Some (Elem b tg a ks) ->
  reads (chain_ref (nth_error (rows_of ks) 0) (Dom.querySelector "picture"))
    (World R n) dp ->
  reads (chain_ref (nth_error (rows_of ks) 1) (Dom.querySelector "picture"))
    (World R n) mp ->
  reads (chain (nth_error (rows_of ks) 2)
           (fun r => s <- Dom.textContent r ;; ret (Js.trim s))) (World R n) alt ->
  reads (chain_ref dp (Dom.querySelector "img")) (World R n) od ->
  reads (chain_ref mp (Dom.querySelector "img")) (World R n) om ->
  (dp <> None \/ mp <> None) ->
  exists le title target test kids k w',
    reads (chain_ref (nth_error (rows_of ks) 3) (Dom.querySelector "a")) (World R n) le
    /\ reads (chain le (Dom.getString "title")) (World R n) title
    /\ reads (chain (nth_error (rows_of ks) 4)
                (fun r => s <- Dom.textContent r ;; ret (Js.trim s))) (World R n) target
    /\ reads (chain le (getUrl resolve "href")) (World R n) test
    /\ decorate resolve b (World R n) = Ok (tt, w')
    /\ n < k
    /\ kids = built_kids resolve n alt (node_opt R od) (node_opt R om)
    /\ Dom.lookup w' b = Some (Elem b tg a [block_child n title target k test kids])
    /\ (forall i, i < n -> find_node i (block_child n title target k test kids) = None)
    /\ (forall i t, find_forest i ks = Some t -> Dom.lookup w' i = Some t)
    /\ (forall t, In t ks -> In t (roots w'))
    /\ (forall t, In t R -> find_node b t = None -> In t (roots w')).
Proof.
  intros Hwf Hb Hdp Hmp Halt Hod Hom Hgate.
  destruct (fields_total resolve R n b tg a ks Hwf Hb)
    as (dp' & mp' & alt' & le & title & target & _ & _ & test &
        Hdp' & Hmp' & Halt' & Hle & Htitle & Htarget & _ & _ & Htest).
  pose proof (reads_fun _ _ _ _ Hdp' Hdp) as ->.
  pose proof (reads_fun _ _ _ _ Hmp' Hmp) as ->.
  pose proof (reads_fun _ _ _ _ Halt' Halt) as ->.
  destruct (decorate_render_exact resolve R n b tg a ks Hwf Hb dp mp le alt title target
              Hdp Hmp Halt Hle Htitle Htarget od om test Hgate Hod Hom Htest)
    as (kids & k & k' & Hrun & Hk & Hfresh & Hkids & Hfind & _ & _).
  assert (Hchild : forall i, i < n ->
            find_node i (block_child n title target k test kids) = None).
  { intros i Hi. unfold block_child.
    destruct (Js.truthy (Js.or_undef test ""));
      rewrite ?find_node_elem; nat_tests;
      rewrite ?find_forest_cons, ?find_node_elem; nat_tests;
      now rewrite (Hfresh i Hi). }
  destruct (frame_render R n b tg a ks Hwf Hb _ k' Hchild) as (F1 & F2 & F3).
  exists le, title, target, test, kids, k,
    (World (update_forest b (push_kid (block_child n title target k test kids))
              (cleared b R ks)) k').
  repeat (split; [assumption|]).
  split.
  { rewrite Hkids.
    destruct (row_img_node R n b tg a ks Hwf Hb 0 dp od Hdp Hod) as [-> _].
    destruct (row_img_node R n b tg a ks Hwf Hb 1 mp om Hmp Hom) as [-> _].
    reflexivity. }
  split; [exact Hfind|]. split; [exact Hchild|].
  split; [exact F1|]. split; [exact F2 | exact F3].
Qed.

Lemma block_child_cases n title target k test kids :
  block_child n title target k test kids = Elem n "picture" [] kids
  \/ exists l la, block_child n title target k test kids =
                    Elem l "a" la [Elem n "picture" [] kids].
Proof.
  unfold block_child. destruct (Js.truthy (Js.or_undef test "")); eauto.
Qed.

Lemma chain_ref_some {A B} (p : option A) (f : A -> M (option B)) w (x : B) :
  reads (chain_ref p f) w (Some x) -> p <> None.
Proof. destruct p; [discriminate|]. intros [=]. Qed.

Lemma reads_trimmed (o : option nid) w text :
  reads (chain o Dom.textContent) w text ->
  reads (chain o (fun r => s <- Dom.textContent r ;; ret (Js.trim s))) w
    (option_map Js.trim text).
Proof.
  destruct o as [r|]; [|now intros [= <-]].
  unfold reads, chain, bind, ret.
  destruct (Dom.textContent r w) as [[s w1]|]; [|discriminate].
  now intros [= <- ->].
Qed.

Lemma trimmed_text_trim text : trimmed_text text (option_map Js.trim text).
Proof.
  destruct text as [s|]; simpl; [|reflexivity].
  exists (Js.trim s). split; [reflexivity | apply trim_trims].
Qed.

(** X1. From end to end, two images with different URLs: the block ends up
    holding (directly, or inside the anchor) a new picture with the two
    sources and the fallback image.  Its alt text is the text of row 2
    without the white space at its ends (the WhiteSpace and LineTerminator
    characters of ECMAScript) when something is left of it, and the
    desktop image's own alt text when nothing is left or row 2 is
    missing. *)
Theorem decorate_two_images w b rows desktopPicture mobilePicture text d m :
  wf w ->
  reads (Dom.children b) w rows ->
  reads (chain_ref (nth_error rows 0) (Dom.querySelector "picture")) w desktopPicture ->
  reads (chain_ref (nth_error rows 1) (Dom.querySelector "picture")) w mobilePicture ->
  reads (chain (nth_error rows 2) Dom.textContent) w text ->
  reads (chain_ref desktopPicture (Dom.querySelector "img")) w (Some d) ->
  reads (chain_ref mobilePicture (Dom.querySelector "img")) w (Some m) ->
  url_prop resolve w "src" d <> url_prop resolve w "src" m ->
  exists w' tg a ks child picture alt,
    Dom.lookup w b = Some (Elem b tg a ks)
    /\ decorate resolve b w = Ok (tt, w')
    /\ Dom.lookup w' b = Some (Elem b tg a [child])
    /\ (child = picture \/ exists l la, child = Elem l "a" la [picture])
    /\ alt = option_map Js.trim text
    /\ trimmed_text text alt
    /\ picture =
         Elem (next w) "picture" []
           [ Elem (1 + next w) "source"
               [("media", "(max-width: 767px)");
                ("srcset", url_prop resolve w "src" m)] [];
             Elem (2 + next w) "source"
               [("media", "(min-width: 768px)");
                ("srcset", url_prop resolve w "src" d)] [];
             Elem (3 + next w) "img"
               [("src", url_prop resolve w "src" d);
                ("alt", chosen_alt alt (str_prop w "alt" d));
                ("loading", "lazy")] [] ].
Proof.
  destruct w as [R n]. intros Hwf Hrows Hdp Hmp Htext Hod Hom Hne.
  set (alt := option_map Js.trim text).
  pose proof (reads_trimmed _ _ _ Htext) as Halt. fold alt in Halt.
  destruct (children_block _ _ _ Hrows) as (tg & a & ks & Hb & ->). simpl in Hb.
  destruct (decorate_exact R n b tg a ks _ _ alt _ _ Hwf Hb Hdp Hmp Halt Hod Hom
              (or_introl (chain_ref_some _ _ _ _ Hod)))
    as (le & title & target & test & kids & k & w' & _ & _ & _ & _ &
        Hrun & _ & Hkids & Hlook & _).
  destruct (proj2 (row_img_node R n b tg a ks Hwf Hb 0 _ _ Hdp Hod) d eq_refl)
    as (da & dks & Hd).
  destruct (proj2 (row_img_node R n b tg a ks Hwf Hb 1 _ _ Hmp Hom) m eq_refl)
    as (ma & mks & Hm).
  unfold url_prop, str_prop, Dom.lookup in *. simpl roots in *. simpl next.
  rewrite Hd, Hm in *.
  simpl node_opt in Hkids. rewrite Hd, Hm in Hkids. simpl built_kids in Hkids.
  apply String.eqb_neq in Hne. rewrite Hne in Hkids.
  unfold responsive_kids in Hkids. rewrite alt_text_chosen in Hkids.
  exists w', tg, a, ks, (block_child n title target k test kids),
    (Elem n "picture" [] kids), alt.
  split; [exact Hb|]. split; [exact Hrun|]. split; [exact Hlook|].
  split; [apply block_child_cases|]. split; [reflexivity|].
  split; [apply trimmed_text_trim|]. now rewrite Hkids.
Qed.

(** X2. From end to end, one image (or two with the same URL): the block
    ends up holding (directly, or inside the anchor) a new picture whose
    only child is a copy of the image found, desktop first, with lazy
    loading.  Its alt text is the text of row 2 without the white space
    at its ends (the WhiteSpace and LineTerminator characters of
    ECMAScript) when something is left of it, and the image's own alt
    text when nothing is left or row 2 is missing. *)
Theorem decorate_one_image w b rows desktopPicture mobilePicture text desktopImg mobileImg :
  wf w ->
  reads (Dom.children b) w rows ->
  reads (chain_ref (nth_error rows 0) (Dom.querySelector "picture")) w desktopPicture ->
  reads (chain_ref (nth_error rows 1) (Dom.querySelector "picture")) w mobilePicture ->
  reads (chain (nth_error rows 2) Dom.textContent) w text ->
  reads (chain_ref desktopPicture (Dom.querySelector "img")) w desktopImg ->
  reads (chain_ref mobilePicture (Dom.querySelector "img")) w mobileImg ->
  single_source resolve w desktopImg mobileImg ->
  exists w' tg a ks child fb orig img alt,
    Dom.lookup w b = Some (Elem b tg a ks)
    /\ decorate resolve b w = Ok (tt, w')
    /\ Dom.lookup w' b = Some (Elem b tg a [child])
    /\ (child = Elem (next w) "picture" [] [img]
        \/ exists l la, child = Elem l "a" la [Elem (next w) "picture" [] [img]])
    /\ Js.or_ref desktopImg mobileImg = Some fb
    /\ Dom.lookup w fb = Some orig
    /\ alt = option_map Js.trim text
    /\ trimmed_text text alt
    /\ img = set_att "loading" "lazy"
               (set_att "alt" (chosen_alt alt (str_att "alt" orig))
                  (shift_node (S (next w)) orig))
    /\ tag_of img = Some "img".
Proof.
  destruct w as [R n]. intros Hwf Hrows Hdp Hmp Htext Hod Hom Hs.
  set (alt := option_map Js.trim text).
  pose proof (reads_trimmed _ _ _ Htext) as Halt. fold alt in Halt.
  destruct (children_block _ _ _ Hrows) as (tg & a & ks & Hb & ->). simpl in Hb.
  assert (Hgate : desktopPicture <> None \/ mobilePicture <> None).
  { destruct desktopImg as [d|].
    - left. exact (chain_ref_some _ _ _ _ Hod).
    - destruct mobileImg as [m|]; [|contradiction].
      right. exact (chain_ref_some _ _ _ _ Hom). }
  destruct (decorate_exact R n b tg a ks _ _ alt _ _ Hwf Hb Hdp Hmp Halt Hod Hom Hgate)
    as (le & title & target & test & kids & k & w' & _ & _ & _ & _ &
        Hrun & _ & Hkids & Hlook & _).
  pose proof (proj2 (row_img_node R n b tg a ks Hwf Hb 0 _ _ Hdp Hod)) as Hdn.
  pose proof (proj2 (row_img_node R n b tg a ks Hwf Hb 1 _ _ Hmp Hom)) as Hmn.
  assert (exists fb fa fks,
            Js.or_ref desktopImg mobileImg = Some fb
            /\ find_forest fb R = Some (Elem fb "img" fa fks)
            /\ kids = [single_kid n alt (Elem fb "img" fa fks)])
    as (fb & fa & fks & Hor & Hfb & Hk1).
  { destruct desktopImg as [d|], mobileImg as [m|]; simpl in Hs; try contradiction.
    - destruct (Hdn d eq_refl) as (da & dks & Hd).
      destruct (Hmn m eq_refl) as (ma & mks & Hm).
      unfold url_prop, Dom.lookup in Hs. simpl roots in Hs. rewrite Hd, Hm in Hs.
      simpl node_opt in Hkids. rewrite Hd, Hm in Hkids. simpl built_kids in Hkids.
      rewrite Hs, String.eqb_refl in Hkids.
      exists d, da, dks. repeat split; assumption.
    - destruct (Hdn d eq_refl) as (da & dks & Hd).
      simpl node_opt in Hkids. rewrite Hd in Hkids.
      exists d, da, dks. repeat split; assumption.
    - destruct (Hmn m eq_refl) as (ma & mks & Hm).
      simpl node_opt in Hkids. rewrite Hm in Hkids.
      exists m, ma, mks. repeat split; assumption. }
  subst kids. rewrite Hk1 in Hlook.
  exists w', tg, a, ks, (block_child n title target k test
                           [single_kid n alt (Elem fb "img" fa fks)]),
    fb, (Elem fb "img" fa fks), (single_kid n alt (Elem fb "img" fa fks)), alt.
  split; [exact Hb|]. split; [exact Hrun|]. split; [exact Hlook|].
  split; [apply block_child_cases|]. split; [exact Hor|]. split; [exact Hfb|].
  split; [reflexivity|]. split; [apply trimmed_text_trim|].
  unfold single_kid. rewrite alt_text_chosen. split; reflexivity.
Qed.

(** The run past the gate with every field named. *)
Lemma decorate_fields w b rows dp mp le title target test :
  wf w ->
  reads (Dom.children b) w rows ->
  reads (chain_ref (nth_error rows 0) (Dom.querySelector "picture")) w dp ->
  reads (chain_ref (nth_error rows 1) (Dom.querySelector "picture")) w mp ->
  (dp <> None \/ mp <> None) ->
  reads (chain_ref (nth_error rows 3) (Dom.querySelector "a")) w le ->
  reads (chain le (Dom.getString "title")) w title ->
  reads (chain (nth_error rows 4)
           (fun r => s <- Dom.textContent r ;; ret (Js.trim s))) w target ->
  reads (chain le (getUrl resolve "href")) w test ->
  exists w' tg a ks kids k,
    Dom.lookup w b = Some (Elem b tg a ks)
    /\ decorate resolve b w = Ok (tt, w')
    /\ Dom.lookup w' b =
         Some (Elem b tg a [block_child (next w) title target k test kids]).
Proof.
  destruct w as [R n]. intros Hwf Hrows Hdp Hmp Hgate Hle Htitle Htarget Htest.
  destruct (children_block _ _ _ Hrows) as (tg & a & ks & Hb & ->). simpl in Hb.
  destruct (fields_total resolve R n b tg a ks Hwf Hb)
    as (dp' & mp' & alt & _ & _ & _ & od & om & _ &
        Hdp' & Hmp' & Halt & _ & _ & _ & Hod & Hom & _).
  pose proof (reads_fun _ _ _ _ Hdp' Hdp) as ->.
  pose proof (reads_fun _ _ _ _ Hmp' Hmp) as ->.
  destruct (decorate_exact R n b tg a ks _ _ alt _ _ Hwf Hb Hdp Hmp Halt Hod Hom Hgate)
    as (le' & title' & target' & test' & kids & k & w' & Hle' & Htitle' & Htarget' &
        Htest' & Hrun & _ & _ & Hlook & _).
  pose proof (reads_fun _ _ _ _ Hle' Hle) as ->.
  pose proof (reads_fun _ _ _ _ Htitle' Htitle) as ->.
  pose proof (reads_fun _ _ _ _ Htarget' Htarget) as ->.
  pose proof (reads_fun _ _ _ _ Htest' Htest) as ->.
  exists w', tg, a, ks, kids, k. repeat split; assumption.
Qed.

(** X3. From end to end, the anchor: when a picture container is found
    in row 0 or row 1 and row 3 holds an anchor with a non-empty [href]
    property, the block's only child is a new anchor around the picture
    whose [href] is that property, whose [target] is the text of row 4
    without the white space at its ends (the WhiteSpace and
    LineTerminator characters of ECMAScript), or ["_self"] when nothing
    is left of it or row 4 is missing, whose [title] is the title
    attribute of the authored anchor when that is not empty, and which
    has [rel] exactly for the target ["_blank"]. *)
Theorem decorate_link_attributes
  w b rows desktopPicture mobilePicture linkElement title text href :
  wf w ->
  reads (Dom.children b) w rows ->
  reads (chain_ref (nth_error rows 0) (Dom.querySelector "picture")) w desktopPicture ->
  reads (chain_ref (nth_error rows 1) (Dom.querySelector "picture")) w mobilePicture ->
  (desktopPicture <> None \/ mobilePicture <> None) ->
  reads (chain_ref (nth_error rows 3) (Dom.querySelector "a")) w linkElement ->
  reads (chain linkElement (Dom.getString "title")) w title ->
  reads (chain (nth_error rows 4) Dom.textContent) w text ->
  reads (chain linkElement (getUrl resolve "href")) w (Some href) ->
  Js.truthy href = true ->
  exists w' tg a ks l atts picture target,
    Dom.lookup w b = Some (Elem b tg a ks)
    /\ decorate resolve b w = Ok (tt, w')
    /\ Dom.lookup w' b = Some (Elem b tg a [Elem l "a" atts [picture]])
    /\ tag_of picture = Some "picture"
    /\ attr_get "href" atts = Some href
    /\ target = option_map Js.trim text
    /\ trimmed_text text target
    /\ attr_get "target" atts = Some (Js.or_undef target "_self")
    /\ attr_get "title" atts =
         (if Js.truthy (Js.or_undef title "")
          then Some (Js.or_undef title "") else None)
    /\ attr_get "rel" atts =
         (if String.eqb (Js.or_undef target "_self") "_blank"
          then Some "noopener noreferrer" else None).
Proof.
  intros Hwf Hrows Hdp Hmp Hgate Hle Htitle Htext Htest Ht.
  set (target := option_map Js.trim text).
  pose proof (reads_trimmed _ _ _ Htext) as Htarget. fold target in Htarget.
  destruct (decorate_fields w b rows _ _ _ _ _ _ Hwf Hrows Hdp Hmp Hgate
              Hle Htitle Htarget Htest)
    as (w' & tg & a & ks & kids & k & Hb & Hrun & Hlook).
  unfold block_child in Hlook. rewrite or_undef_empty, Ht in Hlook.
  eexists w', tg, a, ks, _, _, _, target.
  split; [exact Hb|]. split; [exact Hrun|]. split; [exact Hlook|].
  split; [reflexivity|].
  pose proof (trimmed_text_trim text) as Htrim. fold target in Htrim.
  unfold link_atts.
  destruct (Js.truthy (Js.or_undef title "")),
    (String.eqb (Js.or_undef target "_self") "_blank");
    simpl; repeat split; auto.
Qed.

(** X4. A block with at most four rows has no target row: when it gets an
    anchor, the anchor opens in the same browsing context, with target
    ["_self"] and no [rel]. *)
Theorem decorate_default_target
  w b rows desktopPicture mobilePicture linkElement href :
  wf w ->
  reads (Dom.children b) w rows ->
  length rows <= 4 ->
  reads (chain_ref (nth_error rows 0) (Dom.querySelector "picture")) w desktopPicture ->
  reads (chain_ref (nth_error rows 1) (Dom.querySelector "picture")) w mobilePicture ->
  (desktopPicture <> None \/ mobilePicture <> None) ->
  reads (chain_ref (nth_error rows 3) (Dom.querySelector "a")) w linkElement ->
  reads (chain linkElement (getUrl resolve "href")) w (Some href) ->
  Js.truthy href = true ->
  exists w' tg a ks l atts picture,
    Dom.lookup w b = Some (Elem b tg a ks)
    /\ decorate resolve b w = Ok (tt, w')
    /\ Dom.lookup w' b = Some (Elem b tg a [Elem l "a" atts [picture]])
    /\ attr_get "target" atts = Some "_self"
    /\ attr_get "rel" atts = None.
Proof.
  intros Hwf Hrows Hlen Hdp Hmp Hgate Hle Htest Ht.
  assert (Htarget : reads (chain (nth_error rows 4)
                      (fun r => s <- Dom.textContent r ;; ret (Js.trim s))) w None).
  { rewrite (proj2 (nth_error_None rows 4) Hlen). reflexivity. }
  assert (exists title, reads (chain linkElement (Dom.getString "title")) w title)
    as [title Htitle].
  { destruct linkElement as [l|]; [|now exists None].
    unfold reads, chain in Htest. unfold bind at 1 in Htest.
    unfold getUrl, Dom.element in Htest.
    unfold reads, chain. unfold bind at 1. unfold Dom.getString, Dom.element.
    destruct (Dom.lookup w l) as [[j tg' a' ks'|]|]; try discriminate.
    eexists. reflexivity. }
  destruct (decorate_fields w b rows _ _ _ _ _ _ Hwf Hrows Hdp Hmp Hgate
              Hle Htitle Htarget Htest)
    as (w' & tg & a & ks & kids & k & Hb & Hrun & Hlook).
  unfold block_child in Hlook. rewrite or_undef_empty, Ht in Hlook.
  eexists w', tg, a, ks, _, _, _.
  split; [exact Hb|]. split; [exact Hrun|]. split; [exact Hlook|].
  unfold link_atts. simpl Js.or_undef.
  destruct (Js.truthy (Js.or_undef title "")); simpl; auto.
Qed.

(** X7. A block with at most three rows has no link row: past the gate it
    never gets an anchor, its only child is the picture. *)
Theorem decorate_no_link_row w b rows desktopPicture mobilePicture :
  wf w ->
  reads (Dom.children b) w rows ->
  length rows <= 3 ->
  reads (chain_ref (nth_error rows 0) (Dom.querySelector "picture")) w desktopPicture ->
  reads (chain_ref (nth_error rows 1) (Dom.querySelector "picture")) w mobilePicture ->
  (desktopPicture <> None \/ mobilePicture <> None) ->
  exists w' tg a ks kids,
    Dom.lookup w b = Some (Elem b tg a ks)
    /\ decorate resolve b w = Ok (tt, w')
    /\ Dom.lookup w' b = Some (Elem b tg a [Elem (next w) "picture" [] kids]).
Proof.
  intros Hwf Hrows Hlen Hdp Hmp Hgate.
  assert (H3 : nth_error rows 3 = None) by (apply nth_error_None; lia).
  assert (H4 : nth_error rows 4 = None) by (apply nth_error_None; lia).
  destruct (decorate_fields w b rows _ _ None None None None Hwf Hrows Hdp Hmp Hgate)
    as (w' & tg & a & ks & kids & k & Hb & Hrun & Hlook);
    try (rewrite ?H3, ?H4; reflexivity).
  exists w', tg, a, ks, kids. repeat split; assumption.
Qed.

(** X6. A block without child elements (empty, or text only) gets the
    error text. *)
Theorem decorate_empty_block w b :
  wf w ->
  reads (Dom.children b) w [] ->
  exists w' tg a ks,
    Dom.lookup w b = Some (Elem b tg a ks)
    /\ decorate resolve b w = Ok (tt, w')
    /\ Dom.lookup w' b = Some (Elem b tg a [Text (next w) error_text]).
Proof.
  destruct w as [R n]. intros Hwf Hrows.
  destruct (children_block _ _ _ Hrows) as (tg & a & ks & Hb & Hnil). simpl in Hb.
  destruct (decorate_error_shape resolve R n b tg a ks Hwf Hb) as (w' & Hrun & Hl);
    try (rewrite <- Hnil; reflexivity).
  exists w', tg, a, ks. repeat split; assumption.
Qed.

(** X5. What [decorate] leaves alone.  Nothing that existed before the
    call is inside the block afterwards; every node that was below the
    block is still there under its reference, unchanged; each former child
    of the block is a tree of its own; and the trees that do not hold the
    block are as they were. *)
Theorem decorate_keeps_sources w b tg a ks :
  wf w ->
  Dom.lookup w b = Some (Elem b tg a ks) ->
  exists w' kids',
    decorate resolve b w = Ok (tt, w')
    /\ Dom.lookup w' b = Some (Elem b tg a kids')
    /\ (forall i, i < next w -> find_forest i kids' = None)
    /\ (forall i t, find_forest i ks = Some t -> Dom.lookup w' i = Some t)
    /\ (forall t, In t ks -> In t (roots w'))
    /\ (forall t, In t (roots w) -> find_node b t = None -> In t (roots w')).
Proof.
  destruct w as [R n]. intros Hwf Hb. unfold Dom.lookup in Hb. simpl in Hb.
  destruct (fields_total resolve R n b tg a ks Hwf Hb)
    as (dp & mp & alt & le & title & target & od & om & test &
        Hdp & Hmp & Halt & Hle & Htitle & Htarget & Hod & Hom & Htest).
  assert (Hgate : (dp = None /\ mp = None) \/ (dp <> None \/ mp <> None)).
  { destruct dp; [right; left; discriminate|].
    destruct mp; [right; right; discriminate | now left]. }
  destruct Hgate as [[-> ->]|Hgate].
  - destruct (frame_error R n b tg a ks Hwf Hb) as (F1 & F2 & F3).
    exists (World (update_forest b (set_kids [Text n error_text]) R ++ ks) (n + 1)),
      [Text n error_text].
    split; [exact (decorate_error_run resolve R n b tg a ks Hb None None le alt
                     title target Hdp Hmp Halt Hle Htitle Htarget eq_refl eq_refl)|].
    split.
    { unfold Dom.lookup. simpl roots. rewrite find_forest_app.
      rewrite (find_update_same b (set_kids [Text n error_text]))
        with (x := Elem b tg a ks); [reflexivity| |exact Hb].
      intros [] ?; assumption. }
    split; [|split; [exact F1 | split; [exact F2 | exact F3]]].
    intros i Hi. simpl in *. now nat_tests.
  - destruct (decorate_exact R n b tg a ks dp mp alt od om Hwf Hb Hdp Hmp Halt
                Hod Hom Hgate)
      as (le' & title' & target' & test' & kids & k & w' & _ & _ & _ & _ &
          Hrun & _ & _ & Hlook & Hchild & F1 & F2 & F3).
    exists w', [block_child n title' target' k test' kids].
    split; [exact Hrun|]. split; [exact Hlook|].
    split; [|split; [exact F1 | split; [exact F2 | exact F3]]].
    intros i Hi. rewrite find_forest_cons. simpl in Hi. now rewrite (Hchild i Hi).
Qed.

(** X8. The copy made when one image is used directly keeps what the
    image had: every attribute other than [alt] and [loading] (so [src] as
    authored, [width], [height], ...) and a copy of each child. *)
Theorem builder_copy_keeps_attributes
  w desktopPicture mobilePicture alt desktopImg mobileImg :
  wf w ->
  reads (chain_ref desktopPicture (Dom.querySelector "img")) w desktopImg ->
  reads (chain_ref mobilePicture (Dom.querySelector "img")) w mobileImg ->
  single_source resolve w desktopImg mobileImg ->
  exists w' fb orig img,
    createResponsivePicture resolve desktopPicture mobilePicture alt w
      = Ok (next w, w')
    /\ Js.or_ref desktopImg mobileImg = Some fb
    /\ Dom.lookup w fb = Some orig
    /\ Dom.lookup w' (next w) = Some (Elem (next w) "picture" [] [img])
    /\ (forall k, k <> "alt" -> k <> "loading" ->
          attr_get k (atts_of img) = attr_get k (atts_of orig))
    /\ kids_of img = map (shift_node (S (next w))) (kids_of orig).
Proof.
  destruct w as [R n]. intros Hwf Hd Hm Hs.
  assert (exists fb, Js.or_ref desktopImg mobileImg = Some fb) as [fb Hor].
  { destruct desktopImg, mobileImg; simpl in *; eauto. contradiction. }
  assert (exists a ks, find_forest fb R = Some (Elem fb "img" a ks)) as (a & ks & Hfb).
  { destruct desktopImg as [d|]; simpl in Hor.
    - injection Hor as <-. exact (wf_query _ _ _ _ _ Hwf Hd).
    - subst mobileImg. exact (wf_query _ _ _ _ _ Hwf Hm). }
  pose proof (single_source_nodes resolve R n _ _ Hwf _ _ Hd Hm Hs) as Hsame.
  destruct Hwf as [HR _]. simpl in HR.
  pose proof (builder_single resolve R n HR _ _ alt _ _ Hd Hm fb _
                Hor Hfb eq_refl Hsame) as Hrun.
  eexists _, fb, _, _. split; [exact Hrun|].
  split; [exact Hor|]. split; [exact Hfb|]. split.
  { simpl next. simpl roots.
    change (find_forest n (R ++ [?c]))
      with (Dom.lookup (World (R ++ [c]) (S n + S n)) n).
    rewrite (lookup_fresh _ _ HR) by lia. simpl. nat_tests. reflexivity. }
  split; [|reflexivity].
  intros k Ha Hl. unfold single_kid. simpl.
  now rewrite !attr_get_set_other by assumption.
Qed.

(** X9. The Link Wrapper moves the picture, it does not copy it: after the
    call the reference still names the same, unchanged node, which is the
    anchor's only child and is found nowhere else; the anchor is a new
    tree of its own, and the trees that did not hold the picture are as
    they were. *)
Theorem link_moves_picture w href title target picture pn :
  wf w ->
  Dom.lookup w picture = Some pn ->
  exists w' rest anchor,
    createLink href title target picture w = Ok (id_of anchor, w')
    /\ roots w' = rest ++ [anchor]
    /\ kids_of anchor = [pn]
    /\ find_forest picture rest = None
    /\ Dom.lookup w' picture = Some pn
    /\ (forall t, In t (roots w) -> find_node picture t = None -> In t rest).
Proof.
  destruct w as [R n]. intros [HR _] Hp. simpl in HR.
  unfold Dom.lookup in Hp. simpl in Hp.
  destruct (old_id _ _ HR _ _ Hp) as [Hid Hlt].
  exists (World (remove_forest picture R
                 ++ [Elem n "a" (link_atts href title target) [pn]]) (S n)),
    (remove_forest picture R), (Elem n "a" (link_atts href title target) [pn]).
  split; [exact (createLink_run R n href title target picture pn HR Hp)|].
  split; [reflexivity|]. split; [reflexivity|].
  split; [apply removed_none_both|]. split.
  - unfold Dom.lookup. simpl roots. rewrite find_forest_app.
    rewrite (proj2 (removed_none_both picture)).
    rewrite find_forest_cons, find_node_elem. nat_tests.
    rewrite find_forest_cons.
    destruct pn; simpl in Hid |- *; subst; now rewrite Nat.eqb_refl.
  - intros t Hin Hf. now apply remove_keeps_tree.
Qed.

(** X10. [decorate] hands back a well-formed store: after the call every
    node still has one place and one identity and [next] is above all of
    them, so that each property above holds again for the next call on the
    same document. *)
Theorem decorate_keeps_wf w b tg a ks :
  wf w ->
  Dom.lookup w b = Some (Elem b tg a ks) ->
  exists w',
    decorate resolve b w = Ok (tt, w')
    /\ wf w'
    /\ next w < next w'.
Proof.
  destruct w as [R n]. intros Hwf Hb. unfold Dom.lookup in Hb. simpl in Hb.
  destruct (fields_total resolve R n b tg a ks Hwf Hb)
    as (dp & mp & alt & le & title & target & od & om & test &
        Hdp & Hmp & Halt & Hle & Htitle & Htarget & Hod & Hom & Htest).
  assert (Hgate : (dp = None /\ mp = None) \/ (dp <> None \/ mp <> None)).
  { destruct dp; [right; left; discriminate|].
    destruct mp; [right; right; discriminate | now left]. }
  destruct Hgate as [[-> ->]|Hgate].
  - eexists. split; [|split].
    + exact (decorate_error_run resolve R n b tg a ks Hb None None le alt
               title target Hdp Hmp Halt Hle Htitle Htarget eq_refl eq_refl).
    + exact (decorate_error_wf R n b tg a ks Hwf Hb).
    + simpl. lia.
  - destruct (decorate_render_wf resolve R n b tg a ks Hwf Hb dp mp le alt title target
                Hdp Hmp Halt Hle Htitle Htarget od om test Hgate Hod Hom Htest)
      as (kids & k & k' & Hrun & _ & Hlt & Hwf').
    eexists. split; [exact Hrun|]. split; [exact Hwf' | exact Hlt].
Qed.

(** X11. [decorate] is not to be run twice: on a block that the first run
    left with the bare picture (no anchor), a second run finds no picture
    below a row and replaces the picture by the error text.  The images
    are taken to have no children, as [img] elements have none. *)
Theorem decorate_twice w b rows desktopPicture mobilePicture linkElement test :
  wf w ->
  reads (Dom.children b) w rows ->
  reads (chain_ref (nth_error rows 0) (Dom.querySelector "picture")) w desktopPicture ->
  reads (chain_ref (nth_error rows 1) (Dom.querySelector "picture")) w mobilePicture ->
  (desktopPicture <> None \/ mobilePicture <> None) ->
  reads (chain_ref (nth_error rows 3) (Dom.querySelector "a")) w linkElement ->
  reads (chain linkElement (getUrl resolve "href")) w test ->
  Js.truthy (Js.or_undef test "") = false ->
  (forall i t, Dom.lookup w i = Some t -> tag_of t = Some "img" -> kids_of t = []) ->
  exists w1 w2 tg a ks picture,
    Dom.lookup w b = Some (Elem b tg a ks)
    /\ decorate resolve b w = Ok (tt, w1)
    /\ Dom.lookup w1 b = Some (Elem b tg a [picture])
    /\ tag_of picture = Some "picture"
    /\ decorate resolve b w1 = Ok (tt, w2)
    /\ Dom.lookup w2 b = Some (Elem b tg a [Text (next w1) error_text]).
Proof.
  destruct w as [R n]. intros Hwf Hrows Hdp Hmp Hgate Hle Htest Ht Hvoid.
  destruct (children_block _ _ _ Hrows) as (tg & a & ks & Hb & ->). simpl in Hb.
  destruct (fields_total resolve R n b tg a ks Hwf Hb)
    as (dp' & mp' & alt & le' & title & target & od & om & test' &
        Hdp' & Hmp' & Halt & Hle' & Htitle & Htarget & Hod & Hom & Htest').
  pose proof (reads_fun _ _ _ _ Hdp' Hdp) as ->.
  pose proof (reads_fun _ _ _ _ Hmp' Hmp) as ->.
  pose proof (reads_fun _ _ _ _ Hle' Hle) as ->.
  pose proof (reads_fun _ _ _ _ Htest' Htest) as ->.
  destruct (decorate_render_wf resolve R n b tg a ks Hwf Hb _ _ _ alt title target
              Hdp Hmp Halt Hle Htitle Htarget od om test Hgate Hod Hom Htest)
    as (kids & k & k' & Hrun & Hkids & Hlt & Hwf1).
  unfold block_child in Hrun, Hwf1. rewrite Ht in Hrun, Hwf1.
  set (pic := Elem n "picture" [] kids) in *.
  set (R' := update_forest b (set_kids [pic]) R ++ ks) in *.
  assert (Hb1 : find_forest b R' = Some (Elem b tg a [pic])).
  { unfold R'. rewrite find_forest_app.
    rewrite (find_update_same b (set_kids [pic])) with (x := Elem b tg a ks);
      [reflexivity| |exact Hb].
    intros [] ?; assumption. }
  assert (Hpic : find_forest n R' = Some pic).
  { apply (proj2 (descend_both b n) R' _ _
             (distinct_NoDup _ (proj2 Hwf1)) Hb1).
    change (find_forest n [pic] = Some pic).
    rewrite find_forest_cons. unfold pic. rewrite find_node_elem.
    now rewrite Nat.eqb_refl. }
  assert (Hnone : query_forest "picture" kids = None).
  { rewrite Hkids.
    destruct (row_img_node R n b tg a ks Hwf Hb 0 _ _ Hdp Hod) as [-> Hdn].
    destruct (row_img_node R n b tg a ks Hwf Hb 1 _ _ Hmp Hom) as [-> Hmn].
    apply built_kids_no_picture.
    - intros t Ho. destruct od as [d|]; [|discriminate]. simpl in Ho.
      destruct (Hdn d eq_refl) as (a2 & ks2 & Hd).
      rewrite Hd in Ho. injection Ho as <-. split; [reflexivity|].
      now rewrite (Hvoid d _ Hd eq_refl).
    - intros t Ho. destruct om as [m|]; [|discriminate]. simpl in Ho.
      destruct (Hmn m eq_refl) as (a2 & ks2 & Hm).
      rewrite Hm in Ho. injection Ho as <-. split; [reflexivity|].
      now rewrite (Hvoid m _ Hm eq_refl). }
  destruct (decorate_error_shape resolve R' k' b tg a [pic] Hwf1 Hb1)
    as (w2 & Hrun2 & Hlook2).
  - unfold reads, rows_of. simpl. unfold Dom.querySelector, Dom.element, Dom.lookup.
    simpl roots. rewrite Hpic. unfold pic. now rewrite Hnone.
  - reflexivity.
  - exists (World R' k'), w2, tg, a, ks, pic.
    split; [exact Hb|]. split; [exact Hrun|]. split; [exact Hb1|].
    split; [reflexivity|]. split; [exact Hrun2 | exact Hlook2].
Qed.

(** X12. The two helpers in a row: the Link Wrapper applied to what the
    Picture Builder returns gives an anchor whose only child is the picture
    just built, with the children the builder gave it. *)
Theorem link_wraps_built_picture
  w desktopPicture mobilePicture alt desktopImg mobileImg href title target :
  wf w ->
  reads (chain_ref desktopPicture (Dom.querySelector "img")) w desktopImg ->
  reads (chain_ref mobilePicture (Dom.querySelector "img")) w mobileImg ->
  exists picture w1 link w2 kids,
    createResponsivePicture resolve desktopPicture mobilePicture alt w
      = Ok (picture, w1)
    /\ Dom.lookup w1 picture = Some (Elem picture "picture" [] kids)
    /\ createLink href title target picture w1 = Ok (link, w2)
    /\ Dom.lookup w2 link =
         Some (Elem link "a" (link_atts href title target)
                 [Elem picture "picture" [] kids])
    /\ roots w2 = roots w ++ [Elem link "a" (link_atts href title target)
                                [Elem picture "picture" [] kids]].
Proof.
  destruct w as [R n]. intros Hwf Hd Hm.
  destruct (builder_total resolve R n desktopPicture mobilePicture alt
              desktopImg mobileImg (proj1 Hwf) Hd Hm)
    as (kids & k & Hrun & Hk & Hbk & _ & _).
  - intros d ->. destruct (wf_query _ _ _ _ _ Hwf Hd) as (da & dks & Hdn). eauto.
  - intros m ->. destruct (wf_query _ _ _ _ _ Hwf Hm) as (ma & mks & Hmn). eauto.
  - destruct Hwf as [HR _]. simpl in HR.
    set (pic := Elem n "picture" [] kids) in *.
    assert (Hfp : find_forest n (R ++ [pic]) = Some pic)
      by exact (lookup_new R n pic HR (le_n n)).
    assert (HR2 : bounded k (R ++ [pic]) = true).
    { rewrite bounded_app, bounded_cons. unfold pic. rewrite below_elem, Hbk.
      nat_tests. simpl. rewrite andb_true_r.
      exact (proj2 (below_mono_both n k ltac:(lia)) _ HR). }
    pose proof (createLink_run (R ++ [pic]) k href title target n pic HR2 Hfp) as Hl.
    rewrite remove_forest_app, (bounded_remove n n (le_n n) _ HR) in Hl.
    rewrite remove_forest_cons in Hl. unfold pic at 1 in Hl. simpl id_of in Hl.
    rewrite Nat.eqb_refl in Hl. simpl remove_forest in Hl. rewrite app_nil_r in Hl.
    eexists n, _, k, _, kids.
    split; [exact Hrun|]. split; [exact Hfp|]. split; [exact Hl|].
    split; [|reflexivity].
    unfold Dom.lookup. simpl roots. rewrite find_forest_app.
    rewrite (bounded_find n k ltac:(lia) _ HR).
    rewrite find_forest_cons, find_node_elem. now rewrite Nat.eqb_refl.
Qed.

End EndToEnd.

(** ** The scenarios of the specification *)

Example trim_alt : Js.trim " A cat " = "A cat".
Proof. reflexivity. Qed.

(** White space beyond ASCII goes as well: U+3000 on both sides. *)
Example trim_ideographic_space :
  Js.trim (Scenario.text_of [227; 128; 128; 65; 227; 128; 128]) = "A".
Proof. reflexivity. Qed.

(** The last byte of U+3060 is the last byte of U+00A0 too, and it stays. *)
Example trim_keeps_character :
  Js.trim (Scenario.text_of [65; 227; 129; 160]) = Scenario.text_of [65; 227; 129; 160].
Proof. reflexivity. Qed.

(** U+0085 and U+200B are no white space for [trim]. *)
Example trim_keeps_other_marks :
  Js.trim (Scenario.text_of [194; 133; 65; 226; 128; 139])
  = Scenario.text_of [194; 133; 65; 226; 128; 139].
Proof. reflexivity. Qed.

Example trim_white_only :
  Js.trim (Scenario.text_of [32; 227; 128; 128; 226; 128; 131; 9; 239; 187; 191]) = "".
Proof. reflexivity. Qed.

Example scenario_A :
  Scenario.decorated Scenario.blockA 0 =
    Some (Elem 0 "div" [("class", "image-link")]
            [Elem 23 "a"
               [("href", "https://site/x"); ("target", "_blank"); ("title", "Go");
                ("rel", "noopener noreferrer")]
               [Elem 19 "picture" []
                  [ Elem 20 "source"
                      [("media", "(max-width: 767px)");
                       ("srcset", "https://site/m.png")] [];
                    Elem 21 "source"
                      [("media", "(min-width: 768px)");
                       ("srcset", "https://site/d.png")] [];
                    Elem 22 "img"
                      [("src", "https://site/d.png"); ("alt", "A cat");
                       ("loading", "lazy")] [] ]]]).
Proof. reflexivity. Qed.

Example scenario_B :
  Scenario.decorated Scenario.blockB 0 =
    Some (Elem 0 "div" []
            [Elem 7 "picture" []
               [Elem 14 "img"
                  [("src", "m.png"); ("alt", "Mobile"); ("loading", "lazy")] []]]).
Proof. reflexivity. Qed.

Example scenario_C :
  Scenario.decorated Scenario.blockC 0 =
    Some (Elem 0 "div" [] [Text 8 error_text]).
Proof. reflexivity. Qed.

(** ** The properties on the scenarios *)

Lemma builder_two_sources_scenario :
  exists w',
    createResponsivePicture Scenario.base (Some 3) (Some 7) (Some "A cat")
      Scenario.blockA = Ok (19, w')
    /\ Dom.lookup w' 19 =
         Some (Elem 19 "picture" []
                 [ Elem 20 "source"
                     [("media", "(max-width: 767px)");
                      ("srcset", "https://site/m.png")] [];
                   Elem 21 "source"
                     [("media", "(min-width: 768px)");
                      ("srcset", "https://site/d.png")] [];
                   Elem 22 "img"
                     [("src", "https://site/d.png"); ("alt", "A cat");
                      ("loading", "lazy")] [] ]).
Proof.
  apply (builder_two_sources Scenario.base Scenario.blockA (Some 3) (Some 7)
           (Some "A cat") 4 8).
  - split; reflexivity.
  - reflexivity.
  - reflexivity.
  - vm_compute. discriminate.
Defined.

Lemma builder_one_image_scenario :
  exists w' fb orig img,
    createResponsivePicture Scenario.base None (Some 7) None Scenario.blockA
      = Ok (19, w')
    /\ Js.or_ref None (Some 8) = Some fb
    /\ Dom.lookup Scenario.blockA fb = Some orig
    /\ tag_of orig = Some "img"
    /\ Dom.lookup w' 19 = Some (Elem 19 "picture" [] [img])
    /\ img = set_att "loading" "lazy"
               (set_att "alt" (chosen_alt None (str_att "alt" orig))
                  (shift_node 20 orig))
    /\ tag_of img = Some "img"
    /\ attr_get "alt" (atts_of img) = Some (chosen_alt None (str_att "alt" orig))
    /\ attr_get "loading" (atts_of img) = Some "lazy".
Proof.
  apply (builder_one_image Scenario.base Scenario.blockA None (Some 7) None
           None (Some 8)).
  - split; reflexivity.
  - reflexivity.
  - reflexivity.
  - exact I.
Defined.

Lemma builder_no_image_scenario :
  exists w',
    createResponsivePicture Scenario.base (Some 3) None (Some "x") Scenario.blockE
      = Ok (4, w')
    /\ Dom.lookup w' 4 = Some (Elem 4 "picture" [] [])
    /\ roots w' = roots Scenario.blockE ++ [Elem 4 "picture" [] []].
Proof.
  apply (builder_no_image Scenario.base Scenario.blockE (Some 3) None (Some "x")).
  - split; reflexivity.
  - reflexivity.
  - reflexivity.
Defined.

Lemma builder_frame_scenario :
  exists w' picture,
    createResponsivePicture Scenario.base (Some 3) (Some 7) None Scenario.blockA
      = Ok (id_of picture, w')
    /\ roots w' = roots Scenario.blockA ++ [picture]
    /\ id_of picture = 19
    /\ forall i t, Dom.lookup Scenario.blockA i = Some t -> Dom.lookup w' i = Some t.
Proof.
  apply (builder_frame Scenario.base Scenario.blockA (Some 3) (Some 7) None
           (Some 4) (Some 8)).
  - split; reflexivity.
  - reflexivity.
  - reflexivity.
Defined.

Lemma link_rel_scenario :
  exists w' atts kids,
    createLink "https://site/x" "Go" "_blank" 3 Scenario.blockA = Ok (19, w')
    /\ Dom.lookup w' 19 = Some (Elem 19 "a" atts kids)
    /\ (attr_get "rel" atts = Some "noopener noreferrer" <-> "_blank" = "_blank")
    /\ ("_blank" <> "_blank" -> attr_get "rel" atts = None).
Proof.
  apply (link_rel_iff_blank Scenario.blockA "https://site/x" "Go" "_blank" 3
           (Scenario.pic 3 "d.png" "Dog")).
  - split; reflexivity.
  - reflexivity.
Defined.

Lemma link_attributes_scenario :
  exists w' atts,
    createLink "https://site/x" "" "_self" 3 Scenario.blockA = Ok (19, w')
    /\ Dom.lookup w' 19 = Some (Elem 19 "a" atts [Scenario.pic 3 "d.png" "Dog"])
    /\ attr_get "href" atts = Some "https://site/x"
    /\ attr_get "target" atts = Some "_self"
    /\ attr_get "title" atts = None.
Proof.
  apply (link_attributes Scenario.blockA "https://site/x" "" "_self" 3
           (Scenario.pic 3 "d.png" "Dog")).
  - split; reflexivity.
  - reflexivity.
Defined.

Lemma decorate_missing_image_scenario :
  exists w' tg a ks,
    Dom.lookup Scenario.blockC 0 = Some (Elem 0 tg a ks)
    /\ decorate Scenario.base 0 Scenario.blockC = Ok (tt, w')
    /\ Dom.lookup w' 0 = Some (Elem 0 tg a [Text 8 error_text])
    /\ text_node (Elem 0 tg a [Text 8 error_text]) = error_text
    /\ query_forest "img" [Text 8 error_text] = None
    /\ query_forest "picture" [Text 8 error_text] = None
    /\ query_forest "a" [Text 8 error_text] = None.
Proof.
  apply (decorate_missing_image Scenario.base Scenario.blockC 0 [1; 3; 5]).
  - split; reflexivity.
  - reflexivity.
  - reflexivity.
  - reflexivity.
Defined.

Lemma decorate_wraps_href_url_scenario :
  exists w' tg a ks child,
    Dom.lookup Scenario.blockG 0 = Some (Elem 0 tg a ks)
    /\ decorate Scenario.base 0 Scenario.blockG = Ok (tt, w')
    /\ Dom.lookup w' 0 = Some (Elem 0 tg a [child])
    /\ ((exists l la lks v,
           Some 11 = Some l
           /\ Dom.lookup Scenario.blockG l = Some (Elem l "a" la lks)
           /\ attr_get "href" la = Some v
           /\ Scenario.base v <> "")
        <-> tag_of child = Some "a")
    /\ (tag_of child = Some "a" ->
          exists picture l,
            kids_of child = [picture]
            /\ tag_of picture = Some "picture"
            /\ Some 11 = Some l
            /\ attr_get "href" (atts_of child)
               = Some (url_prop Scenario.base Scenario.blockG "href" l))
    /\ (tag_of child <> Some "a" -> tag_of child = Some "picture").
Proof.
  apply (decorate_wraps_iff_href_url Scenario.base Scenario.blockG 0 [1; 5; 7; 9]
           (Some 3) None (Some 11)).
  - split; reflexivity.
  - reflexivity.
  - reflexivity.
  - reflexivity.
  - reflexivity.
  - left. discriminate.
Defined.

(** The anchor of [blockG] has an empty [href] attribute, and the block
    still gets an anchor, whose [href] is the address of the document. *)
Example scenario_G :
  Scenario.decorated Scenario.blockG 0 =
    Some (Elem 0 "div" []
            [Elem 28 "a" [("href", "https://site/"); ("target", "_self")]
               [Elem 13 "picture" []
                  [Elem 18 "img"
                     [("src", "d.png"); ("alt", "Dog"); ("loading", "lazy")] []]]]).
Proof. reflexivity. Qed.

(** Without [href] attribute the picture is not wrapped. *)
Example scenario_J :
  Scenario.decorated Scenario.blockJ 0 =
    Some (Elem 0 "div" []
            [Elem 13 "picture" []
               [Elem 18 "img"
                  [("src", "d.png"); ("alt", "Dog"); ("loading", "lazy")] []]]).
Proof. reflexivity. Qed.

(** The white space beyond ASCII around the alt text and the target of
    [blockH] is gone in what the block holds. *)
Example scenario_H :
  Scenario.decorated Scenario.blockH 0 = Scenario.decorated Scenario.blockA 0.
Proof. reflexivity. Qed.

(** An alt row of white space only leaves the image its own alt text. *)
Example scenario_I :
  Scenario.decorated Scenario.blockI 0 =
    Some (Elem 0 "div" []
            [Elem 10 "picture" []
               [Elem 15 "img"
                  [("src", "d.png"); ("alt", "Dog"); ("loading", "lazy")] []]]).
Proof. reflexivity. Qed.

(** C5 as the specification words it does not hold: an anchor with an
    empty [href] attribute is wrapped all the same, because the [href]
    property the script tests is the resolved URL. *)
Lemma empty_href_attribute_wrapped : ~ wraps_iff_href_attribute Scenario.base.
Proof.
  intro H.
  set (w' := match decorate Scenario.base 0 Scenario.blockG with
             | Ok (_, x) => x
             | Throw _ => Scenario.blockG
             end).
  set (child := Elem 28 "a" [("href", "https://site/"); ("target", "_self")]
                  [Elem 13 "picture" []
                     [Elem 18 "img"
                        [("src", "d.png"); ("alt", "Dog"); ("loading", "lazy")] []]]).
  assert (Hrun : decorate Scenario.base 0 Scenario.blockG = Ok (tt, w'))
    by (vm_compute; reflexivity).
  assert (Hlook : Dom.lookup w' 0 = Some (Elem 0 "div" [] [child]))
    by (vm_compute; reflexivity).
  assert (Hwf : wf Scenario.blockG) by (split; reflexivity).
  assert (Hrows : reads (Dom.children 0) Scenario.blockG [1; 5; 7; 9])
    by reflexivity.
  assert (Hdp : reads (chain_ref (nth_error [1; 5; 7; 9] 0) (Dom.querySelector "picture"))
                  Scenario.blockG (Some 3)) by reflexivity.
  assert (Hmp : reads (chain_ref (nth_error [1; 5; 7; 9] 1) (Dom.querySelector "picture"))
                  Scenario.blockG None) by reflexivity.
  assert (Hle : reads (chain_ref (nth_error [1; 5; 7; 9] 3) (Dom.querySelector "a"))
                  Scenario.blockG (Some 11)) by reflexivity.
  assert (Hgate : Some 3 <> None \/ @None nid <> None) by (left; discriminate).
  assert (Htag : tag_of child = Some "a") by reflexivity.
  pose proof (H _ _ _ _ _ _ _ _ _ _ Hwf Hrows Hdp Hmp Hle Hgate Hrun Hlook) as Hiff.
  destruct (proj1 Hiff Htag) as (l & t & v & [= <-] & Hl & Hv & Hne).
  vm_compute in Hl. injection Hl as <-. simpl in Hv. injection Hv as <-.
  now apply Hne.
Qed.

Lemma decorate_total_scenario :
  exists w' kids',
    decorate Scenario.base 0 Scenario.blockA = Ok (tt, w')
    /\ Dom.lookup w' 0 = Some (Elem 0 "div" [("class", "image-link")] kids')
    /\ (kids' = [Text 19 error_text]
        \/ (exists p pk, kids' = [Elem p "picture" [] pk])
        \/ (exists l la p pk, kids' = [Elem l "a" la [Elem p "picture" [] pk]])).
Proof.
  apply (decorate_total Scenario.base Scenario.blockA 0 "div"
           [("class", "image-link")] Scenario.rowsA).
  - split; reflexivity.
  - reflexivity.
Defined.

Lemma decorate_empty_picture_scenario :
  exists w' tg a ks child,
    Dom.lookup Scenario.blockE 0 = Some (Elem 0 tg a ks)
    /\ decorate Scenario.base 0 Scenario.blockE = Ok (tt, w')
    /\ Dom.lookup w' 0 = Some (Elem 0 tg a [child])
    /\ (child = Elem 4 "picture" [] []
        \/ exists l la, child = Elem l "a" la [Elem 4 "picture" [] []])
    /\ query_forest "picture" [child] <> None
    /\ query_forest "img" [child] = None
    /\ text_node child = "".
Proof.
  apply (decorate_empty_picture Scenario.base Scenario.blockE 0 [1] (Some 3) None).
  - split; reflexivity.
  - reflexivity.
  - reflexivity.
  - reflexivity.
  - left. discriminate.
  - reflexivity.
  - reflexivity.
Defined.

(** ** The end-to-end properties on the scenarios *)

Lemma decorate_two_images_scenario :
  exists w' tg a ks child picture alt,
    Dom.lookup Scenario.blockH 0 = Some (Elem 0 tg a ks)
    /\ decorate Scenario.base 0 Scenario.blockH = Ok (tt, w')
    /\ Dom.lookup w' 0 = Some (Elem 0 tg a [child])
    /\ (child = picture \/ exists l la, child = Elem l "a" la [picture])
    /\ alt = Some "A cat"
    /\ trimmed_text
         (Some (String.append (Scenario.text_of [227; 128; 128])
                  (String.append "A cat" (Scenario.text_of [194; 160; 10])))) alt
    /\ picture =
         Elem 19 "picture" []
           [ Elem 20 "source"
               [("media", "(max-width: 767px)");
                ("srcset", url_prop Scenario.base Scenario.blockH "src" 8)] [];
             Elem 21 "source"
               [("media", "(min-width: 768px)");
                ("srcset", url_prop Scenario.base Scenario.blockH "src" 4)] [];
             Elem 22 "img"
               [("src", url_prop Scenario.base Scenario.blockH "src" 4);
                ("alt", chosen_alt alt (str_prop Scenario.blockH "alt" 4));
                ("loading", "lazy")] [] ].
Proof.
  apply (decorate_two_images Scenario.base Scenario.blockH 0 [1; 5; 9; 12; 16]
           (Some 3) (Some 7)
           (Some (String.append (Scenario.text_of [227; 128; 128])
                    (String.append "A cat" (Scenario.text_of [194; 160; 10])))) 4 8).
  - split; reflexivity.
  - reflexivity.
  - reflexivity.
  - reflexivity.
  - reflexivity.
  - reflexivity.
  - reflexivity.
  - vm_compute. discriminate.
Defined.

Lemma decorate_one_image_scenario :
  exists w' tg a ks child fb orig img alt,
    Dom.lookup Scenario.blockI 0 = Some (Elem 0 tg a ks)
    /\ decorate Scenario.base 0 Scenario.blockI = Ok (tt, w')
    /\ Dom.lookup w' 0 = Some (Elem 0 tg a [child])
    /\ (child = Elem 10 "picture" [] [img]
        \/ exists l la, child = Elem l "a" la [Elem 10 "picture" [] [img]])
    /\ Js.or_ref (Some 4) None = Some fb
    /\ Dom.lookup Scenario.blockI fb = Some orig
    /\ alt = Some ""
    /\ trimmed_text
         (Some (Scenario.text_of [32; 227; 128; 128; 226; 128; 131])) alt
    /\ img = set_att "loading" "lazy"
               (set_att "alt" (chosen_alt alt (str_att "alt" orig))
                  (shift_node 11 orig))
    /\ tag_of img = Some "img".
Proof.
  apply (decorate_one_image Scenario.base Scenario.blockI 0 [1; 5; 7]
           (Some 3) None
           (Some (Scenario.text_of [32; 227; 128; 128; 226; 128; 131]))
           (Some 4) None).
  - split; reflexivity.
  - reflexivity.
  - reflexivity.
  - reflexivity.
  - reflexivity.
  - reflexivity.
  - reflexivity.
  - exact I.
Defined.

Lemma decorate_link_attributes_scenario :
  exists w' tg a ks l atts picture target,
    Dom.lookup Scenario.blockH 0 = Some (Elem 0 tg a ks)
    /\ decorate Scenario.base 0 Scenario.blockH = Ok (tt, w')
    /\ Dom.lookup w' 0 = Some (Elem 0 tg a [Elem l "a" atts [picture]])
    /\ tag_of picture = Some "picture"
    /\ attr_get "href" atts = Some "https://site/x"
    /\ target = Some "_blank"
    /\ trimmed_text
         (Some (String.append (Scenario.text_of [239; 187; 191])
                  (String.append "_blank" (Scenario.text_of [226; 128; 168])))) target
    /\ attr_get "target" atts = Some (Js.or_undef target "_self")
    /\ attr_get "title" atts =
         (if Js.truthy (Js.or_undef (Some "Go") "")
          then Some (Js.or_undef (Some "Go") "") else None)
    /\ attr_get "rel" atts =
         (if String.eqb (Js.or_undef target "_self") "_blank"
          then Some "noopener noreferrer" else None).
Proof.
  apply (decorate_link_attributes Scenario.base Scenario.blockH 0 [1; 5; 9; 12; 16]
           (Some 3) (Some 7) (Some 14) (Some "Go")
           (Some (String.append (Scenario.text_of [239; 187; 191])
                    (String.append "_blank" (Scenario.text_of [226; 128; 168]))))
           "https://site/x").
  - split; reflexivity.
  - reflexivity.
  - reflexivity.
  - reflexivity.
  - left. discriminate.
  - reflexivity.
  - reflexivity.
  - reflexivity.
  - reflexivity.
  - reflexivity.
Defined.

Lemma decorate_default_target_scenario :
  exists w' tg a ks l atts picture,
    Dom.lookup Scenario.blockD 0 = Some (Elem 0 tg a ks)
    /\ decorate Scenario.base 0 Scenario.blockD = Ok (tt, w')
    /\ Dom.lookup w' 0 = Some (Elem 0 tg a [Elem l "a" atts [picture]])
    /\ attr_get "target" atts = Some "_self"
    /\ attr_get "rel" atts = None.
Proof.
  apply (decorate_default_target Scenario.base Scenario.blockD 0 [1; 5; 7; 10]
           (Some 3) None (Some 12) "https://site/x").
  - split; reflexivity.
  - reflexivity.
  - simpl. lia.
  - reflexivity.
  - reflexivity.
  - left. discriminate.
  - reflexivity.
  - reflexivity.
  - reflexivity.
Defined.

Lemma decorate_keeps_sources_scenario :
  exists w' kids',
    decorate Scenario.base 0 Scenario.blockA = Ok (tt, w')
    /\ Dom.lookup w' 0 = Some (Elem 0 "div" [("class", "image-link")] kids')
    /\ (forall i, i < 19 -> find_forest i kids' = None)
    /\ (forall i t, find_forest i Scenario.rowsA = Some t -> Dom.lookup w' i = Some t)
    /\ (forall t, In t Scenario.rowsA -> In t (roots w'))
    /\ (forall t, In t (roots Scenario.blockA) -> find_node 0 t = None ->
          In t (roots w')).
Proof.
  apply (decorate_keeps_sources Scenario.base Scenario.blockA 0 "div"
           [("class", "image-link")] Scenario.rowsA).
  - split; reflexivity.
  - reflexivity.
Defined.

Lemma decorate_empty_block_scenario :
  exists w' tg a ks,
    Dom.lookup Scenario.blockF 0 = Some (Elem 0 tg a ks)
    /\ decorate Scenario.base 0 Scenario.blockF = Ok (tt, w')
    /\ Dom.lookup w' 0 = Some (Elem 0 tg a [Text 2 error_text]).
Proof.
  apply (decorate_empty_block Scenario.base Scenario.blockF 0).
  - split; reflexivity.
  - reflexivity.
Defined.

Lemma decorate_no_link_row_scenario :
  exists w' tg a ks kids,
    Dom.lookup Scenario.blockB 0 = Some (Elem 0 tg a ks)
    /\ decorate Scenario.base 0 Scenario.blockB = Ok (tt, w')
    /\ Dom.lookup w' 0 = Some (Elem 0 tg a [Elem 7 "picture" [] kids]).
Proof.
  apply (decorate_no_link_row Scenario.base Scenario.blockB 0 [1; 3] None (Some 5)).
  - split; reflexivity.
  - reflexivity.
  - simpl. lia.
  - reflexivity.
  - reflexivity.
  - right. discriminate.
Defined.

Lemma builder_copy_keeps_attributes_scenario :
  exists w' fb orig img,
    createResponsivePicture Scenario.base None (Some 7) None Scenario.blockA
      = Ok (19, w')
    /\ Js.or_ref None (Some 8) = Some fb
    /\ Dom.lookup Scenario.blockA fb = Some orig
    /\ Dom.lookup w' 19 = Some (Elem 19 "picture" [] [img])
    /\ (forall k, k <> "alt" -> k <> "loading" ->
          attr_get k (atts_of img) = attr_get k (atts_of orig))
    /\ kids_of img = map (shift_node 20) (kids_of orig).
Proof.
  apply (builder_copy_keeps_attributes Scenario.base Scenario.blockA None (Some 7)
           None None (Some 8)).
  - split; reflexivity.
  - reflexivity.
  - reflexivity.
  - exact I.
Defined.

Lemma link_moves_picture_scenario :
  exists w' rest anchor,
    createLink "https://site/x" "Go" "_blank" 3 Scenario.blockA = Ok (id_of anchor, w')
    /\ roots w' = rest ++ [anchor]
    /\ kids_of anchor = [Scenario.pic 3 "d.png" "Dog"]
    /\ find_forest 3 rest = None
    /\ Dom.lookup w' 3 = Some (Scenario.pic 3 "d.png" "Dog")
    /\ (forall t, In t (roots Scenario.blockA) -> find_node 3 t = None -> In t rest).
Proof.
  apply (link_moves_picture Scenario.blockA "https://site/x" "Go" "_blank" 3
           (Scenario.pic 3 "d.png" "Dog")).
  - split; reflexivity.
  - reflexivity.
Defined.

Lemma decorate_keeps_wf_scenario :
  exists w',
    decorate Scenario.base 0 Scenario.blockA = Ok (tt, w')
    /\ wf w'
    /\ 19 < next w'.
Proof.
  apply (decorate_keeps_wf Scenario.base Scenario.blockA 0 "div"
           [("class", "image-link")] Scenario.rowsA).
  - split; reflexivity.
  - reflexivity.
Defined.

Lemma decorate_twice_scenario :
  exists w1 w2 tg a ks picture,
    Dom.lookup Scenario.blockB 0 = Some (Elem 0 tg a ks)
    /\ decorate Scenario.base 0 Scenario.blockB = Ok (tt, w1)
    /\ Dom.lookup w1 0 = Some (Elem 0 tg a [picture])
    /\ tag_of picture = Some "picture"
    /\ decorate Scenario.base 0 w1 = Ok (tt, w2)
    /\ Dom.lookup w2 0 = Some (Elem 0 tg a [Text (next w1) error_text]).
Proof.
  apply (decorate_twice Scenario.base Scenario.blockB 0 [1; 3] None (Some 5) None None).
  - split; reflexivity.
  - reflexivity.
  - reflexivity.
  - reflexivity.
  - right. discriminate.
  - reflexivity.
  - reflexivity.
  - reflexivity.
  - intros i t H Ht.
    do 7 (destruct i as [|i];
          [vm_compute in H; injection H as <-;
           first [discriminate Ht | reflexivity]|]).
    vm_compute in H. discriminate H.
Defined.

Lemma link_wraps_built_picture_scenario :
  exists picture w1 link w2 kids,
    createResponsivePicture Scenario.base (Some 3) (Some 7) None Scenario.blockA
      = Ok (picture, w1)
    /\ Dom.lookup w1 picture = Some (Elem picture "picture" [] kids)
    /\ createLink "https://site/x" "" "_self" picture w1 = Ok (link, w2)
    /\ Dom.lookup w2 link =
         Some (Elem link "a" (link_atts "https://site/x" "" "_self")
                 [Elem picture "picture" [] kids])
    /\ roots w2 = roots Scenario.blockA
                    ++ [Elem link "a" (link_atts "https://site/x" "" "_self")
                          [Elem picture "picture" [] kids]].
Proof.
  apply (link_wraps_built_picture Scenario.base Scenario.blockA (Some 3) (Some 7) None
           (Some 4) (Some 8) "https://site/x" "" "_self").
  - split; reflexivity.
  - reflexivity.
  - reflexivity.
Defined.
